(** * mosca: the Redis-cluster persistence (lib/persistence/redis_cluster.js)
    and the start-up of the server (lib/server.js)

    A shallow embedding of [RedisClusterPersistence]: the subscription store,
    the retained-message store, the offline-packet queue, [newSub], the
    handler of the synchronisation channel and the resynchronisation at
    start-up, over a functional model of the Redis commands the file issues.
    Callbacks, commands and timers are recorded in a trace, so that "which
    command was sent" and "which callback fired, with what" are statements
    about a list of events.

    One node is modelled, with the store as this node sees it; the commands
    of an operation are answered in the order they are sent.  Connecting to
    the store and subscribing to the channel are outside the model; of the
    start-up, the handling of the keys found is modelled.

    Of the server, the serializer of the logged packets and the steps that
    start the listeners are modelled. *)

From Stdlib Require Import ZArith List.
From Stdlib.Strings Require Import Ascii String Byte.
From Stdlib Require Import DecimalString.
From stdpp Require Import base option list sorting gmap strings.

Set Warnings "-register-all".
Local Open Scope string_scope.
Local Open Scope list_scope.
Local Open Scope Z_scope.

(** ** JavaScript strings *)

Module JsString.

(** [s.split(sep)] for a one-character separator: the tokens between the
    occurrences of [sep]; the empty string gives one empty token. *)
Fixpoint split (sep : ascii) (s : string) : list string :=
  match s with
  | EmptyString => [EmptyString]
  | String c r =>
      if decide (c = sep) then EmptyString :: split sep r
      else match split sep r with
           | h :: t => String c h :: t
           | [] => [String c EmptyString]
           end
  end.

(** [s.indexOf(c) >= 0] for a one-character needle. *)
Fixpoint contains (c : ascii) (s : string) : bool :=
  match s with
  | EmptyString => false
  | String d r => if decide (d = c) then true else contains c r
  end.

(** the part of [s] before its first [c] (all of [s] when there is none) *)
Fixpoint before (c : ascii) (s : string) : string :=
  match s with
  | EmptyString => EmptyString
  | String d r => if decide (d = c) then EmptyString else String d (before c r)
  end.

(** [a <= b] in the order [Array.prototype.sort] uses by default
    (code units, here the characters' codes) *)
Definition le (a b : string) : Prop := String.leb a b = true.

#[global] Instance le_dec a b : Decision (le a b).
Proof. unfold le. apply _. Defined.

End JsString.

(** ** JavaScript values

    The values this file handles: what [JSON.parse] returns, plus [Buffer]
    for packet payloads and [undefined] for the slots of an array that hold
    nothing.  Numbers are the integers the broker uses (qos, message ids,
    bytes).  An object is its list of properties in enumeration order
    ([Object.keys] order); property names are unique in it. *)

Inductive value : Type :=
| VUndefined
| VNull
| VBool (b : bool)
| VNum (n : Z)
| VStr (s : string)
| VBuf (bytes : list byte)
| VArr (items : list value)
| VObj (props : list (string * value)).

(** Errors thrown by the JavaScript run time or reported by the store. *)
Inductive js_error : Type :=
| SyntaxError      (* JSON.parse on a text that is not JSON *)
| TypeError        (* property access on null/undefined, Object.keys on a non-object *)
| RangeError       (* new Buffer on a negative size *)
| SystemError      (* fs.readFileSync on a file that cannot be read *)
| ValidationError. (* Matcher.add on a malformed pattern *)

Inductive store_error : Type :=
| StoreUnavailable (* the command did not reach the store or timed out *)
| WrongType.       (* WRONGTYPE: the key holds another kind of value *)

Module Js.

(** [!!v] *)
Definition truthy (v : value) : bool :=
  match v with
  | VUndefined | VNull => false
  | VBool b => b
  | VNum n => negb (n =? 0)
  | VStr s => negb (String.eqb s "")
  | VBuf _ | VArr _ | VObj _ => true
  end.

(** [typeof v === 'object'] *)
Definition is_object (v : value) : bool :=
  match v with
  | VNull | VBuf _ | VArr _ | VObj _ => true
  | VUndefined | VBool _ | VNum _ | VStr _ => false
  end.

(** [o[k]] on a property list: [None] is [undefined] *)
Fixpoint prop {V} (k : string) (props : list (string * V)) : option V :=
  match props with
  | [] => None
  | (k', v) :: r => if decide (k' = k) then Some v else prop k r
  end.

(** [o[k] = v]: an existing property keeps its place, a new one goes last *)
Fixpoint set_prop {V} (k : string) (v : V) (props : list (string * V))
  : list (string * V) :=
  match props with
  | [] => [(k, v)]
  | (k', v') :: r =>
      if decide (k' = k) then (k, v) :: r else (k', v') :: set_prop k v r
  end.

(** [v[k]] for a property name that is not a built-in one: a TypeError on
    [null] and [undefined], [undefined] ([None]) on a value that is not an
    object *)
Definition get (v : value) (k : string) : js_error + option value :=
  match v with
  | VUndefined | VNull => inl TypeError
  | VObj props => inr (prop k props)
  | _ => inr None
  end.

(** [x === s] for a string [s] *)
Definition is_string (x : option value) (s : string) : bool :=
  match x with
  | Some (VStr s') => bool_decide (s' = s)
  | _ => false
  end.

(** decimal text of an array index *)
Definition index_name (i : nat) : string :=
  NilZero.string_of_uint (Nat.to_uint i).

(** [Object.keys(v)] (ES5): the own enumerable property names of an object,
    a TypeError on anything that is not an object. *)
Definition keys (v : value) : js_error + list string :=
  match v with
  | VObj props => inr props.*1
  | VArr items => inr (index_name <$> seq 0 (length items))
  | VBuf bytes => inr (index_name <$> seq 0 (length bytes))
  | VUndefined | VNull | VBool _ | VNum _ | VStr _ => inl TypeError
  end.

Definition byte_num (b : byte) : value := VNum (Z.of_N (Byte.to_N b)).

Definition num_byte (v : value) : byte :=
  match v with
  | VNum n => default "000"%byte (Byte.of_N (Z.to_N (n mod 256)))
  | _ => "000"%byte
  end.

Definition string_bytes (s : string) : list byte :=
  map byte_of_ascii (list_ascii_of_string s).

(** [new Buffer(x)]: an array of numbers gives its elements (each taken
    modulo 256), a string its bytes, a buffer a copy, a number that many
    bytes, filled with zeros (a negative size is a RangeError; the limit of
    the run time on the size is left out).  [undefined] and the other
    values are a TypeError. *)
Definition new_Buffer (x : option value) : js_error + list byte :=
  match x with
  | Some (VArr items) => inr (map num_byte items)
  | Some (VStr s) => inr (string_bytes s)
  | Some (VBuf bytes) => inr bytes
  | Some (VNum n) =>
      if n <? 0 then inl RangeError else inr (replicate (Z.to_nat n) "000"%byte)
  | _ => inl TypeError
  end.

(** What [JSON.stringify] writes for a value: a [Buffer] becomes the array
    of its bytes (later versions of Node wrap that array in an object, which
    [new Buffer] unwraps again); [undefined] becomes [null] in an array and
    is left out of an object (for [undefined] itself there is no text);
    everything else is kept. *)
Fixpoint jsonify (v : value) : value :=
  match v with
  | VBuf bytes => VArr (map byte_num bytes)
  | VArr items =>
      VArr (map (fun x => match x with VUndefined => VNull | _ => jsonify x end) items)
  | VObj props =>
      VObj (omap (fun kv => match snd kv with
                            | VUndefined => None
                            | _ => Some (fst kv, jsonify (snd kv))
                            end) props)
  | _ => v
  end.

(** [String(x)], the text of a value: what a command is sent with when its
    key is not a string (the client library is taken to send the text of
    its arguments).  An array is the texts of its elements, separated by
    commas; a buffer, which no parsed text holds, is its bytes read as
    characters. *)
Fixpoint to_string (v : value) : string :=
  match v with
  | VUndefined => "undefined"
  | VNull => "null"
  | VBool b => if b then "true" else "false"
  | VNum n => NilZero.string_of_int (Z.to_int n)
  | VStr s => s
  | VBuf bytes => string_of_list_ascii (map ascii_of_byte bytes)
  | VArr items =>
      String.concat ","
        (map (fun x => match x with
                       | VUndefined | VNull => ""
                       | _ => to_string x
                       end) items)
  | VObj _ => "[object Object]"
  end.

End Js.

(** ** Texts in the store

    A text kept in Redis is either the output of [JSON.stringify] on a value,
    kept as that value ([Json v]: [JSON.parse] reads it back as [v]), or a
    text that is not JSON ([Garbage s]: [JSON.parse] throws on it). *)
Inductive text : Type :=
| Json (v : value)
| Garbage (s : string).

Definition JSON_stringify (v : value) : text := Json (Js.jsonify v).

(** The [result] argument of the callback of GET, HGET and RPOP. *)
Inductive reply : Type :=
| Undefined                 (* the command failed: only [err] is passed *)
| Nil                       (* null: no such key, field or element *)
| Bulk (t : text).          (* the stored string *)

Module Reply.

(** [!!result]: a string is truthy unless it is empty *)
Definition truthy (r : reply) : bool :=
  match r with
  | Undefined | Nil => false
  | Bulk (Json _) => true
  | Bulk (Garbage s) => negb (String.eqb s "")
  end.

(** [JSON.parse(result)]: the argument is converted to a string first, so
    [null] parses to [null] and [undefined] is a SyntaxError. *)
Definition JSON_parse (r : reply) : js_error + value :=
  match r with
  | Nil => inr VNull
  | Bulk (Json v) => inr v
  | Bulk (Garbage _) => inl SyntaxError
  | Undefined => inl SyntaxError
  end.

End Reply.

(** ** The topic matcher

    [require("./matcher")]: the file of the Matcher is not part of the
    sources at hand, so its three operations follow the design document
    (section 4.1).  A matcher is kept as its entries, the (pattern,
    subscriber) pairs, in the order they were added; the document's trie is
    an index over this set.  The subscriber is any value with a decidable
    equality: client ids in [_subMatcher], the constant [true] in the matcher
    [lookupRetained] builds. *)

Module Matcher.

(** Modelled from the spec: the state of the Topic Matcher (matcher.js is
    missing), the set of MatcherEntry pairs (pattern, subscriber-id). *)
Abbreviation t A := (list (string * A)) (only parsing).

Section Matcher.

Context {A : Type} `{EqDecision A}.

(** Modelled from the spec: a new Matcher (matcher.js is missing) has no
    entry. *)
Definition empty : t A := [].

(** Modelled from the spec: topic levels, the tokens between the "/"
    (matcher.js is missing). *)
Definition levels (s : string) : list string := JsString.split "/" s.

(** Modelled from the spec: wildcard matching of matcher.js (missing):
    "+" matches exactly one topic level, "#" matches zero or more trailing
    levels and is only legal as the final token. *)
Fixpoint levels_match (pattern topic : list string) : bool :=
  match pattern with
  | [] => match topic with [] => true | _ :: _ => false end
  | p :: ps =>
      if bool_decide (p = "#" ∧ ps = []) then true
      else match topic with
           | [] => false
           | l :: ls =>
               (bool_decide (p = "+") || bool_decide (p = l)) && levels_match ps ls
           end
  end.

(** Modelled from the spec: whether a pattern of matcher.js (missing)
    matches a topic, level by level. *)
Definition matches (pattern topic : string) : bool :=
  levels_match (levels pattern) (levels topic).

(** Modelled from the spec: the validation [add] of matcher.js (missing)
    applies; a pattern is malformed when "#" is not in final position. *)
Fixpoint valid_levels (pattern : list string) : bool :=
  match pattern with
  | [] => true
  | p :: ps => (negb (bool_decide (p = "#")) || bool_decide (ps = [])) && valid_levels ps
  end.

(** Modelled from the spec: the patterns [add] of matcher.js (missing)
    accepts. *)
Definition valid (pattern : string) : bool := valid_levels (levels pattern).

(** Modelled from the spec: [add(pattern, subscriberId)] of matcher.js
    (missing): inserts the subscriber under the pattern, idempotent;
    a malformed pattern is rejected with a validation error. *)
Definition add (m : t A) (pattern : string) (a : A) : js_error + t A :=
  if valid pattern then
    inr (if bool_decide ((pattern, a) ∈ m) then m else m ++ [(pattern, a)])
  else inl ValidationError.

(** Modelled from the spec: [remove(pattern, subscriberId)] of matcher.js
    (missing): removes the association, a no-op if absent. *)
Definition remove (m : t A) (pattern : string) (a : A) : t A :=
  filter (λ e, e ≠ (pattern, a)) m.

(** Modelled from the spec: [match(topic)] of matcher.js (missing): every
    subscriber with a pattern that matches the topic, without duplicates. *)
Definition match_ (m : t A) (topic : string) : list A :=
  remove_dups ((filter (λ e, Is_true (matches e.1 topic)) m).*2).

End Matcher.
End Matcher.

(** ** The store

    One Redis key space.  A key holds a string (with the expiry it was set
    with, in milliseconds), a list (head first: LPUSH adds at the head, RPOP
    takes the last element) or a hash.  Time does not pass inside the model:
    no key expires between two commands. *)

Inductive entry : Type :=
| EString (t : text) (px : option Z)
| EList (items : list text)
| EHash (fields : gmap string text).

Inductive command : Type :=
| GET (key : string)
| SET (key : string) (t : text) (px : Z)
| DEL (key : string)
| HSET (key field : string) (t : text)
| HGET (key field : string)
| HKEYS (key : string)
| LPUSH (key : string) (t : text)
| RPOP (key : string)
| PUBLISH (channel : string) (t : text)
| DISCONNECT.

(** What is left to run later: [newSub.bind(null, key, cb, true)]. *)
Inductive task : Type :=
| NewSub (key : string) (cb : bool) (retried : bool).

(** What an operation does that its caller or the store can observe. *)
Inductive event : Type :=
| Command (c : command)
| Callback (err : option store_error) (arg : option value)
| SetTimeout (tk : task) (ms : Z).

(** The persistence object ([this]) together with the store it talks to.
    [listeners] gives, for a channel, the number of connections subscribed
    to it, which is what PUBLISH replies.  [faults] says which of the coming
    commands fail ([true]: the command is not executed and its callback gets
    an error); no entry means no fault. *)
#[projections(primitive)]
Record state : Type := {
  options_channel : string;
  options_ttl_subscriptions : Z;
  _uuid : string;
  listeners : string → Z;
  _subMatcher : Matcher.t (option string);
  db : gmap string entry;
  faults : list bool;
  trace : list event;
}.

Definition subs : string := "{persistence:subs}:".
Definition packets : string := "{persistence:packets}:".
Definition retained : string := "{persistence:retained}".


(** ** Sessions and packets, as the broker hands them over *)

(** A subscription, as far as the persistence reads and serialises it. *)
Record subscription : Type := { qos : Z }.

(** A client session: [subscriptions] lists the properties of the
    JavaScript object in enumeration order. *)
Record client : Type := {
  id : string;
  clean : bool;
  subscriptions : list (string * subscription);
}.

Module Packet.

Record t : Type := {
  topic : string;
  payload : list byte;
  qos : Z;
  messageId : option Z;
  retain : option bool;
}.

(** The JavaScript object of a packet; absent properties are left out. *)
Definition to_value (p : t) : value :=
  VObj ([("topic", VStr (topic p)); ("payload", VBuf (payload p)); ("qos", VNum (qos p))]
        ++ match messageId p with Some n => [("messageId", VNum n)] | None => [] end
        ++ match retain p with Some b => [("retain", VBool b)] | None => [] end).

End Packet.

Definition subscription_value (s : subscription) : value :=
  VObj [("qos", VNum (qos s))].

Definition subscriptions_value (l : list (string * subscription)) : value :=
  VObj (prod_map Datatypes.id subscription_value <$> l).

(** ** Running an operation

    An operation is a function of the state; it returns, throws (an uncaught
    exception ends the handler it occurs in) or is cut off by the recursion
    bound of the model. *)

Inductive outcome (A : Type) : Type :=
| Return (a : A)
| Throw (e : js_error)
| OutOfFuel.

Arguments Return {A} a.
Arguments Throw {A} e.
Arguments OutOfFuel {A}.

Definition M (A : Type) : Type := state → state * outcome A.

#[global] Instance M_ret : MRet M := λ A a st, (st, Return a).

#[global] Instance M_bind : MBind M := λ A B f m st,
  match m st with
  | (st', Return a) => f a st'
  | (st', Throw e) => (st', Throw e)
  | (st', OutOfFuel) => (st', OutOfFuel)
  end.

Definition throw {A} (e : js_error) : M A := λ st, (st, Throw e).

Definition out_of_fuel {A} : M A := λ st, (st, OutOfFuel).

Definition try {A} (r : js_error + A) : M A :=
  match r with inl e => throw e | inr a => mret a end.

Definition get_state : M state := λ st, (st, Return st).

(** The state with a new matcher content, store, fault list and trace; the
    options and the identity of the node never change. *)
Definition upd (st : state) (m : Matcher.t (option string))
    (d : gmap string entry) (f : list bool) (tr : list event) : state :=
  {| options_channel := options_channel st;
     options_ttl_subscriptions := options_ttl_subscriptions st;
     _uuid := _uuid st;
     listeners := listeners st;
     _subMatcher := m; db := d; faults := f; trace := tr |}.

Definition set_db (d : gmap string entry) : M unit := λ st,
  (upd st (_subMatcher st) d (faults st) (trace st), Return ()).

Definition set_subMatcher (m : Matcher.t (option string)) : M unit := λ st,
  (upd st m (db st) (faults st) (trace st), Return ()).

Definition emit (e : event) : M unit := λ st,
  (upd st (_subMatcher st) (db st) (faults st) (trace st ++ [e]), Return ()).

(** Whether the next command fails. *)
Definition next_fault (st : state) : bool := default false (head (faults st)).

(** Sends a command: it is logged, and the next entry of [faults] says
    whether it fails. *)
Definition send (c : command) : M bool := λ st,
  (upd st (_subMatcher st) (db st) (tail (faults st)) (trace st ++ [Command c]),
   Return (next_fault st)).

(** [for_each l f]: [l.forEach(f)] *)
Fixpoint for_each {A} (l : list A) (f : A → M unit) : M unit :=
  match l with
  | [] => mret ()
  | x :: r => f x;; for_each r f
  end.

(** [collect l f]: runs [f] on every element in order and keeps the results *)
Fixpoint collect {A B} (l : list A) (f : A → M B) : M (list B) :=
  match l with
  | [] => mret []
  | x :: r => y ← f x; ys ← collect r f; mret (y :: ys)
  end.

(** The error [async] passes to the final callback: the first one reported. *)
Fixpoint first_error (l : list (option store_error)) : option store_error :=
  match l with
  | [] => None
  | Some e :: _ => Some e
  | None :: r => first_error r
  end.

(** The array [async.parallel] hands to the final callback when it calls
    it, at the first error or after the last reply: the replies received so
    far, the one of a task that failed being [undefined]. *)
Fixpoint parallel_results (replies : list (option store_error * option value))
  : list value :=
  match replies with
  | [] => []
  | (Some _, r) :: _ => [default VUndefined r]
  | (None, r) :: rest => default VUndefined r :: parallel_results rest
  end.

(** ** The Redis commands of [this._rc]

    Each returns the arguments [(err, result)] of its callback; a command
    that fails passes the error only.  For DEL and LPUSH the error alone is
    kept: their callbacks are those of [async], which hand on nothing
    else. *)
Module Rc.

Definition get (key : string) : M (option store_error * reply) :=
  failed ← send (GET key);
  if failed : bool then mret (Some StoreUnavailable, Undefined)
  else
    st ← get_state;
    match db st !! key with
    | None => mret (None, Nil)
    | Some (EString t _) => mret (None, Bulk t)
    | Some _ => mret (Some WrongType, Undefined)
    end.

Definition set (key : string) (t : text) (px : Z)
  : M (option store_error * option value) :=
  failed ← send (SET key t px);
  if failed : bool then mret (Some StoreUnavailable, None)
  else
    st ← get_state;
    set_db (<[key := EString t (Some px)]> (db st));;
    mret (None, Some (VStr "OK")).

Definition del (key : string) : M (option store_error) :=
  failed ← send (DEL key);
  if failed : bool then mret (Some StoreUnavailable)
  else
    st ← get_state;
    set_db (delete key (db st));;
    mret None.

(** HSET replies 1 when the field is new and 0 when it replaces one. *)
Definition hset (key field : string) (t : text)
  : M (option store_error * option value) :=
  failed ← send (HSET key field t);
  if failed : bool then mret (Some StoreUnavailable, None)
  else
    st ← get_state;
    match db st !! key with
    | None =>
        set_db (<[key := EHash {[field := t]}]> (db st));;
        mret (None, Some (VNum 1))
    | Some (EHash h) =>
        set_db (<[key := EHash (<[field := t]> h)]> (db st));;
        mret (None, Some (VNum (match h !! field with Some _ => 0 | None => 1 end)))
    | Some _ => mret (Some WrongType, None)
    end.

Definition hget (key field : string) : M (option store_error * reply) :=
  failed ← send (HGET key field);
  if failed : bool then mret (Some StoreUnavailable, Undefined)
  else
    st ← get_state;
    match db st !! key with
    | None => mret (None, Nil)
    | Some (EHash h) =>
        mret (None, match h !! field with Some t => Bulk t | None => Nil end)
    | Some _ => mret (Some WrongType, Undefined)
    end.

Definition hkeys (key : string) : M (option store_error * option (list string)) :=
  failed ← send (HKEYS key);
  if failed : bool then mret (Some StoreUnavailable, None)
  else
    st ← get_state;
    match db st !! key with
    | None => mret (None, Some [])
    | Some (EHash h) => mret (None, Some (map_to_list h).*1)
    | Some _ => mret (Some WrongType, None)
    end.

Definition lpush (key : string) (t : text) : M (option store_error) :=
  failed ← send (LPUSH key t);
  if failed : bool then mret (Some StoreUnavailable)
  else
    st ← get_state;
    match db st !! key with
    | None => set_db (<[key := EList [t]]> (db st));; mret None
    | Some (EList l) => set_db (<[key := EList (t :: l)]> (db st));; mret None
    | Some _ => mret (Some WrongType)
    end.

(** RPOP takes the last element; a list that becomes empty is removed. *)
Definition rpop (key : string) : M (option store_error * reply) :=
  failed ← send (RPOP key);
  if failed : bool then mret (Some StoreUnavailable, Undefined)
  else
    st ← get_state;
    match db st !! key with
    | None => mret (None, Nil)
    | Some (EList l) =>
        match last l with
        | None => mret (None, Nil)
        | Some t =>
            set_db (match removelast l with
                    | [] => delete key (db st)
                    | l' => <[key := EList l']> (db st)
                    end);;
            mret (None, Bulk t)
        end
    | Some _ => mret (Some WrongType, Undefined)
    end.

(** PUBLISH reaches the other nodes; on this one it is only sent.  It
    replies the number of connections the message was delivered to. *)
Definition publish (channel : string) (t : text)
  : M (option store_error * option value) :=
  failed ← send (PUBLISH channel t);
  if failed : bool then mret (Some StoreUnavailable, None)
  else
    st ← get_state;
    mret (None, Some (VNum (listeners st channel))).

(** Closing the connections is not a command of the store: it is logged and
    its callback fires. *)
Definition disconnect : M (option store_error) :=
  emit (Command DISCONNECT);; mret None.

End Rc.

(** ** RedisClusterPersistence *)

(** [this.packets + client] for a subscriber the matcher returned:
    [undefined] is written out. *)
Definition subscriber_name (c : option string) : string := default "undefined" c.

(** [x = JSON.parse(x); x.payload = new Buffer(x.payload)]: reading
    [payload] fails on [null] and gives [undefined] on the values that are
    not objects, which [new Buffer] rejects. *)
Definition restore_payload (v : value) : js_error + value :=
  match v with
  | VObj props =>
      match Js.new_Buffer (Js.prop "payload" props) with
      | inl e => inl e
      | inr bytes => inr (VObj (Js.set_prop "payload" (VBuf bytes) props))
      end
  | _ => inl TypeError
  end.

(** [this._subMatcher.add(sub, id)] *)
Definition subMatcher_add (sub : string) (id : option string) : M unit :=
  st ← get_state;
  m ← try (Matcher.add (_subMatcher st) sub id);
  set_subMatcher m.

(** [this._subMatcher.remove(sub, id)] *)
Definition subMatcher_remove (sub : string) (id : option string) : M unit :=
  st ← get_state;
  set_subMatcher (Matcher.remove (_subMatcher st) sub id).

(** The callback of the GET in [newSub] (lines 91-118). *)
Definition newSub_reply (key : string) (cb retried : bool)
    (err : option store_error) (result : reply) : M unit :=
  go_on ← match err with
          | Some e => if cb then emit (Callback (Some e) None);; mret true
                      else mret false
          | None => mret true
          end;
  if go_on : bool then
    let id := JsString.split ":" key !! 2%nat in
    subs ← try (Reply.JSON_parse result);
    if negb (Reply.truthy result) || negb (Js.is_object subs) then
      if negb retried then emit (SetTimeout (NewSub key cb true) 500)
      else mret ()
    else
      names ← try (Js.keys subs);
      for_each names (λ sub, subMatcher_add sub id);;
      if cb then emit (Callback None None) else mret ()
  else mret ().

Definition newSub (key : string) (cb retried : bool) : M unit :=
  '(err, result) ← Rc.get key;
  newSub_reply key cb retried err result.

(** A timer fires. *)
Definition run_task (tk : task) : M unit :=
  match tk with
  | NewSub key cb retried => newSub key cb retried
  end.

(** [newSub(key)] (lines 90-100) on a key that is not a string, which the
    handler of "message" may pass: the GET is sent, with the text of the
    key, and its callback returns on an error and fails on [key.split]
    otherwise. *)
Definition newSub_other (key : option value) : M unit :=
  '(err, result) ← Rc.get (default "undefined" (Js.to_string <$> key));
  match err with
  | Some _ => mret ()
  | None => throw TypeError
  end.

(** The handler of "message" (lines 123-132). *)
Definition on_message (channel : string) (message : text) : M unit :=
  parsed ← try (Reply.JSON_parse (Bulk message));
  process ← try (Js.get parsed "process");
  st ← get_state;
  if negb (Js.is_string process (_uuid st)) then
    key ← try (Js.get parsed "key");
    match key with
    | Some (VStr key) => newSub key false false
    | _ => newSub_other key
    end
  else mret ().

(** The callback is handed to HSET itself: it gets the reply of the
    command. *)
Definition storeRetained (packet : Packet.t) : M unit :=
  '(err, reply) ← Rc.hset retained (Packet.topic packet)
                    (JSON_stringify (Packet.to_value packet));
  emit (Callback err reply).

(** The callback of the HGET in [match] (lines 173-183), up to its [cb]:
    the new content of [matched]. *)
Definition match_reply (matched : list value) (packet : reply) : M (list value) :=
  if Reply.truthy packet then
    parsed ← try (Reply.JSON_parse packet);
    restored ← try (restore_payload parsed);
    mret (matched ++ [restored])
  else mret matched.

(** [async.each(topics, match, ...)] once the HGETs are sent: the replies
    are handled in order; the final callback fires at the first error, with
    [matched] as it is then, or after the last reply. *)
Fixpoint each_match (replies : list (option store_error * reply))
    (matched : list value) (called : bool) : M unit :=
  match replies with
  | [] => if called then mret () else emit (Callback None (Some (VArr matched)))
  | (err, packet) :: rest =>
      matched ← match_reply matched packet;
      match err with
      | Some e =>
          (if called then mret ()
           else emit (Callback (Some e) (Some (VArr matched))));;
          each_match rest matched true
      | None => each_match rest matched called
      end
  end.

Definition lookupRetained (pattern : string) : M unit :=
  if JsString.contains "#" pattern || JsString.contains "+" pattern then
    matcher ← try (Matcher.add Matcher.empty pattern true);
    '(err, topics) ← Rc.hkeys retained;
    match topics with
    | None => throw TypeError
    | Some topics =>
        let topics := merge_sort JsString.le topics in
        let topics :=
          filter (λ topic, (0 < length (Matcher.match_ matcher topic))%nat) topics in
        replies ← collect topics (λ topic, Rc.hget retained topic);
        each_match replies [] false
    end
  else
    '(err, packet) ← Rc.hget retained pattern;
    matched ← match_reply [] packet;
    emit (Callback err (Some (VArr matched))).

(** The object [subscriptions] of [storeSubscriptions] (lines 214-220). *)
Definition persisted (client_subscriptions : list (string * subscription))
  : list (string * subscription) :=
  fold_left
    (λ subscriptions key,
       match Js.prop key client_subscriptions with
       | Some s => if 0 <? qos s then Js.set_prop key s subscriptions
                   else subscriptions
       | None => subscriptions
       end)
    client_subscriptions.*1 [].

Definition storeSubscriptions (client : client) : M unit :=
  if clean client then emit (Callback None None)
  else
    let clientSubKey := subs +:+ id client in
    let subscriptions := persisted (subscriptions client) in
    for_each subscriptions.*1 (λ e,
      st ← get_state;
      if bool_decide (Some (id client) ∈ Matcher.match_ (_subMatcher st) e)
      then mret ()
      else subMatcher_add e (Some (id client)));;
    st ← get_state;
    r1 ← Rc.set clientSubKey (JSON_stringify (subscriptions_value subscriptions))
           (options_ttl_subscriptions st);
    r2 ← Rc.publish (options_channel st)
           (JSON_stringify (VObj [("key", VStr clientSubKey);
                                  ("process", VStr (_uuid st))]));
    emit (Callback (first_error [r1.1; r2.1])
            (Some (VArr (parallel_results [r1; r2])))).

(** [JSON.parse(x) || {}] *)
Definition or_empty (v : value) : value := if Js.truthy v then v else VObj [].

Definition _cleanClient (client : client) (done : bool) : M bool :=
  if clean client then
    let key := subs +:+ id client in
    '(err, reply) ← Rc.get key;
    parsed ← try (Reply.JSON_parse reply);
    names ← try (Js.keys (or_empty parsed));
    for_each names (λ sub, subMatcher_remove sub (Some (id client)));;
    e1 ← Rc.del key;
    e2 ← Rc.del (packets +:+ id client);
    (if done then emit (Callback (first_error [e1; e2]) (Some (VObj [])))
     else mret ());;
    mret true
  else mret false.

Definition lookupSubscriptions (client : client) : M unit :=
  cleaned ← _cleanClient client true;
  if cleaned : bool then mret ()
  else
    let key := subs +:+ id client in
    '(err, result) ← Rc.get key;
    parsed ← try (Reply.JSON_parse result);
    let subscriptions := or_empty parsed in
    names ← try (Js.keys subscriptions);
    for_each names (λ sub, subMatcher_remove sub (Some (id client)));;
    match err with
    | Some e => emit (Callback (Some e) (Some subscriptions))
    | None =>
        err ← Rc.del key;
        emit (Callback err (Some subscriptions))
    end.

Definition _storePacket (client : option string) (packet : Packet.t)
  : M (option store_error) :=
  Rc.lpush (packets +:+ subscriber_name client)
           (JSON_stringify (Packet.to_value packet)).

Definition storeOfflinePacket (packet : Packet.t) : M unit :=
  st ← get_state;
  let matches := Matcher.match_ (_subMatcher st) (Packet.topic packet) in
  errs ← collect matches (λ client, _storePacket client packet);
  emit (Callback (first_error errs) None).

(** [streamOfflinePackets] calls itself from the callback of its RPOP;
    [fuel] bounds the number of calls. *)
Fixpoint streamOfflinePackets (fuel : nat) (client : client) : M unit :=
  match fuel with
  | O => out_of_fuel
  | S fuel =>
      cleaned ← _cleanClient client false;
      if cleaned : bool then mret ()
      else
        '(err, result) ← Rc.rpop (packets +:+ id client);
        if Reply.truthy result then
          parsed ← try (Reply.JSON_parse result);
          restored ← try (restore_payload parsed);
          emit (Callback None (Some restored));;
          streamOfflinePackets fuel client
        else mret ()
  end.

Definition close : M unit :=
  err ← Rc.disconnect;
  emit (Callback err None).

(** ** The full resynchronisation

    The handler of "subscribe" (lines 135-147) asks the store for the
    subscription keys and, in the callback of that command, hands them to
    [async.each] with [newSub] as iterator. *)

(** The callback of the KEYS command (lines 136-146) on a reply that is a
    list of keys.  [async.each] calls [newSub] on every key at once, so all
    the GETs are sent before the first reply is handled; the replies are
    handled in the order of the keys.  The [cb] of each [newSub] is the
    iterator callback of [async.each]: its calls are the [Callback] events
    this handler records. *)
Definition resync (keys : list string) : M unit :=
  replies ← collect keys (λ key, Rc.get key);
  for_each (zip keys replies)
    (λ kr, newSub_reply kr.1 true false kr.2.1 kr.2.2).

(** The bookkeeping of [async.each] over [n] items: given the calls of the
    iterator callbacks so far, whether the final callback has been invoked
    and with what.  It is invoked at the first call that carries an error,
    or at the [n]-th call when none before carried one. *)
Fixpoint each_final (n completed : nat) (calls : list (option store_error))
  : option (option store_error) :=
  match calls with
  | [] => None
  | Some e :: _ => Some (Some e)
  | None :: rest =>
      if decide (n ≤ S completed)%nat then Some None
      else each_final n (S completed) rest
  end.

(** [async.each(arr, iterator, callback)]: an empty [arr] invokes the final
    callback at once. *)
Definition async_each (n : nat) (calls : list (option store_error))
  : option (option store_error) :=
  match n with
  | O => Some None
  | S _ => each_final n 0 calls
  end.

(** ** The server (lib/server.js) *)

Module Server.

(** [packetSerializer] (lines 548-572) on the properties of a packet: each
    of the five properties is copied when its value is truthy. *)
Definition copy_truthy (name : string) (packet result : list (string * value))
  : list (string * value) :=
  match Js.prop name packet with
  | Some v => if Js.truthy v then Js.set_prop name v result else result
  | None => result
  end.

Definition packetSerializer (packet : list (string * value)) : list (string * value) :=
  let result := [] in
  let result := copy_truthy "messageId" packet result in
  let result := copy_truthy "topic" packet result in
  let result := copy_truthy "qos" packet result in
  let result := copy_truthy "unsubscriptions" packet result in
  let result := copy_truthy "subscriptions" packet result in
  result.

(** The options the start-up reads (lines 162-218), once [extend] has
    merged them with the defaults.  [port] is 1883 when none is given; a
    port that is absent is [undefined].  [http] and [https] are an object
    or absent. *)
Record http_options : Type := { http_port : option Z }.

Record secure_options : Type := {
  secure_port : option Z;
  keyPath : option string;
  certPath : option string;
}.

(** [opts.secure]: absent ([undefined]), a falsy value that [extend] copies
    ([null], [false]), or an object. *)
Inductive secure_option : Type :=
| SecureUndefined
| SecureFalsy
| SecureObject (s : secure_options).

Record options : Type := {
  port : Z;
  http : option http_options;
  https : option http_options;
  secure : secure_option;
  allowNonSecure : bool;
  onlyHttp : bool;
}.

(** A server the start-up creates and the port it listens on. *)
Inductive listener : Type :=
| HttpServer (p : Z)
| HttpsServer (p : Z)
| SecureMqttServer (p : Z)
| MqttServer (p : Z).

(** [p || d] on a port *)
Definition port_or (p : option Z) (d : Z) : Z :=
  match p with
  | Some n => if n =? 0 then d else n
  | None => d
  end.

(** The object logged once the servers are started (lines 211-216). *)
Record log_info : Type := {
  log_port : option Z;
  log_securePort : option Z;
  log_httpPort : option Z;
  log_httpsPort : option Z;
}.

(** [fs.readFileSync(path)], as far as it fails: a TypeError on a path that
    is [undefined], the error of the file system on a file that cannot be
    read. *)
Definition readFileSync (readable : string → bool) (path : option string)
  : js_error + unit :=
  match path with
  | None => inl TypeError
  | Some file => if readable file then inr () else inl SystemError
  end.

(** Reading [secure.keyPath], then [secure.certPath] (lines 182-183, and
    [mqtt.createSecureServer] of line 196, which reads the two files the
    same way): a TypeError when [secure] is [undefined] or [null], and for
    [false], whose [keyPath] is [undefined]. *)
Definition read_key_and_cert (readable : string → bool) (secure : secure_option)
  : js_error + unit :=
  match secure with
  | SecureUndefined | SecureFalsy => inl TypeError
  | SecureObject s =>
      match readFileSync readable (keyPath s) with
      | inl e => inl e
      | inr _ => readFileSync readable (certPath s)
      end
  end.

(** [that.opts.secure && !that.opts.onlyHttp] (line 195) *)
Definition secure_started (o : options) : option secure_options :=
  match secure o with
  | SecureObject s => if onlyHttp o then None else Some s
  | SecureUndefined | SecureFalsy => None
  end.

(** [(typeof that.opts.secure === 'undefined' || that.opts.allowNonSecure)
    && !that.opts.onlyHttp] (line 204) *)
Definition plain_started (o : options) : bool :=
  (match secure o with SecureUndefined => true | _ => false end
   || allowNonSecure o)
  && negb (onlyHttp o).

(** [logInfo] (lines 211-216); the secure port is read after line 197 has
    set it. *)
Definition logInfo (o : options) : log_info :=
  {| log_port := if onlyHttp o || negb (allowNonSecure o) then None
                 else Some (port o);
     log_securePort :=
       match secure o with
       | SecureObject s =>
           if onlyHttp o then secure_port s
           else Some (port_or (secure_port s) 8883)
       | SecureUndefined | SecureFalsy => None
       end;
     log_httpPort := h ← http o; Some (port_or (http_port h) 3000);
     log_httpsPort := h ← https o; Some (port_or (http_port h) 3001) |}.

(** The steps of [async.series] after the backend is ready (lines 162-227):
    the servers created, in order, and then either the object logged or the
    exception that ends the start-up.  [readable] says which files can be
    read.  Creating the servers from what was read and binding the ports
    are taken to succeed. *)
Definition start (readable : string → bool) (o : options)
  : list listener * (js_error + log_info) :=
  let servers := [] in
  let servers := match http o with
                 | Some h => servers ++ [HttpServer (port_or (http_port h) 3000)]
                 | None => servers
                 end in
  match match https o with
        | Some h =>
            match read_key_and_cert readable (secure o) with
            | inl e => inl e
            | inr _ => inr (servers ++ [HttpsServer (port_or (http_port h) 3001)])
            end
        | None => inr servers
        end with
  | inl e => (servers, inl e)
  | inr servers =>
      match match secure_started o with
            | Some s =>
                match read_key_and_cert readable (SecureObject s) with
                | inl e => inl e
                | inr _ =>
                    inr (servers ++ [SecureMqttServer (port_or (secure_port s) 8883)])
                end
            | None => inr servers
            end with
      | inl e => (servers, inl e)
      | inr servers =>
          let servers := if plain_started o then servers ++ [MqttServer (port o)]
                         else servers in
          (servers, inr (logInfo o))
      end
  end.

End Server.

(** * Vocabulary of the statements *)

(** The state once a command is sent and the store holds [d]. *)
Definition sent (st : state) (c : command) (d : gmap string entry) : state :=
  upd st (_subMatcher st) d (tail (faults st)) (trace st ++ [Command c]).

Definition valid_patterns (names : list string) : Prop :=
  Forall (λ p, Matcher.valid p = true) names.

#[global] Instance valid_patterns_dec names : Decision (valid_patterns names).
Proof. unfold valid_patterns. apply _. Defined.

(** A read that finds nothing to replay: the command went through and the
    key is absent, or holds the text of a JSON value that is not of type
    object (a number, a string, a boolean). *)
Definition no_record (st : state) (key : string) : Prop :=
  next_fault st = false ∧
  (db st !! key = None
   ∨ ∃ v px, db st !! key = Some (EString (Json v) px) ∧ Js.is_object v = false).

(** A node with the default options of the source, a given matcher content
    and store, no fault ahead and an empty trace; its own connection is the
    only one subscribed to the channel. *)
Definition node (uuid : string) (m : Matcher.t (option string))
    (d : gmap string entry) : state :=
  {| options_channel := "moscaSync";
     options_ttl_subscriptions := 60 * 60 * 1000;
     _uuid := uuid;
     listeners := λ channel, if decide (channel = "moscaSync") then 1 else 0;
     _subMatcher := m; db := d; faults := []; trace := [] |}.

(** The callback invocations recorded in a trace, in order. *)
Definition callbacks (tr : list event) : list (option store_error * option value) :=
  omap (λ e, match e with Callback err arg => Some (err, arg) | _ => None end) tr.

(** What the store holds for a client when its session starts: nothing, or
    the record an earlier [storeSubscriptions] wrote (a JSON object). *)
Definition persisted_record (st : state) (c : client)
    (record : list (string * value)) : Prop :=
  (db st !! (subs +:+ id c) = None ∧ record = [])
  ∨ ∃ px, db st !! (subs +:+ id c) = Some (EString (Json (VObj record)) px).

(** The state after the cleanup of a clean session. *)
Definition cleaned (st : state) (c : client) (record : list (string * value))
    (tr : list event) : state :=
  upd st
    (foldl (λ m sub, Matcher.remove m sub (Some (id c))) (_subMatcher st) record.*1)
    (delete (packets +:+ id c) (delete (subs +:+ id c) (db st)))
    [] tr.

(** The text [_storePacket] pushes for a packet. *)
Definition packet_text (p : Packet.t) : text := JSON_stringify (Packet.to_value p).

(** The backlog under a key, head first: none is an empty one. *)
Definition backlog (d : gmap string entry) (key : string) : option (list text) :=
  match d !! key with
  | None => Some []
  | Some (EList l) => Some l
  | Some _ => None
  end.

(** What draining a backlog adds to the trace: a pop and a callback per
    packet, and the pop that finds the backlog empty. *)
Definition drained (c : client) (ps : list Packet.t) : list event :=
  flat_map (λ p, [Command (RPOP (packets +:+ id c));
                  Callback None (Some (Packet.to_value p))]) ps
  ++ [Command (RPOP (packets +:+ id c))].

(** The retained hash holds the texts of the packets [hp], one per topic;
    no key at all is an empty hash. *)
Definition retained_store (st : state) (hp : gmap string Packet.t) : Prop :=
  db st !! retained = Some (EHash (packet_text <$> hp))
  ∨ (db st !! retained = None ∧ hp = ∅).

(** The reply of the HSET of a packet into the retained hash: 1 when the
    topic is new, 0 when a packet was retained on it. *)
Definition hset_reply (hp : gmap string Packet.t) (topic : string) : value :=
  VNum (match hp !! topic with Some _ => 0 | None => 1 end).

(** The reply of an HGET on the retained hash. *)
Definition retained_reply (hp : gmap string Packet.t) (topic : string)
  : option store_error * reply :=
  (None, match hp !! topic with Some p => Bulk (packet_text p) | None => Nil end).

(** The topics [lookupRetained] fetches for a pattern with a wildcard. *)
Definition fetched (pattern : string) (hp : gmap string Packet.t) : list string :=
  filter (λ topic, (0 < length (Matcher.match_ (A:=bool) [(pattern, true)] topic))%nat)
    (merge_sort JsString.le (map_to_list (packet_text <$> hp)).*1).

(** The patterns under which a matcher holds a subscriber, in the order of
    its entries. *)
Definition patterns_of (i : option string) (m : Matcher.t (option string))
  : list string :=
  (filter (λ x, x.2 = i) m).*1.

(** Going through [patterns] in order, the ones that get an entry of their
    own: those that neither a pattern of [owned] nor a pattern taken before
    matches. *)
Fixpoint uncovered (owned patterns : list string) : list string :=
  match patterns with
  | [] => []
  | p :: rest =>
      if existsb (λ e, Matcher.matches e p) owned then uncovered owned rest
      else p :: uncovered (owned ++ [p]) rest
  end.

(** The arguments of the callbacks of SET and PUBLISH. *)
Definition set_reply (failed : bool) : option store_error * option value :=
  if failed then (Some StoreUnavailable, None) else (None, Some (VStr "OK")).

Definition publish_reply (failed : bool) (delivered : Z)
  : option store_error * option value :=
  if failed then (Some StoreUnavailable, None) else (None, Some (VNum delivered)).

(** Whether the store refuses a command because its key holds another kind
    of value. *)
Definition wrong_kind (d : gmap string entry) (c : command) : bool :=
  match c with
  | GET key =>
      match d !! key with Some (EString _ _) | None => false | Some _ => true end
  | HSET key _ _ | HGET key _ | HKEYS key =>
      match d !! key with Some (EHash _) | None => false | Some _ => true end
  | LPUSH key _ | RPOP key =>
      match d !! key with Some (EList _) | None => false | Some _ => true end
  | SET _ _ _ | DEL _ | PUBLISH _ _ | DISCONNECT => false
  end.

(** The error the callback of a command gets: that of the fault, when the
    command does not reach the store, or that of the store. *)
Definition reported (failed : bool) (d : gmap string entry) (c : command)
  : option store_error :=
  if failed then Some StoreUnavailable
  else if wrong_kind d c then Some WrongType
  else None.

(** The errors of commands sent one after the other, none of which changes
    the kind of value under the key of another: [f] says which of them do
    not reach the store. *)
Fixpoint reports (f : list bool) (d : gmap string entry) (cs : list command)
  : list (option store_error) :=
  match cs with
  | [] => []
  | c :: rest => reported (default false (head f)) d c :: reports (tail f) d rest
  end.

(** The command [_storePacket] sends for a subscriber. *)
Definition push_command (p : Packet.t) (x : option string) : command :=
  LPUSH (packets +:+ subscriber_name x) (packet_text p).

(** The operation returns and its callback is invoked exactly once, with
    the error [err]. *)
Definition completes_with (m : M unit) (st : state) (err : option store_error)
  : Prop :=
  ∃ st' arg,
    m st = (st', Return ())
    ∧ callbacks (trace st') = callbacks (trace st) ++ [(err, arg)].

(** What a session finds under its subscription key when the read goes
    through: nothing, or a JSON object. *)
Definition readable_record (st : state) (c : client) : Prop :=
  next_fault st = false
  ∧ (db st !! (subs +:+ id c) = None
     ∨ ∃ record px, db st !! (subs +:+ id c) = Some (EString (Json (VObj record)) px)).

(** A reply [match] handles without throwing: none, or the text of a
    packet. *)
Definition harmless (r : option store_error * reply) : Prop :=
  r.2 = Undefined ∨ r.2 = Nil ∨ ∃ p, r.2 = Bulk (packet_text p).

(** The calls of the iterator callbacks, or of any callback, as far as the
    error they carry. *)
Definition callback_errors (tr : list event) : list (option store_error) :=
  (callbacks tr).*1.

(** A node looking at the store as another node left it. *)
Definition on_store (st : state) (d : gmap string entry) : state :=
  upd st (_subMatcher st) d (faults st) (trace st).

(** The notice [storeSubscriptions] publishes for a client. *)
Definition notice_of (st : state) (c : client) : text :=
  Json (VObj [("key", VStr (subs +:+ id c)); ("process", VStr (_uuid st))]).

(** The key holds a record that [newSub] can replay. *)
Definition replayable (d : gmap string entry) (key : string)
    (record : list (string * value)) : Prop :=
  (∃ px, d !! key = Some (EString (Json (VObj record)) px))
  ∧ valid_patterns record.*1.

(** What [streamOfflinePackets] may add to the trace: commands, and calls
    of its callback that carry no error and an object whose payload is a
    buffer; no timer. *)
Definition command_or_packet (e : event) : Prop :=
  match e with
  | Command _ => True
  | Callback err arg =>
      err = None
      ∧ ∃ props bytes, arg = Some (VObj props)
                       ∧ Js.prop "payload" props = Some (VBuf bytes)
  | SetTimeout _ _ => False
  end.

(** The command [_storePacket] sends for a subscriber. *)
Definition push_for (p : Packet.t) (x : option string) : event :=
  Command (LPUSH (packets +:+ subscriber_name x) (packet_text p)).

(** The arguments of the callback of a GET that goes through. *)
Definition get_reply (d : gmap string entry) (key : string)
  : option store_error * reply :=
  match d !! key with
  | None => (None, Nil)
  | Some (EString t _) => (None, Bulk t)
  | Some _ => (Some WrongType, Undefined)
  end.

(** The key holds nothing [newSub] replays: it is absent, or holds the text
    of a JSON value that is not of type object. *)
Definition missing (d : gmap string entry) (key : string) : Prop :=
  d !! key = None
  ∨ ∃ v px, d !! key = Some (EString (Json v) px) ∧ Js.is_object v = false.

(** Whether the key holds the text of a JSON object. *)
Definition has_record (d : gmap string entry) (key : string) : bool :=
  match d !! key with
  | Some (EString (Json (VObj _)) _) => true
  | _ => false
  end.

(** What the resynchronisation records for a key once its reply is
    handled: the call of the iterator callback, or the timer of the second
    read. *)
Definition resync_event (d : gmap string entry) (key : string) : event :=
  if has_record d key then Callback None None
  else SetTimeout (NewSub key true true) 500.


(** The properties [packetSerializer] may copy. *)
Definition logged_properties : list string :=
  ["messageId"; "topic"; "qos"; "unsubscriptions"; "subscriptions"].

(** * Properties *)

(** ** Strings *)

Section StringFacts.

Variable sep : ascii.

Lemma split_before (s : string) :
  ∃ rest, JsString.split sep s = JsString.before sep s :: rest.
Proof.
  induction s as [|c r [rest IH]]; simpl.
  - by exists [].
  - destruct (decide (c = sep)); [by eexists|].
    rewrite IH. by eexists.
Qed.

Lemma split_app_sep (a b : string) :
  JsString.split sep (a +:+ String sep b)
  = JsString.split sep a ++ JsString.split sep b.
Proof.
  induction a as [|c a IH]; simpl.
  - by rewrite decide_True.
  - destruct (decide (c = sep)); rewrite IH; [done|].
    by destruct (split_before a) as [rest ->].
Qed.

Lemma before_all (s : string) :
  JsString.before sep s = s ↔ JsString.contains sep s = false.
Proof.
  induction s as [|c r IH]; simpl; [done|].
  destruct (decide (c = sep)); [done|].
  rewrite <- IH. split; [by intros [= ->]|by intros ->].
Qed.

Lemma before_no_sep (s : string) :
  JsString.contains sep (JsString.before sep s) = false.
Proof.
  induction s as [|c r IH]; simpl; [done|].
  destruct (decide (c = sep)) as [|Hne]; simpl; [done|].
  by rewrite decide_False.
Qed.

End StringFacts.

(** The third token of a subscription key is the client id up to its
    first colon. *)
Lemma subs_key_token (cid : string) :
  JsString.split ":" (subs +:+ cid) !! 2%nat = Some (JsString.before ":" cid).
Proof.
  change (subs +:+ cid) with ("{persistence:subs}" +:+ String ":" cid).
  rewrite split_app_sep.
  destruct (split_before ":" cid) as [rest ->].
  reflexivity.
Qed.

(** ** The matcher *)

Section MatcherFacts.

Context {A : Type} `{EqDecision A}.
Implicit Types (m : Matcher.t A) (a : A) (p topic : string).

Lemma levels_match_refl (l : list string) : Matcher.levels_match l l = true.
Proof.
  induction l as [|p ps IH]; simpl; [done|].
  case_bool_decide; [done|].
  rewrite IH, (bool_decide_true (p = p)) by done.
  by rewrite orb_true_r.
Qed.

Lemma matches_refl p : Matcher.matches p p = true.
Proof. apply levels_match_refl. Qed.

Lemma elem_of_match m topic a :
  a ∈ Matcher.match_ m topic ↔ ∃ p, (p, a) ∈ m ∧ Matcher.matches p topic = true.
Proof.
  unfold Matcher.match_.
  rewrite elem_of_remove_dups, list_elem_of_fmap. split.
  - intros [[p a'] [-> [Hm Hin]%list_elem_of_filter]].
    exists p. split; [done|]. by apply Is_true_eq_true.
  - intros (p & Hin & Hm). exists (p, a). split; [done|].
    apply list_elem_of_filter. split; [|done]. by apply Is_true_eq_left.
Qed.

Lemma match_NoDup m topic : NoDup (Matcher.match_ m topic).
Proof. apply NoDup_remove_dups. Qed.

Lemma add_valid m p a :
  Matcher.valid p = true →
  ∃ m', Matcher.add m p a = inr m' ∧ ∀ x, x ∈ m' ↔ x ∈ m ∨ x = (p, a).
Proof.
  intros Hv. unfold Matcher.add. rewrite Hv.
  case_bool_decide as Hin; eexists; (split; [done|]); intros x.
  - split; [by left|]. by intros [?| ->].
  - rewrite elem_of_app, list_elem_of_singleton. done.
Qed.

Lemma add_invalid m p a :
  Matcher.valid p = false → Matcher.add m p a = inl ValidationError.
Proof. intros Hv. unfold Matcher.add. by rewrite Hv. Qed.

Lemma elem_of_remove m p a x :
  x ∈ Matcher.remove m p a ↔ x ∈ m ∧ x ≠ (p, a).
Proof. unfold Matcher.remove. rewrite list_elem_of_filter. tauto. Qed.

End MatcherFacts.

Example matches_multi_level : Matcher.matches "hello/#" "hello/42" = true.
Proof. reflexivity. Qed.

Example matches_zero_levels : Matcher.matches "hello/#" "hello" = true.
Proof. reflexivity. Qed.

Example matches_one_level : Matcher.matches "hello/+" "hello/42" = true.
Proof. reflexivity. Qed.

Example plus_is_one_level :
  Matcher.matches "hello/+" "hello/42/x" = false
  ∧ Matcher.matches "hello/+" "hello" = false.
Proof. split; reflexivity. Qed.

Example hash_in_the_middle_is_malformed :
  Matcher.add (Matcher.empty (A:=bool)) "a/#/b" true = inl ValidationError.
Proof. reflexivity. Qed.

(** ** Serialisation *)

Lemma num_byte_num (b : byte) : Js.num_byte (Js.byte_num b) = b.
Proof. by destruct b. Qed.

Lemma bytes_roundtrip (bytes : list byte) :
  map Js.num_byte (map Js.byte_num bytes) = bytes.
Proof.
  induction bytes as [|b bs IH]; [done|].
  cbn [map]. by rewrite num_byte_num, IH.
Qed.

(** What [streamOfflinePackets] and [lookupRetained] rebuild from the text
    of a packet is the packet. *)
Lemma restore_packet (p : Packet.t) :
  restore_payload (Js.jsonify (Packet.to_value p)) = inr (Packet.to_value p).
Proof.
  destruct p as [t bytes q [n|] [r|]]; cbn;
    repeat first [rewrite decide_True by done | rewrite decide_False by done];
    cbn; by rewrite bytes_roundtrip.
Qed.

Lemma jsonify_subscriptions (l : list (string * subscription)) :
  Js.jsonify (subscriptions_value l) = subscriptions_value l.
Proof.
  unfold subscriptions_value. cbn [Js.jsonify]. f_equal.
  induction l as [|[k s] l IH]; [done|]. cbn. by f_equal.
Qed.

Lemma keys_subscriptions (l : list (string * subscription)) :
  Js.keys (subscriptions_value l) = inr l.*1.
Proof.
  unfold subscriptions_value. cbn [Js.keys]. f_equal.
  rewrite <- list_fmap_compose. by apply list_fmap_ext; intros ? [??].
Qed.

(** ** Objects as property lists *)

Section Props.

Context {V : Type}.
Implicit Types (l : list (string * V)) (k : string) (v : V).

Lemma prop_NoDup l k v : NoDup l.*1 → (k, v) ∈ l → Js.prop k l = Some v.
Proof.
  induction l as [|[k' v'] l IH]; simpl; intros Hnd Hin.
  - by apply elem_of_nil in Hin.
  - apply NoDup_cons in Hnd as [Hk' Hnd].
    apply elem_of_cons in Hin as [[= -> ->]|Hin].
    + by rewrite decide_True.
    + rewrite decide_False; [by apply IH|].
      intros ->. apply Hk'. apply list_elem_of_fmap. by exists (k, v).
Qed.

Lemma set_prop_fresh l k v : k ∉ l.*1 → Js.set_prop k v l = l ++ [(k, v)].
Proof.
  induction l as [|[k' v'] l IH]; simpl; intros Hk; [done|].
  apply not_elem_of_cons in Hk as [Hne Hk].
  rewrite decide_False by done. by rewrite IH.
Qed.

End Props.

(** With distinct property names, the object [storeSubscriptions] persists
    holds the entries with a positive qos, in their order. *)
Lemma persisted_filter (l : list (string * subscription)) :
  NoDup l.*1 → persisted l = filter (λ kv, 0 < qos kv.2) l.
Proof.
  intros Hnd. unfold persisted.
  enough (∀ rest seen, l = seen ++ rest →
    fold_left
      (λ subscriptions key,
         match Js.prop key l with
         | Some s => if 0 <? qos s then Js.set_prop key s subscriptions
                     else subscriptions
         | None => subscriptions
         end) rest.*1 (filter (λ kv, 0 < qos kv.2) seen)
    = filter (λ kv, 0 < qos kv.2) l) as Hgen by exact (Hgen l [] eq_refl).
  induction rest as [|[k s] rest IH]; intros seen Hl.
  - rewrite app_nil_r in Hl. by subst.
  - simpl.
    assert (Js.prop k l = Some s) as ->.
    { apply prop_NoDup; [done|]. subst l. apply elem_of_app. right. by left. }
    assert (k ∉ seen.*1) as Hfresh.
    { subst l. rewrite fmap_app in Hnd. apply NoDup_app in Hnd as (_ & Hdis & _).
      intros Hin. apply (Hdis k Hin). by left. }
    rewrite <- (IH (seen ++ [(k, s)])) by (subst l; by rewrite <- app_assoc).
    f_equal. rewrite filter_app.
    destruct (Z.ltb_spec 0 (qos s)) as [Hq|Hq].
    + rewrite set_prop_fresh.
      * f_equal. rewrite filter_cons_True by done. done.
      * intros [[k' s'] [Hk [_ Hin]%list_elem_of_filter]]%list_elem_of_fmap.
        simpl in Hk. subst k'. apply Hfresh. apply list_elem_of_fmap.
        by exists (k, s').
    + rewrite filter_cons_False by (simpl; lia). by rewrite app_nil_r.
Qed.

(** ** Running the commands

    One equation per command: the state after it and the arguments of its
    callback, whether the command fails or not. *)

Section Run.

Implicit Types (st : state) (key : string).

Lemma bind_run {A B} (m : M A) (f : A → M B) st :
  (m ≫= f) st = match m st with
                | (st', Return a) => f a st'
                | (st', Throw e) => (st', Throw e)
                | (st', OutOfFuel) => (st', OutOfFuel)
                end.
Proof. reflexivity. Qed.

Lemma mret_run {A} (a : A) st : (mret a : M A) st = (st, Return a).
Proof. reflexivity. Qed.

Lemma try_inr {A} (a : A) st : try (inr a) st = (st, Return a).
Proof. reflexivity. Qed.

Lemma try_inl {A} (e : js_error) st : try (A:=A) (inl e) st = (st, Throw e).
Proof. reflexivity. Qed.

Lemma throw_run {A} (e : js_error) st : throw (A:=A) e st = (st, Throw e).
Proof. reflexivity. Qed.

Lemma get_state_run st : get_state st = (st, Return st).
Proof. reflexivity. Qed.

Lemma emit_run (e : event) st :
  emit e st
  = (upd st (_subMatcher st) (db st) (faults st) (trace st ++ [e]), Return ()).
Proof. reflexivity. Qed.

Lemma subMatcher_remove_run sub i st :
  subMatcher_remove sub i st
  = (upd st (Matcher.remove (_subMatcher st) sub i) (db st) (faults st) (trace st),
     Return ()).
Proof. reflexivity. Qed.

Lemma subMatcher_add_run sub i st :
  subMatcher_add sub i st
  = match Matcher.add (_subMatcher st) sub i with
    | inr m => (upd st m (db st) (faults st) (trace st), Return ())
    | inl e => (st, Throw e)
    end.
Proof.
  unfold subMatcher_add, mbind, M_bind, get_state.
  by destruct (Matcher.add (_subMatcher st) sub i).
Qed.

Ltac unfold_command :=
  unfold mbind, M_bind, send, get_state, set_db, mret, M_ret, sent.

Lemma get_run key st :
  Rc.get key st
  = (sent st (GET key) (db st),
     Return (if next_fault st then (Some StoreUnavailable, Undefined)
             else match db st !! key with
                  | None => (None, Nil)
                  | Some (EString t _) => (None, Bulk t)
                  | Some _ => (Some WrongType, Undefined)
                  end)).
Proof.
  unfold Rc.get; unfold_command. destruct (next_fault st); [done|].
  cbn. by destruct (db st !! key) as [[]|].
Qed.

Lemma set_run key t px st :
  Rc.set key t px st
  = (sent st (SET key t px)
       (if next_fault st then db st else <[key := EString t (Some px)]> (db st)),
     Return (if next_fault st then (Some StoreUnavailable, None)
             else (None, Some (VStr "OK")))).
Proof. unfold Rc.set; unfold_command. by destruct (next_fault st). Qed.

Lemma del_run key st :
  Rc.del key st
  = (sent st (DEL key) (if next_fault st then db st else delete key (db st)),
     Return (if next_fault st then Some StoreUnavailable else None)).
Proof. unfold Rc.del; unfold_command. by destruct (next_fault st). Qed.

Lemma publish_run channel t st :
  Rc.publish channel t st
  = (sent st (PUBLISH channel t) (db st),
     Return (if next_fault st then (Some StoreUnavailable, None)
             else (None, Some (VNum (listeners st channel))))).
Proof. unfold Rc.publish; unfold_command. by destruct (next_fault st). Qed.

Lemma disconnect_run st :
  Rc.disconnect st
  = (upd st (_subMatcher st) (db st) (faults st) (trace st ++ [Command DISCONNECT]),
     Return None).
Proof. reflexivity. Qed.

Lemma hset_run key field t st :
  Rc.hset key field t st
  = (sent st (HSET key field t)
       (if next_fault st then db st
        else match db st !! key with
             | None => <[key := EHash {[field := t]}]> (db st)
             | Some (EHash h) => <[key := EHash (<[field := t]> h)]> (db st)
             | Some _ => db st
             end),
     Return (if next_fault st then (Some StoreUnavailable, None)
             else match db st !! key with
                  | None => (None, Some (VNum 1))
                  | Some (EHash h) =>
                      (None, Some (VNum (match h !! field with
                                         | Some _ => 0
                                         | None => 1
                                         end)))
                  | Some _ => (Some WrongType, None)
                  end)).
Proof.
  unfold Rc.hset; unfold_command. destruct (next_fault st); [done|].
  cbn. by destruct (db st !! key) as [[]|].
Qed.

Lemma hget_run key field st :
  Rc.hget key field st
  = (sent st (HGET key field) (db st),
     Return (if next_fault st then (Some StoreUnavailable, Undefined)
             else match db st !! key with
                  | None => (None, Nil)
                  | Some (EHash h) =>
                      (None, match h !! field with Some t => Bulk t | None => Nil end)
                  | Some _ => (Some WrongType, Undefined)
                  end)).
Proof.
  unfold Rc.hget; unfold_command. destruct (next_fault st); [done|].
  cbn. by destruct (db st !! key) as [[]|].
Qed.

Lemma hkeys_run key st :
  Rc.hkeys key st
  = (sent st (HKEYS key) (db st),
     Return (if next_fault st then (Some StoreUnavailable, None)
             else match db st !! key with
                  | None => (None, Some [])
                  | Some (EHash h) => (None, Some (map_to_list h).*1)
                  | Some _ => (Some WrongType, None)
                  end)).
Proof.
  unfold Rc.hkeys; unfold_command. destruct (next_fault st); [done|].
  cbn. by destruct (db st !! key) as [[]|].
Qed.

Lemma lpush_run key t st :
  Rc.lpush key t st
  = (sent st (LPUSH key t)
       (if next_fault st then db st
        else match db st !! key with
             | None => <[key := EList [t]]> (db st)
             | Some (EList l) => <[key := EList (t :: l)]> (db st)
             | Some _ => db st
             end),
     Return (if next_fault st then Some StoreUnavailable
             else match db st !! key with
                  | None | Some (EList _) => None
                  | Some _ => Some WrongType
                  end)).
Proof.
  unfold Rc.lpush; unfold_command. destruct (next_fault st); [done|].
  cbn. by destruct (db st !! key) as [[]|].
Qed.

Lemma rpop_run key st :
  Rc.rpop key st
  = (sent st (RPOP key)
       (if next_fault st then db st
        else match db st !! key with
             | Some (EList l) =>
                 match last l with
                 | Some _ => match removelast l with
                             | [] => delete key (db st)
                             | l' => <[key := EList l']> (db st)
                             end
                 | None => db st
                 end
             | _ => db st
             end),
     Return (if next_fault st then (Some StoreUnavailable, Undefined)
             else match db st !! key with
                  | None => (None, Nil)
                  | Some (EList l) =>
                      match last l with
                      | Some t => (None, Bulk t)
                      | None => (None, Nil)
                      end
                  | Some _ => (Some WrongType, Undefined)
                  end)).
Proof.
  unfold Rc.rpop; unfold_command. destruct (next_fault st); [done|].
  cbn. destruct (db st !! key) as [[| l |]|]; try done.
  by destruct (last l).
Qed.

Lemma for_each_remove names i st :
  for_each names (λ sub, subMatcher_remove sub i) st
  = (upd st (foldl (λ m sub, Matcher.remove m sub i) (_subMatcher st) names)
       (db st) (faults st) (trace st), Return ()).
Proof.
  revert st. induction names as [|n names IH]; intros st; [done|].
  cbn [for_each]. by rewrite bind_run, subMatcher_remove_run, IH.
Qed.

End Run.

(** Steps through an operation applied to a state. *)
Ltac mstep :=
  first
    [ rewrite bind_run
    | rewrite get_run | rewrite set_run | rewrite del_run
    | rewrite publish_run | rewrite disconnect_run
    | rewrite hset_run | rewrite hget_run | rewrite hkeys_run
    | rewrite lpush_run | rewrite rpop_run
    | rewrite for_each_remove
    | rewrite subMatcher_remove_run
    | rewrite emit_run
    | rewrite get_state_run
    | rewrite mret_run
    | rewrite throw_run
    | rewrite try_inr
    | rewrite try_inl ].

Ltac mnorm :=
  cbv beta iota;
  cbn [db faults trace _subMatcher _uuid listeners options_channel
       options_ttl_subscriptions upd sent next_fault head tail default
       first_error fst snd negb orb andb].

Ltac mrun := mnorm; repeat (mstep; mnorm).

(** Closes an equation between two final states. *)
Ltac mdone :=
  unfold sent, upd;
  cbn [db faults trace _subMatcher _uuid listeners options_channel
       options_ttl_subscriptions];
  rewrite <- ?app_assoc; reflexivity.

(** ** Replaying a record into the matcher *)

Lemma for_each_add names i st :
  valid_patterns names →
  ∃ m', for_each names (λ sub, subMatcher_add sub i) st
        = (upd st m' (db st) (faults st) (trace st), Return ())
      ∧ ∀ x, x ∈ m' ↔ x ∈ _subMatcher st ∨ ∃ p, p ∈ names ∧ x = (p, i).
Proof.
  intros Hv. revert st. induction Hv as [|n names Hn Hv IH]; intros st.
  - exists (_subMatcher st). split; [done|].
    intros x. split; [by left|]. intros [?|(p & Hp & _)]; [done|].
    by apply elem_of_nil in Hp.
  - cbn [for_each]. rewrite bind_run, subMatcher_add_run.
    destruct (add_valid (_subMatcher st) n i Hn) as (m1 & -> & Hm1).
    destruct (IH (upd st m1 (db st) (faults st) (trace st))) as (m' & Hrun & Hm').
    exists m'. split; [by rewrite Hrun|].
    intros x. rewrite Hm'. cbn [_subMatcher upd]. rewrite Hm1. split.
    + intros [[?| ->]|(p & Hp & ->)]; [by left| |].
      * right. exists n. split; [by left|done].
      * right. exists p. split; [by right|done].
    + intros [?|(p & [->|Hp]%elem_of_cons & ->)]; [by left; left|by left; right|].
      right. by exists p.
Qed.

(** A read that finds a record: every property name of the record is added
    under the third token of the key. *)
Lemma newSub_replay key cb retried st record px :
  next_fault st = false →
  db st !! key = Some (EString (Json (VObj record)) px) →
  valid_patterns record.*1 →
  ∃ m', newSub key cb retried st
        = (upd st m' (db st) (tail (faults st))
             (trace st ++ Command (GET key)
                :: (if cb then [Callback None None] else [])),
           Return ())
      ∧ ∀ x, x ∈ m' ↔
             x ∈ _subMatcher st
             ∨ ∃ p, p ∈ record.*1 ∧ x = (p, JsString.split ":" key !! 2%nat).
Proof.
  intros Hf Hdb Hv. unfold newSub, newSub_reply.
  mrun. rewrite Hf, Hdb. mrun. cbn [Reply.JSON_parse]. mrun.
  cbn [Reply.truthy Js.is_object negb orb Js.keys]. mrun.
  edestruct (for_each_add record.*1 (JsString.split ":" key !! 2%nat))
    as (m' & Hrun & Hm'); [done|].
  rewrite Hrun. clear Hrun. exists m'. split; [|exact Hm'].
  destruct cb; mrun; [by rewrite <- app_assoc|done].
Qed.

(** ** The synchronisation channel *)

Lemma newSub_no_record key cb retried st :
  no_record st key →
  newSub key cb retried st
  = (upd st (_subMatcher st) (db st) (tail (faults st))
       (trace st ++ Command (GET key)
          :: (if retried then [] else [SetTimeout (NewSub key cb true) 500])),
     Return ()).
Proof.
  intros [Hf Hdb]. unfold newSub, newSub_reply. mrun. rewrite Hf.
  destruct Hdb as [->|(v & px & -> & Hv)]; mrun; cbn [Reply.JSON_parse].
  - mrun. cbn [Reply.truthy negb orb]. destruct retried; mrun; [done|].
    by rewrite <- app_assoc.
  - mrun. cbn [Reply.truthy negb orb]. rewrite Hv. cbn [negb].
    destruct retried; mrun; [done|]. by rewrite <- app_assoc.
Qed.

(** C8 (as amended): a resynchronisation read that finds no record, or a
    record whose JSON value is not of type object, changes nothing and sets
    one timer of 500 ms for a second read; when that read, in whatever state
    the node is by then, fails the same way, it sends its GET and nothing
    else: no timer, no entry added to the matcher, no callback, no exception. *)
Theorem resync_read_retried_once (key : string) (cb : bool) (st st2 : state) :
  no_record st key →
  no_record st2 key →
  newSub key cb false st
  = (upd st (_subMatcher st) (db st) (tail (faults st))
       (trace st ++ [Command (GET key); SetTimeout (NewSub key cb true) 500]),
     Return ())
  ∧ run_task (NewSub key cb true) st2
    = (upd st2 (_subMatcher st2) (db st2) (tail (faults st2))
         (trace st2 ++ [Command (GET key)]),
       Return ()).
Proof.
  intros H1 H2. split.
  - by rewrite newSub_no_record.
  - cbn [run_task]. by rewrite newSub_no_record.
Qed.

(** Settles a decidable statement about concrete data by evaluation. *)
Ltac by_evaluation := apply (bool_decide_unpack _); vm_compute; exact I.

Lemma resync_read_retried_once_witness :
  let st := node "node-b" [] ∅ in
  let st2 := node "node-b" [] {[ subs +:+ "c1" := EString (Json (VNum 42)) None ]} in
  newSub (subs +:+ "c1") false false st
  = (upd st [] ∅ [] [Command (GET (subs +:+ "c1"));
                     SetTimeout (NewSub (subs +:+ "c1") false true) 500],
     Return ())
  ∧ run_task (NewSub (subs +:+ "c1") false true) st2
    = (upd st2 [] (db st2) [] [Command (GET (subs +:+ "c1"))], Return ()).
Proof.
  apply (resync_read_retried_once (subs +:+ "c1") false
           (node "node-b" [] ∅)
           (node "node-b" [] {[ subs +:+ "c1" := EString (Json (VNum 42)) None ]})).
  - split; [reflexivity|]. left. reflexivity.
  - split; [reflexivity|]. right. exists (VNum 42), None.
    split; [vm_compute; reflexivity|reflexivity].
Defined.

(** C8 (as stated) fails on a record that is not JSON: [JSON.parse] throws
    in the callback of the read, before the test that schedules the second
    read; no timer is set and the exception is not caught. *)
Lemma resync_read_garbage_not_retried :
  let key := subs +:+ "c1" in
  let st := node "node-b" [] {[ key := EString (Garbage "{oops") None ]} in
  newSub key false false st
  = (upd st [] (db st) [] [Command (GET key)], Throw SyntaxError)
  ∧ ∀ tk ms, SetTimeout tk ms ∉ trace (newSub key false false st).1.
Proof.
  split; [vm_compute; reflexivity|].
  intros tk ms Hin. vm_compute in Hin.
  apply list_elem_of_singleton in Hin. discriminate.
Qed.

(** Adding to the matcher touches neither the store nor the trace, also
    when a pattern is rejected on the way. *)
Lemma for_each_add_frame names i st :
  let st' := (for_each names (λ sub, subMatcher_add sub i) st).1 in
  trace st' = trace st ∧ db st' = db st ∧ faults st' = faults st.
Proof.
  revert st. induction names as [|n names IH]; intros st; [done|].
  cbn [for_each]. rewrite bind_run, subMatcher_add_run.
  destruct (Matcher.add (_subMatcher st) n i) as [e|m]; [done|].
  apply (IH (upd st m (db st) (faults st) (trace st))).
Qed.

Ltac trace_ext :=
  first [ by exists []; rewrite app_nil_r
        | by eexists
        | eexists; by rewrite <- app_assoc ].

(** Whatever the reply, the callback of the read only adds to the trace. *)
Lemma newSub_reply_trace key cb retried err result st :
  ∃ rest, trace (newSub_reply key cb retried err result st).1 = trace st ++ rest.
Proof.
  unfold newSub_reply.
  assert (∀ st0 : state, ∃ rest,
    trace ((let id := JsString.split ":" key !! 2%nat in
            subs ← try (Reply.JSON_parse result);
            if negb (Reply.truthy result) || negb (Js.is_object subs)
            then if negb retried
                 then emit (SetTimeout (NewSub key cb true) 500)
                 else mret ()
            else names ← try (Js.keys subs);
                 for_each names (λ sub, subMatcher_add sub id);;
                 if cb then emit (Callback None None) else mret ()) st0).1
    = trace st0 ++ rest) as Hbody.
  { intros st0. cbv zeta.
    destruct (Reply.JSON_parse result) as [e|v]; mrun; [trace_ext|].
    destruct (negb (Reply.truthy result) || negb (Js.is_object v)).
    { destruct retried; mrun; trace_ext. }
    destruct (Js.keys v) as [e|names]; mrun; [trace_ext|].
    pose proof (for_each_add_frame names (JsString.split ":" key !! 2%nat) st0)
      as (Htr & _ & _).
    destruct (for_each names _ st0) as [st1 [[]|e|]]; cbn [fst] in Htr;
      mnorm; rewrite <- ?Htr; [|trace_ext..].
    destruct cb; mrun; trace_ext. }
  destruct err as [e|]; [destruct cb|].
  - rewrite bind_run, bind_run, emit_run. mnorm. rewrite mret_run. mnorm.
    destruct (Hbody (upd st (_subMatcher st) (db st) (faults st)
                       (trace st ++ [Callback (Some e) None]))) as [rest Hrest].
    exists (Callback (Some e) None :: rest).
    cbv zeta in Hrest. rewrite Hrest. cbn [trace upd]. by rewrite <- app_assoc.
  - rewrite bind_run, mret_run. mnorm. rewrite mret_run. trace_ext.
  - rewrite bind_run, mret_run. mnorm. apply Hbody.
Qed.

(** C9: a notice whose [process] is this node's [_uuid] leaves the whole
    state as it is (no command is sent, the matcher is untouched); a notice
    of another origin runs [newSub] on its key, which starts by reading the
    key from the store and, when it finds a record with well-formed
    patterns, adds each of them to the matcher. *)
Theorem own_notice_ignored (st : state) (channel : string)
    (notice : list (string * value)) (key process : string) :
  Js.prop "process" notice = Some (VStr process) →
  Js.prop "key" notice = Some (VStr key) →
  (process = _uuid st →
     on_message channel (Json (VObj notice)) st = (st, Return ()))
  ∧ (process ≠ _uuid st →
       on_message channel (Json (VObj notice)) st = newSub key false false st
       ∧ (∃ rest, trace (newSub key false false st).1
                  = trace st ++ Command (GET key) :: rest)
       ∧ ∀ record px p,
           next_fault st = false →
           db st !! key = Some (EString (Json (VObj record)) px) →
           valid_patterns record.*1 →
           p ∈ record.*1 →
           (p, JsString.split ":" key !! 2%nat)
             ∈ _subMatcher (newSub key false false st).1).
Proof.
  intros Hp Hk. unfold on_message. split; intros Huuid.
  - mrun. cbn [Reply.JSON_parse]. mrun. cbn [Js.get]. rewrite Hp. mrun.
    cbn [Js.is_string]. by rewrite bool_decide_true.
  - split; [|split].
    + mrun. cbn [Reply.JSON_parse]. mrun. cbn [Js.get]. rewrite Hp, Hk. mrun.
      cbn [Js.is_string]. rewrite bool_decide_false by done. by mrun.
    + unfold newSub. mrun.
      destruct (if next_fault st then _ else _) as [err result].
      destruct (newSub_reply_trace key false false err result
                  (sent st (GET key) (db st))) as [rest Hrest].
      exists rest. rewrite Hrest. cbn [trace sent upd]. by rewrite <- app_assoc.
    + intros record px p Hf Hdb Hv Hin.
      destruct (newSub_replay key false false st record px Hf Hdb Hv)
        as (m' & -> & Hm').
      cbn [fst _subMatcher upd]. apply Hm'. right. by exists p.
Qed.

Lemma own_notice_ignored_witness :
  let st := node "node-a" [] ∅ in
  let notice := [("key", VStr (subs +:+ "c1")); ("process", VStr "node-a")] in
  on_message "moscaSync" (Json (VObj notice)) st = (st, Return ()).
Proof.
  refine (proj1 (own_notice_ignored (node "node-a" [] ∅) "moscaSync"
                   [("key", VStr (subs +:+ "c1")); ("process", VStr "node-a")]
                   (subs +:+ "c1") "node-a" _ _) _).
  - vm_compute. reflexivity.
  - vm_compute. reflexivity.
  - reflexivity.
Defined.

(** C10: the subscriber under which [newSub] files the patterns of a record
    is the third token of the key, the client id cut at its first colon; it
    is the client id exactly when that id has no colon, and for an id with a
    colon the entries are created under the shorter, different id. *)
Theorem resync_subscriber_id (cid : string) :
  JsString.split ":" (subs +:+ cid) !! 2%nat = Some (JsString.before ":" cid)
  ∧ (JsString.before ":" cid = cid ↔ JsString.contains ":" cid = false)
  ∧ ∀ st cb retried record px,
      next_fault st = false →
      db st !! (subs +:+ cid) = Some (EString (Json (VObj record)) px) →
      valid_patterns record.*1 →
      ∃ st', newSub (subs +:+ cid) cb retried st = (st', Return ())
           ∧ ∀ x, x ∈ _subMatcher st' ↔
                  x ∈ _subMatcher st
                  ∨ ∃ p, p ∈ record.*1 ∧ x = (p, Some (JsString.before ":" cid)).
Proof.
  split; [apply subs_key_token|]. split; [apply before_all|].
  intros st cb retried record px Hf Hdb Hv.
  destruct (newSub_replay _ cb retried st record px Hf Hdb Hv) as (m' & Hrun & Hm').
  eexists. split; [exact Hrun|].
  intros x. cbn [_subMatcher upd]. by rewrite Hm', subs_key_token.
Qed.

Lemma resync_subscriber_id_witness :
  let st := node "node-b" []
              {[ subs +:+ "shop:till-3" :=
                   EString (Json (VObj [("hello/#", VObj [("qos", VNum 1)])])) None ]} in
  JsString.split ":" (subs +:+ "shop:till-3") !! 2%nat = Some "shop"
  ∧ _subMatcher (newSub (subs +:+ "shop:till-3") false false st).1
    = [("hello/#", Some "shop")].
Proof.
  pose proof (resync_subscriber_id "shop:till-3") as (Htoken & _ & Hadd).
  split; [exact Htoken|].
  destruct (Hadd (node "node-b" []
                    {[ subs +:+ "shop:till-3" :=
                         EString (Json (VObj [("hello/#", VObj [("qos", VNum 1)])])) None ]})
                 false false [("hello/#", VObj [("qos", VNum 1)])] None)
    as (st' & Hrun & _).
  - reflexivity.
  - vm_compute. reflexivity.
  - by_evaluation.
  - vm_compute. reflexivity.
Defined.

(** ** Callbacks in a trace *)

Lemma callbacks_app tr1 tr2 : callbacks (tr1 ++ tr2) = callbacks tr1 ++ callbacks tr2.
Proof. apply omap_app. Qed.

(** ** Sessions *)

Lemma elem_of_foldl_remove (m : Matcher.t (option string)) names i x :
  x ∈ foldl (λ m sub, Matcher.remove m sub i) m names
  ↔ x ∈ m ∧ ∀ p, p ∈ names → x ≠ (p, i).
Proof.
  revert m. induction names as [|n names IH]; intros m; cbn [foldl].
  - split; [|by intros [? _]]. intros Hx. split; [done|].
    intros p Hp. by apply elem_of_nil in Hp.
  - rewrite IH, elem_of_remove. split.
    + intros [[Hx Hn] Hrest]. split; [done|].
      intros p [->|Hp]%elem_of_cons; [done|by apply Hrest].
    + intros [Hx Hall]. split; [split; [done|]|].
      * apply Hall. by left.
      * intros p Hp. apply Hall. by right.
Qed.

Lemma cleanClient_run (c : client) (done : bool) st record :
  clean c = true →
  faults st = [] →
  persisted_record st c record →
  _cleanClient c done st
  = (cleaned st c record
       (trace st ++ [Command (GET (subs +:+ id c)); Command (DEL (subs +:+ id c));
                     Command (DEL (packets +:+ id c))]
                 ++ (if done then [Callback None (Some (VObj []))] else [])),
     Return true).
Proof.
  intros Hc Hf Hrec. unfold _cleanClient, cleaned. rewrite Hc.
  destruct st as [ch ttl uuid ls m d f tr]. cbn in Hf. subst f.
  unfold persisted_record in Hrec. cbn [db] in Hrec.
  destruct Hrec as [[Hdb ->]|[px Hdb]]; mrun; rewrite Hdb; mrun;
    cbn [Reply.JSON_parse]; mrun; cbn [or_empty Js.truthy Js.keys]; mrun;
    destruct done; mrun; mdone.
Qed.

(** C4: with [clean = true], [storeSubscriptions] sends no command and calls
    back without error; [lookupSubscriptions] and [streamOfflinePackets] read
    the record, remove each of its patterns from the matcher for this client,
    delete the subscription key and the backlog key; the first calls back
    with an empty object, the second calls nothing. *)
Theorem clean_session_contract (c : client) (st : state)
    (record : list (string * value)) (fuel : nat) :
  clean c = true →
  faults st = [] →
  persisted_record st c record →
  let cleanup := [Command (GET (subs +:+ id c)); Command (DEL (subs +:+ id c));
                  Command (DEL (packets +:+ id c))] in
  storeSubscriptions c st
  = (upd st (_subMatcher st) (db st) (faults st) (trace st ++ [Callback None None]),
     Return ())
  ∧ lookupSubscriptions c st
    = (cleaned st c record
         (trace st ++ cleanup ++ [Callback None (Some (VObj []))]), Return ())
  ∧ streamOfflinePackets (S fuel) c st
    = (cleaned st c record (trace st ++ cleanup), Return ())
  ∧ (∀ p, p ∈ record.*1 →
          (p, Some (id c)) ∉ _subMatcher (cleaned st c record []))
  ∧ db (cleaned st c record []) !! (subs +:+ id c) = None
  ∧ db (cleaned st c record []) !! (packets +:+ id c) = None.
Proof.
  intros Hc Hf Hrec cleanup. repeat split.
  - unfold storeSubscriptions. by rewrite Hc.
  - unfold lookupSubscriptions.
    rewrite bind_run, (cleanClient_run c true st record) by done.
    by mrun.
  - cbn [streamOfflinePackets].
    rewrite bind_run, (cleanClient_run c false st record) by done.
    mrun. by rewrite app_nil_r.
  - intros p Hp. cbn [cleaned _subMatcher upd].
    rewrite elem_of_foldl_remove. intros [_ Hall]. by apply (Hall p).
  - cbn [cleaned db upd].
    destruct (decide (packets +:+ id c = subs +:+ id c)) as [->|Hne].
    + apply lookup_delete_eq.
    + rewrite lookup_delete_ne by done. apply lookup_delete_eq.
  - cbn [cleaned db upd]. apply lookup_delete_eq.
Qed.

Lemma clean_session_contract_witness :
  let c := {| id := "c1"; clean := true; subscriptions := [("hello/#", {| qos := 1 |})] |} in
  let st := node "node-a" [("hello/#", Some "c1")]
              {[ subs +:+ "c1" :=
                   EString (Json (VObj [("hello/#", VObj [("qos", VNum 1)])])) None ]} in
  lookupSubscriptions c st
  = (upd st [] ∅ []
       [Command (GET (subs +:+ "c1")); Command (DEL (subs +:+ "c1"));
        Command (DEL (packets +:+ "c1")); Callback None (Some (VObj []))],
     Return ())
  ∧ streamOfflinePackets 1 c st
    = (upd st [] ∅ []
         [Command (GET (subs +:+ "c1")); Command (DEL (subs +:+ "c1"));
          Command (DEL (packets +:+ "c1"))],
       Return ()).
Proof.
  destruct (clean_session_contract
              {| id := "c1"; clean := true;
                 subscriptions := [("hello/#", {| qos := 1 |})] |}
              (node "node-a" [("hello/#", Some "c1")]
                 {[ subs +:+ "c1" :=
                      EString (Json (VObj [("hello/#", VObj [("qos", VNum 1)])])) None ]})
              [("hello/#", VObj [("qos", VNum 1)])] 0)
    as (_ & Hlookup & Hstream & _).
  - reflexivity.
  - reflexivity.
  - right. exists None. vm_compute. reflexivity.
  - split.
    + rewrite Hlookup. vm_compute. reflexivity.
    + rewrite Hstream. vm_compute. reflexivity.
Defined.

(** [lookupSubscriptions] for a session that is not clean, on a missing
    record, whether the DEL fails or not. *)
Lemma lookupSubscriptions_missing (c : client) (st : state) :
  clean c = false →
  next_fault st = false →
  db st !! (subs +:+ id c) = None →
  let del_failed := default false (head (tail (faults st))) in
  lookupSubscriptions c st
  = (upd st (_subMatcher st)
       (if del_failed then db st else delete (subs +:+ id c) (db st))
       (tail (tail (faults st)))
       (trace st ++ [Command (GET (subs +:+ id c)); Command (DEL (subs +:+ id c));
                     Callback (if del_failed then Some StoreUnavailable else None)
                       (Some (VObj []))]),
     Return ()).
Proof.
  intros Hc Hf Hdb del_failed. unfold lookupSubscriptions, _cleanClient.
  rewrite Hc. mrun. rewrite Hf, Hdb. mrun. cbn [Reply.JSON_parse]. mrun.
  cbn [or_empty Js.truthy Js.keys]. mrun. cbn [fmap list_fmap]. mrun.
  cbn [foldl]. mdone.
Qed.

(** C6 (as amended): for a session that is not clean, when the read goes
    through and finds no record, [lookupSubscriptions] calls back once with
    an empty object; the error it passes is that of the DEL that follows,
    none when the DEL goes through.  The matcher is left as it is. *)
Theorem lookup_missing_record (c : client) (st : state) :
  clean c = false →
  next_fault st = false →
  db st !! (subs +:+ id c) = None →
  let del_failed := default false (head (tail (faults st))) in
  lookupSubscriptions c st
  = (upd st (_subMatcher st)
       (if del_failed then db st else delete (subs +:+ id c) (db st))
       (tail (tail (faults st)))
       (trace st ++ [Command (GET (subs +:+ id c)); Command (DEL (subs +:+ id c));
                     Callback (if del_failed then Some StoreUnavailable else None)
                       (Some (VObj []))]),
     Return ())
  ∧ callbacks (trace (lookupSubscriptions c st).1)
    = callbacks (trace st)
      ++ [(if del_failed then Some StoreUnavailable else None, Some (VObj []))].
Proof.
  intros Hc Hf Hdb del_failed.
  rewrite (lookupSubscriptions_missing c st Hc Hf Hdb). split; [done|].
  cbn [fst trace upd]. rewrite callbacks_app. done.
Qed.

Lemma lookup_missing_record_witness :
  let c := {| id := "c1"; clean := false; subscriptions := [] |} in
  let st := node "node-a" [] ∅ in
  lookupSubscriptions c st
  = (upd st [] ∅ []
       [Command (GET (subs +:+ "c1")); Command (DEL (subs +:+ "c1"));
        Callback None (Some (VObj []))],
     Return ()).
Proof.
  destruct (lookup_missing_record
              {| id := "c1"; clean := false; subscriptions := [] |}
              (node "node-a" [] ∅)) as [Hrun _].
  - reflexivity.
  - reflexivity.
  - vm_compute. reflexivity.
  - etrans; [exact Hrun|]. vm_compute. reflexivity.
Defined.

(** C6 (as stated) fails on a record that is not JSON: [JSON.parse] throws
    in the callback of the read and [done] is never called, with an empty
    object or with anything else. *)
Lemma lookup_malformed_record_throws :
  let c := {| id := "c1"; clean := false; subscriptions := [] |} in
  let st := node "node-a" [] {[ subs +:+ "c1" := EString (Garbage "{oops") None ]} in
  lookupSubscriptions c st
  = (upd st [] (db st) [] [Command (GET (subs +:+ "c1"))], Throw SyntaxError)
  ∧ ∀ err arg, Callback err arg ∉ trace (lookupSubscriptions c st).1.
Proof.
  split; [vm_compute; reflexivity|].
  intros err arg Hin. vm_compute in Hin.
  apply list_elem_of_singleton in Hin. discriminate.
Qed.

(** ** Storing and restoring subscriptions *)

Lemma match_mono {A} `{EqDecision A} (m m' : Matcher.t A) topic (a : A) :
  (∀ x, x ∈ m → x ∈ m') → a ∈ Matcher.match_ m topic → a ∈ Matcher.match_ m' topic.
Proof.
  intros Hsub. rewrite !elem_of_match. intros (p & Hin & Hm).
  exists p. split; [by apply Hsub|done].
Qed.

(** The loop of lines 232-236: a pattern is added unless the client is
    already among the subscribers the matcher returns for it. *)
Lemma for_each_cover names (i : option string) st :
  valid_patterns names →
  ∃ m', for_each names (λ e,
          st ← get_state;
          if bool_decide (i ∈ Matcher.match_ (_subMatcher st) e) then mret ()
          else subMatcher_add e i) st
        = (upd st m' (db st) (faults st) (trace st), Return ())
      ∧ (∀ x, x ∈ _subMatcher st → x ∈ m')
      ∧ (∀ e, e ∈ names → i ∈ Matcher.match_ m' e)
      ∧ (∀ x, x ∈ m' →
              x ∈ _subMatcher st
              ∨ ∃ e, e ∈ names ∧ x = (e, i)
                     ∧ i ∉ Matcher.match_ (_subMatcher st) e).
Proof.
  intros Hv. revert st. induction Hv as [|n names Hn Hv IH]; intros st.
  - exists (_subMatcher st). split; [done|]. split; [done|]. split.
    + intros e He. by apply elem_of_nil in He.
    + intros x Hx. by left.
  - cbn [for_each]. rewrite bind_run, bind_run, get_state_run. mnorm.
    case_bool_decide as Hcov.
    + rewrite mret_run. mnorm.
      destruct (IH st) as (m' & Hrun & Hsub & Hcover & Hnew).
      exists m'. split; [done|]. split; [done|]. split.
      * intros e [->|He]%elem_of_cons; [|by apply Hcover].
        by apply (match_mono (_subMatcher st)).
      * intros x Hx. destruct (Hnew x Hx) as [?|(e & He & -> & Hnot)]; [by left|].
        right. exists e. split; [by right|done].
    + rewrite subMatcher_add_run.
      destruct (add_valid (_subMatcher st) n i Hn) as (m1 & -> & Hm1).
      destruct (IH (upd st m1 (db st) (faults st) (trace st)))
        as (m' & Hrun & Hsub & Hcover & Hnew).
      cbn [_subMatcher upd] in Hsub, Hnew.
      exists m'. split; [by rewrite Hrun|]. split; [|split].
      * intros x Hx. apply Hsub, Hm1. by left.
      * intros e [->|He]%elem_of_cons; [|by apply Hcover].
        apply elem_of_match. exists n. split; [|apply matches_refl].
        apply Hsub, Hm1. by right.
      * intros x Hx. destruct (Hnew x Hx) as [[?| ->]%Hm1|(e & He & -> & Hnot)].
        -- by left.
        -- right. exists n. split; [by left|done].
        -- right. exists e. split; [by right|]. split; [done|].
           intros Hin. apply Hnot. apply (match_mono (_subMatcher st)); [|done].
           intros y Hy. apply Hm1. by left.
Qed.

Lemma existsb_elem_of {A} (f : A → bool) (l : list A) :
  existsb f l = true ↔ ∃ x, x ∈ l ∧ f x = true.
Proof.
  rewrite existsb_exists. split; intros (x & Hx & Hf); exists x;
    (split; [by apply list_elem_of_In|done]).
Qed.

Lemma existsb_none {A} (f : A → bool) (l : list A) :
  existsb f l = false ↔ ∀ x, x ∈ l → f x = false.
Proof.
  split.
  - intros Hnone x Hx. destruct (f x) eqn:Hfx; [|done].
    rewrite <- Hnone. symmetry. apply existsb_elem_of. by exists x.
  - intros Hall. destruct (existsb f l) eqn:He; [|done].
    apply existsb_elem_of in He as (x & Hx & Hfx). by rewrite (Hall x Hx) in Hfx.
Qed.

Lemma elem_of_patterns_of (i : option string) (m : Matcher.t (option string)) p :
  p ∈ patterns_of i m ↔ (p, i) ∈ m.
Proof.
  unfold patterns_of. rewrite list_elem_of_fmap. split.
  - intros ([p' i'] & -> & [Hi Hin]%list_elem_of_filter). cbn in Hi. by subst.
  - intros Hin. exists (p, i). split; [done|]. by apply list_elem_of_filter.
Qed.

Lemma patterns_of_snoc (i : option string) (m : Matcher.t (option string)) p :
  patterns_of i (m ++ [(p, i)]) = patterns_of i m ++ [p].
Proof.
  unfold patterns_of. rewrite filter_app, fmap_app. f_equal.
  rewrite filter_cons_True by done. by rewrite filter_nil.
Qed.

(** The test of line 233, on the patterns the matcher holds for the
    client. *)
Lemma covered_by_patterns (i : option string) (m : Matcher.t (option string)) e :
  i ∈ Matcher.match_ m e
  ↔ existsb (λ p, Matcher.matches p e) (patterns_of i m) = true.
Proof.
  rewrite elem_of_match, existsb_elem_of.
  split; intros (p & Hin & Hm); exists p; (split; [|done]);
    by apply elem_of_patterns_of.
Qed.

(** The loop of lines 232-236, entry by entry: what it appends to the
    matcher. *)
Lemma for_each_cover_exact names (i : option string) st :
  valid_patterns names →
  for_each names (λ e,
    st ← get_state;
    if bool_decide (i ∈ Matcher.match_ (_subMatcher st) e) then mret ()
    else subMatcher_add e i) st
  = (upd st
       (_subMatcher st
        ++ ((λ p, (p, i)) <$> uncovered (patterns_of i (_subMatcher st)) names))
       (db st) (faults st) (trace st),
     Return ()).
Proof.
  intros Hv. revert st. induction Hv as [|n names Hn Hv IH]; intros st.
  - cbn [for_each uncovered fmap list_fmap]. by rewrite app_nil_r.
  - cbn [for_each uncovered]. rewrite bind_run, bind_run, get_state_run. mnorm.
    destruct (existsb (λ e, Matcher.matches e n) (patterns_of i (_subMatcher st)))
      eqn:Hcov.
    + rewrite bool_decide_true by by apply covered_by_patterns.
      rewrite mret_run. mnorm. apply IH.
    + assert (i ∉ Matcher.match_ (_subMatcher st) n) as Hnot.
      { rewrite covered_by_patterns. by rewrite Hcov. }
      rewrite bool_decide_false by done.
      rewrite subMatcher_add_run. unfold Matcher.add. rewrite Hn.
      rewrite bool_decide_false.
      2:{ intros Hin. apply Hnot, elem_of_match. exists n.
          split; [done|apply matches_refl]. }
      rewrite IH. cbn [_subMatcher db faults trace upd].
      rewrite patterns_of_snoc, fmap_cons, <- app_assoc. done.
Qed.

Lemma uncovered_among owned ps p : p ∈ uncovered owned ps → p ∈ ps.
Proof.
  revert owned. induction ps as [|q ps IH]; intros owned; cbn [uncovered]; [done|].
  destruct (existsb _ owned).
  - intros Hin. right. by apply (IH owned).
  - intros [->|Hin]%elem_of_cons; [by left|]. right. by apply (IH (owned ++ [q])).
Qed.

Lemma uncovered_app owned l1 l2 :
  uncovered owned (l1 ++ l2)
  = uncovered owned l1 ++ uncovered (owned ++ uncovered owned l1) l2.
Proof.
  revert owned. induction l1 as [|q l1 IH]; intros owned; cbn [uncovered app].
  - by rewrite app_nil_r.
  - destruct (existsb _ owned); [apply IH|].
    rewrite IH. cbn [app]. by rewrite <- app_assoc.
Qed.

Lemma uncovered_skips owned ps p :
  existsb (λ e, Matcher.matches e p) owned = true → p ∉ uncovered owned ps.
Proof.
  revert owned. induction ps as [|q ps IH]; intros owned Hcov; cbn [uncovered].
  - apply not_elem_of_nil.
  - destruct (existsb (λ e, Matcher.matches e q) owned) eqn:Hq; [by apply IH|].
    apply not_elem_of_cons. split.
    + intros ->. by rewrite Hcov in Hq.
    + apply IH. rewrite existsb_app. by rewrite Hcov.
Qed.

(** Which patterns get an entry of their own: a pattern does when no
    pattern the matcher held for the client and no pattern taken before it
    matches it. *)
Lemma uncovered_spec owned l1 p l2 :
  p ∉ l1 →
  p ∈ uncovered owned (l1 ++ p :: l2)
  ↔ ∀ e, e ∈ owned ∨ e ∈ uncovered owned l1 → Matcher.matches e p = false.
Proof.
  intros Hfresh. rewrite uncovered_app, elem_of_app. cbn [uncovered].
  destruct (existsb (λ e, Matcher.matches e p) (owned ++ uncovered owned l1)) eqn:Hcov.
  - split.
    + intros [Hin|Hin]; [by apply uncovered_among in Hin|].
      by apply uncovered_skips in Hin.
    + intros Hall. apply existsb_elem_of in Hcov as (e & [He|He]%elem_of_app & Hm);
        (rewrite Hall in Hm; [done|by auto]).
  - split; [|intros _; right; by left].
    intros _ e He. rewrite existsb_none in Hcov. apply Hcov.
    apply elem_of_app. by destruct He; [left|right].
Qed.

(** [storeSubscriptions] for a session that is not clean, whether its two
    commands fail or not. *)
Lemma storeSubscriptions_run (c : client) st :
  clean c = false →
  valid_patterns (persisted (subscriptions c)).*1 →
  let key := subs +:+ id c in
  let record := Json (subscriptions_value (persisted (subscriptions c))) in
  let notice := Json (VObj [("key", VStr key); ("process", VStr (_uuid st))]) in
  let set_failed := next_fault st in
  let publish_failed := default false (head (tail (faults st))) in
  let r1 := set_reply set_failed in
  let r2 := publish_reply publish_failed (listeners st (options_channel st)) in
  ∃ m', storeSubscriptions c st
        = (upd st m'
             (if set_failed then db st
              else <[key := EString record (Some (options_ttl_subscriptions st))]> (db st))
             (tail (tail (faults st)))
             (trace st ++ [Command (SET key record (options_ttl_subscriptions st));
                           Command (PUBLISH (options_channel st) notice);
                           Callback (first_error [r1.1; r2.1])
                             (Some (VArr (parallel_results [r1; r2])))]),
           Return ())
      ∧ (∀ x, x ∈ _subMatcher st → x ∈ m')
      ∧ (∀ e, e ∈ (persisted (subscriptions c)).*1 →
              Some (id c) ∈ Matcher.match_ m' e)
      ∧ (∀ x, x ∈ m' →
              x ∈ _subMatcher st
              ∨ ∃ e, e ∈ (persisted (subscriptions c)).*1 ∧ x = (e, Some (id c))
                     ∧ Some (id c) ∉ Matcher.match_ (_subMatcher st) e)
      ∧ m' = _subMatcher st
             ++ ((λ p, (p, Some (id c)))
                   <$> uncovered (patterns_of (Some (id c)) (_subMatcher st))
                         (persisted (subscriptions c)).*1).
Proof.
  intros Hc Hv key record notice set_failed publish_failed r1 r2.
  destruct (for_each_cover _ (Some (id c)) st Hv) as (m' & Hrun & Hsub & Hcover & Hnew).
  exists m'. split; [|split; [done|split; [done|split; [done|]]]].
  - unfold storeSubscriptions. rewrite Hc. rewrite bind_run, Hrun. mrun.
    unfold JSON_stringify. rewrite jsonify_subscriptions.
    subst key record notice set_failed publish_failed r1 r2.
    unfold set_reply, publish_reply.
    cbn [Js.jsonify omap list_omap fst snd]. mdone.
  - rewrite (for_each_cover_exact _ _ _ Hv) in Hrun.
    assert (_subMatcher (upd st m' (db st) (faults st) (trace st)) = m') as <- by done.
    injection Hrun as <-. done.
Qed.

(** C2 (as amended): for a session that is not clean and has well-formed
    patterns, [storeSubscriptions] writes the record of the patterns of
    positive qos (when the SET goes through), keeps the matcher's entries
    and appends to them, in the order of the keys of the record, the entry
    (pattern, client id) of each persisted pattern that gets one: a pattern
    gets an entry of its own exactly when no pattern the matcher held for
    the client and no pattern that got an entry before it matches it.
    After the call the matcher returns the client for every persisted
    pattern; the pattern itself need not be an entry. *)
Theorem storeSubscriptions_covers (c : client) (st : state) :
  clean c = false →
  valid_patterns (persisted (subscriptions c)).*1 →
  let patterns := (persisted (subscriptions c)).*1 in
  let owned := patterns_of (Some (id c)) (_subMatcher st) in
  let added := uncovered owned patterns in
  ∃ st', storeSubscriptions c st = (st', Return ())
       ∧ (next_fault st = false →
          db st' !! (subs +:+ id c)
          = Some (EString (Json (subscriptions_value (persisted (subscriptions c))))
                    (Some (options_ttl_subscriptions st))))
       ∧ _subMatcher st' = _subMatcher st ++ ((λ p, (p, Some (id c))) <$> added)
       ∧ (∀ l1 p l2, patterns = l1 ++ p :: l2 → p ∉ l1 →
            (p ∈ added
             ↔ ∀ e, e ∈ owned ∨ e ∈ uncovered owned l1 → Matcher.matches e p = false))
       ∧ (∀ x, x ∈ _subMatcher st → x ∈ _subMatcher st')
       ∧ (∀ e, e ∈ patterns → Some (id c) ∈ Matcher.match_ (_subMatcher st') e)
       ∧ (∀ x, x ∈ _subMatcher st' →
               x ∈ _subMatcher st
               ∨ ∃ e, e ∈ patterns ∧ x = (e, Some (id c))
                      ∧ Some (id c) ∉ Matcher.match_ (_subMatcher st) e).
Proof.
  intros Hc Hv patterns owned added.
  destruct (storeSubscriptions_run c st Hc Hv)
    as (m' & Hrun & Hsub & Hcover & Hnew & Hexact).
  eexists. split; [exact Hrun|]. split; [|split; [exact Hexact|split]].
  - intros Hf. cbn [db upd]. rewrite Hf. apply lookup_insert_eq.
  - intros l1 p l2 Hsplit Hfresh. subst added. rewrite Hsplit.
    by apply uncovered_spec.
  - done.
Qed.

Lemma storeSubscriptions_covers_witness :
  let c := {| id := "c1"; clean := false;
              subscriptions := [("hello/#", {| qos := 1 |});
                                ("hello/world", {| qos := 1 |})] |} in
  let c' := {| id := "c1"; clean := false;
               subscriptions := [("hello/world", {| qos := 1 |});
                                 ("hello/#", {| qos := 1 |})] |} in
  (∃ st', storeSubscriptions c (node "node-a" [] ∅) = (st', Return ())
        ∧ _subMatcher st' = [("hello/#", Some "c1")]
        ∧ Some "c1" ∈ Matcher.match_ (_subMatcher st') "hello/world")
  ∧ (∃ st', storeSubscriptions c' (node "node-a" [] ∅) = (st', Return ())
          ∧ _subMatcher st' = [("hello/world", Some "c1"); ("hello/#", Some "c1")]).
Proof.
  split.
  - destruct (storeSubscriptions_covers
                {| id := "c1"; clean := false;
                   subscriptions := [("hello/#", {| qos := 1 |});
                                     ("hello/world", {| qos := 1 |})] |}
                (node "node-a" [] ∅))
      as (st' & Hrun & _ & Hexact & _ & _ & Hcover & _).
    + reflexivity.
    + by_evaluation.
    + exists st'. split; [exact Hrun|]. split; [rewrite Hexact; vm_compute; reflexivity|].
      apply Hcover. vm_compute. apply elem_of_cons; right; apply elem_of_cons; by left.
  - destruct (storeSubscriptions_covers
                {| id := "c1"; clean := false;
                   subscriptions := [("hello/world", {| qos := 1 |});
                                     ("hello/#", {| qos := 1 |})] |}
                (node "node-a" [] ∅))
      as (st' & Hrun & _ & Hexact & _).
    + reflexivity.
    + by_evaluation.
    + exists st'. split; [exact Hrun|]. rewrite Hexact. vm_compute. reflexivity.
Defined.

(** C2 (as stated) fails when one persisted pattern is covered by another
    pattern of the same client: "hello/world" is persisted, but the matcher
    already returns the client for it through "hello/#", so no entry is made
    under "hello/world". *)
Lemma storeSubscriptions_skips_covered_pattern :
  let c := {| id := "c1"; clean := false;
              subscriptions := [("hello/#", {| qos := 1 |});
                                ("hello/world", {| qos := 1 |})] |} in
  let st' := (storeSubscriptions c (node "node-a" [] ∅)).1 in
  db st' !! (subs +:+ "c1")
  = Some (EString (Json (VObj [("hello/#", VObj [("qos", VNum 1)]);
                               ("hello/world", VObj [("qos", VNum 1)])]))
            (Some 3600000))
  ∧ _subMatcher st' = [("hello/#", Some "c1")]
  ∧ ("hello/world", Some "c1") ∉ _subMatcher st'.
Proof.
  split; [vm_compute; reflexivity|]. split; [vm_compute; reflexivity|].
  intros Hin. vm_compute in Hin.
  apply list_elem_of_singleton in Hin. discriminate.
Qed.

(** [lookupSubscriptions] for a session that is not clean, on a record that
    is a JSON object, whether the DEL fails or not. *)
Lemma lookupSubscriptions_run (c : client) st record px :
  clean c = false →
  next_fault st = false →
  db st !! (subs +:+ id c) = Some (EString (Json (VObj record)) px) →
  let key := subs +:+ id c in
  let del_failed := default false (head (tail (faults st))) in
  lookupSubscriptions c st
  = (upd st
       (foldl (λ m sub, Matcher.remove m sub (Some (id c))) (_subMatcher st) record.*1)
       (if del_failed then db st else delete key (db st))
       (tail (tail (faults st)))
       (trace st ++ [Command (GET key); Command (DEL key);
                     Callback (if del_failed then Some StoreUnavailable else None)
                       (Some (VObj record))]),
     Return ()).
Proof.
  intros Hc Hf Hdb key del_failed. unfold lookupSubscriptions, _cleanClient.
  rewrite Hc. mrun. rewrite Hf, Hdb. mrun. cbn [Reply.JSON_parse]. mrun.
  cbn [or_empty Js.truthy Js.keys]. mrun. mdone.
Qed.

(** C1 (as amended): for a session that is not clean, with distinct,
    well-formed patterns and a store that answers, [storeSubscriptions]
    followed by [lookupSubscriptions] calls back without error with exactly
    the entries of positive qos, and afterwards the matcher has no entry
    (pattern, client id) for any pattern of positive qos. *)
Theorem store_then_lookup (c : client) (st : state) :
  clean c = false →
  faults st = [] →
  NoDup (subscriptions c).*1 →
  valid_patterns (persisted (subscriptions c)).*1 →
  let kept := filter (λ kv, 0 < qos kv.2) (subscriptions c) in
  ∃ st1 st2,
    storeSubscriptions c st = (st1, Return ())
    ∧ lookupSubscriptions c st1 = (st2, Return ())
    ∧ trace st2
      = trace st1 ++ [Command (GET (subs +:+ id c)); Command (DEL (subs +:+ id c));
                      Callback None (Some (subscriptions_value kept))]
    ∧ ∀ p, p ∈ kept.*1 → (p, Some (id c)) ∉ _subMatcher st2.
Proof.
  intros Hc Hf Hnd Hv kept.
  destruct (storeSubscriptions_run c st Hc Hv) as (m' & Hstore & _).
  assert (persisted (subscriptions c) = kept) as Hkept by by apply persisted_filter.
  rewrite Hkept in Hstore. unfold next_fault in Hstore. rewrite Hf in Hstore.
  cbn [head tail default first_error] in Hstore.
  eexists. eexists. split; [exact Hstore|].
  erewrite (lookupSubscriptions_run c _
              (prod_map Datatypes.id subscription_value <$> kept));
    [|done|reflexivity|cbn [db upd]; by rewrite lookup_insert_eq].
  split; [reflexivity|]. cbn [faults upd head tail default trace _subMatcher].
  split; [reflexivity|].
  intros p Hp. rewrite elem_of_foldl_remove. intros [_ Hall].
  apply (Hall p); [|done].
  rewrite <- list_fmap_compose.
  erewrite list_fmap_ext; [exact Hp|]. by intros ? [??].
Qed.

Lemma store_then_lookup_witness :
  let c := {| id := "my client id - 42"; clean := false;
              subscriptions := [("hello/#", {| qos := 1 |}); ("news", {| qos := 0 |})] |} in
  ∃ st1 st2,
    storeSubscriptions c (node "node-a" [] ∅) = (st1, Return ())
    ∧ lookupSubscriptions c st1 = (st2, Return ())
    ∧ trace st2
      = trace st1 ++ [Command (GET (subs +:+ id c)); Command (DEL (subs +:+ id c));
                      Callback None
                        (Some (VObj [("hello/#", VObj [("qos", VNum 1)])]))]
    ∧ ("hello/#", Some "my client id - 42") ∉ _subMatcher st2.
Proof.
  destruct (store_then_lookup
              {| id := "my client id - 42"; clean := false;
                 subscriptions := [("hello/#", {| qos := 1 |});
                                   ("news", {| qos := 0 |})] |}
              (node "node-a" [] ∅))
    as (st1 & st2 & Hstore & Hlookup & Htrace & Hgone).
  - reflexivity.
  - reflexivity.
  - by_evaluation.
  - by_evaluation.
  - exists st1, st2. split; [exact Hstore|]. split; [exact Hlookup|].
    split; [exact Htrace|]. apply Hgone. vm_compute. apply elem_of_cons. by left.
Defined.

(** C1 (as stated) fails for a pattern of the session whose qos is 0: the
    entry an earlier call made for it, when its qos was 1, is neither in the
    record that is written nor in the one that is read back, so the lookup
    does not remove it. *)
Lemma store_then_lookup_keeps_qos0_entry :
  let before := {| id := "c1"; clean := false;
                   subscriptions := [("news", {| qos := 1 |})] |} in
  let c := {| id := "c1"; clean := false;
              subscriptions := [("news", {| qos := 0 |})] |} in
  let st := (storeSubscriptions before (node "node-a" [] ∅)).1 in
  let st1 := (storeSubscriptions c st).1 in
  let st2 := (lookupSubscriptions c st1).1 in
  storeSubscriptions c st = (st1, Return ())
  ∧ lookupSubscriptions c st1 = (st2, Return ())
  ∧ "news" ∈ (subscriptions c).*1
  ∧ ("news", Some "c1") ∈ _subMatcher st2.
Proof.
  split; [vm_compute; reflexivity|]. split; [vm_compute; reflexivity|].
  split; vm_compute; apply elem_of_cons; by left.
Qed.

(** ** The offline packet queue *)

Lemma append_inj_r (p a b : string) : p +:+ a = p +:+ b → a = b.
Proof. induction p as [|ch p IH]; simpl; [done|]. intros [= ?]. by apply IH. Qed.

Lemma backlog_key_inj (cid : string) (x : option string) :
  cid ≠ "undefined" →
  packets +:+ subscriber_name x = packets +:+ cid → x = Some cid.
Proof.
  intros Hne Heq%append_inj_r. destruct x as [s|]; cbn in Heq; by subst.
Qed.

Lemma storePacket_run (client : option string) (packet : Packet.t) st :
  faults st = [] →
  let key := packets +:+ subscriber_name client in
  _storePacket client packet st
  = (sent st (LPUSH key (packet_text packet))
       match db st !! key with
       | None => <[key := EList [packet_text packet]]> (db st)
       | Some (EList l) => <[key := EList (packet_text packet :: l)]> (db st)
       | Some _ => db st
       end,
     Return match db st !! key with
            | None | Some (EList _) => None
            | Some _ => Some WrongType
            end).
Proof.
  intros Hf key. unfold _storePacket. rewrite lpush_run.
  unfold next_fault. by rewrite Hf.
Qed.

Section Queue.

Variable packet : Packet.t.
Variable k : string.

(** Pushing to other backlogs leaves the one under [k] as it is. *)
Lemma collect_store_frame ms st :
  faults st = [] →
  (∀ x, x ∈ ms → packets +:+ subscriber_name x ≠ k) →
  ∃ st' errs,
    collect ms (λ client, _storePacket client packet) st = (st', Return errs)
    ∧ faults st' = [] ∧ _subMatcher st' = _subMatcher st
    ∧ db st' !! k = db st !! k.
Proof.
  revert st. induction ms as [|x ms IH]; intros st Hf Hne.
  - by exists st, [].
  - cbn [collect]. rewrite bind_run, storePacket_run by done. mnorm.
    rewrite bind_run.
    lazymatch goal with
    | |- context [collect ms _ ?s] =>
        destruct (IH s) as (st' & errs & Hrun & Hf' & Hm & Hdb)
    end.
    { cbn [faults sent upd]. by rewrite Hf. }
    { intros y Hy. apply Hne. by right. }
    rewrite Hrun. mrun.
    eexists _, _. split; [done|]. split; [done|]. split; [done|].
    rewrite Hdb. cbn [db sent upd].
    assert (packets +:+ subscriber_name x ≠ k) as Hx by (apply Hne; by left).
    destruct (db st !! (packets +:+ subscriber_name x)) as [[]|];
      by rewrite ?lookup_insert_ne.
Qed.

(** Pushing for the subscribers the matcher returned adds the packet once
    at the head of the backlog of the one that owns [k]. *)
Lemma collect_store ms (target : option string) st l :
  faults st = [] →
  NoDup ms →
  target ∈ ms →
  packets +:+ subscriber_name target = k →
  (∀ x, x ∈ ms → packets +:+ subscriber_name x = k → x = target) →
  backlog (db st) k = Some l →
  ∃ st' errs,
    collect ms (λ client, _storePacket client packet) st = (st', Return errs)
    ∧ faults st' = [] ∧ _subMatcher st' = _subMatcher st
    ∧ backlog (db st') k = Some (packet_text packet :: l).
Proof.
  revert st. induction ms as [|x ms IH]; intros st Hf Hnd Hin Hk Hinj Hl.
  - by apply elem_of_nil in Hin.
  - apply NoDup_cons in Hnd as [Hx Hnd].
    cbn [collect]. rewrite bind_run, storePacket_run by done. mnorm.
    rewrite bind_run.
    destruct (decide (x = target)) as [->|Hxt].
    + rewrite Hk.
      lazymatch goal with
      | |- context [collect ms _ ?s] =>
          destruct (collect_store_frame ms s) as (st' & errs & Hrun & Hf' & Hm & Hdb)
      end.
      { cbn [faults sent upd]. by rewrite Hf. }
      { intros y Hy Hyk. apply Hx. by rewrite <- (Hinj y (list_elem_of_further _ _ _ Hy) Hyk). }
      rewrite Hrun. mrun.
      eexists _, _. split; [done|]. split; [done|]. split; [done|].
      unfold backlog in *. rewrite Hdb. cbn [db sent upd].
      destruct (db st !! k) as [[]|]; simplify_eq; by rewrite lookup_insert_eq.
    + assert (packets +:+ subscriber_name x ≠ k) as Hxk.
      { intros Hxk. apply Hxt, Hinj; [by left|done]. }
      lazymatch goal with
      | |- context [collect ms _ ?s] =>
          destruct (IH s) as (st' & errs & Hrun & Hf' & Hm & Hdb)
      end.
      { cbn [faults sent upd]. by rewrite Hf. }
      { done. }
      { apply elem_of_cons in Hin as [?|?]; [congruence|done]. }
      { done. }
      { intros y Hy. apply Hinj. by right. }
      { unfold backlog in *. cbn [db sent upd].
        destruct (db st !! (packets +:+ subscriber_name x)) as [[]|];
          rewrite ?lookup_insert_ne by done; exact Hl. }
      rewrite Hrun. mrun.
      by eexists _, _.
Qed.

End Queue.

(** [storeOfflinePacket] for a packet whose topic the matcher maps to the
    client: the packet is added once at the head of the client's backlog. *)
Lemma storeOfflinePacket_run (cid : string) (p : Packet.t) st l :
  faults st = [] →
  cid ≠ "undefined" →
  Some cid ∈ Matcher.match_ (_subMatcher st) (Packet.topic p) →
  backlog (db st) (packets +:+ cid) = Some l →
  ∃ st', storeOfflinePacket p st = (st', Return ())
       ∧ faults st' = [] ∧ _subMatcher st' = _subMatcher st
       ∧ backlog (db st') (packets +:+ cid) = Some (packet_text p :: l).
Proof.
  intros Hf Hcid Hin Hl. unfold storeOfflinePacket. mrun.
  destruct (collect_store p (packets +:+ cid)
              (Matcher.match_ (_subMatcher st) (Packet.topic p)) (Some cid) st l)
    as (st' & errs & Hrun & Hf' & Hm & Hdb); try done.
  { apply match_NoDup. }
  { intros x _. by apply backlog_key_inj. }
  rewrite Hrun. mrun. eexists. split; [done|]. by cbn [faults _subMatcher db upd].
Qed.

(** Draining a backlog of packets, oldest first in [ps]: enough fuel is one
    more than their number. *)
Lemma streamOfflinePackets_run (c : client) (ps : list Packet.t) :
  clean c = false →
  ∀ fuel st,
    (length ps < fuel)%nat →
    faults st = [] →
    backlog (db st) (packets +:+ id c) = Some (rev (packet_text <$> ps)) →
    ∃ st', streamOfflinePackets fuel c st = (st', Return ())
         ∧ trace st' = trace st ++ drained c ps
         ∧ _subMatcher st' = _subMatcher st
         ∧ faults st' = []
         ∧ backlog (db st') (packets +:+ id c) = Some [].
Proof.
  intros Hc. induction ps as [|p ps IH]; intros fuel st Hfuel Hf Hl.
  - destruct fuel as [|fuel]; [cbn in Hfuel; lia|].
    cbn [streamOfflinePackets]. unfold _cleanClient. rewrite Hc. mrun.
    unfold next_fault. rewrite Hf. cbn [head default].
    unfold backlog in Hl. cbn [fmap list_fmap rev] in Hl.
    destruct (db st !! (packets +:+ id c)) as [[| l |]|] eqn:Hdb;
      simplify_eq; mrun; cbn [last Reply.truthy]; mrun;
      (eexists; split; [done|]);
      cbn [trace db faults _subMatcher sent upd]; unfold backlog; rewrite Hdb, Hf;
      done.
  - destruct fuel as [|fuel]; [cbn in Hfuel; lia|].
    cbn [streamOfflinePackets]. unfold _cleanClient. rewrite Hc. mrun.
    unfold next_fault. rewrite Hf. cbn [head default].
    unfold backlog in Hl. rewrite fmap_cons in Hl. cbn [rev] in Hl.
    destruct (db st !! (packets +:+ id c)) as [[| l |]|] eqn:Hdb; simplify_eq.
    2:{ by destruct (rev (packet_text <$> ps)). }
    rewrite last_snoc, removelast_last. mrun.
    cbn [Reply.truthy packet_text JSON_stringify Reply.JSON_parse]. mrun.
    rewrite restore_packet. mrun.
    lazymatch goal with
    | |- context [streamOfflinePackets fuel c ?s] =>
        destruct (IH fuel s) as (st' & Hrun & Htr & Hm & Hf' & Hl')
    end.
    { cbn in Hfuel. lia. }
    { cbn [faults sent upd]. by rewrite Hf. }
    { unfold backlog. cbn [db sent upd].
      destruct (rev (packet_text <$> ps)) as [|t l'] eqn:Hrev.
      - by rewrite lookup_delete_eq.
      - by rewrite lookup_insert_eq. }
    exists st'. split; [exact Hrun|]. split; [|done].
    rewrite Htr. cbn [trace sent upd]. unfold drained. cbn [flat_map].
    by rewrite <- !app_assoc.
Qed.

(** C3: packets stored in the order P1, P2, P3 for topics the matcher maps
    to the client are handed to the callback of [streamOfflinePackets] in
    that order, each after the pop that returns it; the fourth pop finds the
    backlog empty and nothing more is called.  (The client id is not the
    text "undefined", the name under which [_storePacket] queues for a
    matcher entry without subscriber; four calls of the recursion suffice.) *)
Theorem offline_packets_fifo (c : client) (p1 p2 p3 : Packet.t)
    (st : state) (fuel : nat) :
  clean c = false →
  faults st = [] →
  id c ≠ "undefined" →
  db st !! (packets +:+ id c) = None →
  Some (id c) ∈ Matcher.match_ (_subMatcher st) (Packet.topic p1) →
  Some (id c) ∈ Matcher.match_ (_subMatcher st) (Packet.topic p2) →
  Some (id c) ∈ Matcher.match_ (_subMatcher st) (Packet.topic p3) →
  (4 ≤ fuel)%nat →
  ∃ st1 st2,
    (storeOfflinePacket p1;; storeOfflinePacket p2;; storeOfflinePacket p3) st
    = (st1, Return ())
    ∧ streamOfflinePackets fuel c st1 = (st2, Return ())
    ∧ trace st2
      = trace st1 ++ [Command (RPOP (packets +:+ id c));
                      Callback None (Some (Packet.to_value p1));
                      Command (RPOP (packets +:+ id c));
                      Callback None (Some (Packet.to_value p2));
                      Command (RPOP (packets +:+ id c));
                      Callback None (Some (Packet.to_value p3));
                      Command (RPOP (packets +:+ id c))].
Proof.
  intros Hc Hf Hid Hdb H1 H2 H3 Hfuel.
  destruct (storeOfflinePacket_run (id c) p1 st []) as (sa & Ha & Hfa & Hma & Hla);
    [done|done|done|by unfold backlog; rewrite Hdb|].
  destruct (storeOfflinePacket_run (id c) p2 sa [packet_text p1])
    as (sb & Hb & Hfb & Hmb & Hlb); [done|done|by rewrite Hma|done|].
  destruct (storeOfflinePacket_run (id c) p3 sb [packet_text p2; packet_text p1])
    as (sc & Hcc & Hfc & Hmc & Hlc); [done|done|by rewrite Hmb, Hma|done|].
  destruct (streamOfflinePackets_run c [p1; p2; p3] Hc fuel sc)
    as (st2 & Hrun & Htr & _); [cbn; lia|done|done|].
  exists sc, st2. split; [|by split].
  by rewrite bind_run, Ha, bind_run, Hb.
Qed.

Lemma offline_packets_fifo_witness :
  let c := {| id := "my client id - 42"; clean := false;
              subscriptions := [("hello/#", {| qos := 1 |})] |} in
  let p n := {| Packet.topic := "hello/42"; Packet.payload := ["w"; "o"; "r"; "l"; "d"]%byte;
                Packet.qos := 0; Packet.messageId := Some n; Packet.retain := None |} in
  let st := node "node-a" [("hello/#", Some "my client id - 42")] ∅ in
  ∃ st1 st2,
    (storeOfflinePacket (p 1);; storeOfflinePacket (p 2);; storeOfflinePacket (p 3)) st
    = (st1, Return ())
    ∧ streamOfflinePackets 4 c st1 = (st2, Return ())
    ∧ trace st2
      = trace st1 ++ [Command (RPOP (packets +:+ id c));
                      Callback None (Some (Packet.to_value (p 1)));
                      Command (RPOP (packets +:+ id c));
                      Callback None (Some (Packet.to_value (p 2)));
                      Command (RPOP (packets +:+ id c));
                      Callback None (Some (Packet.to_value (p 3)));
                      Command (RPOP (packets +:+ id c))].
Proof.
  intros c p st.
  apply (offline_packets_fifo c (p 1) (p 2) (p 3) st 4).
  - reflexivity.
  - reflexivity.
  - by_evaluation.
  - vm_compute. reflexivity.
  - by_evaluation.
  - by_evaluation.
  - by_evaluation.
  - lia.
Defined.

(** ** Retained messages *)

#[global] Instance le_total : Total JsString.le.
Proof. intros a b. apply String.leb_total. Qed.

Lemma hget_retained st hp topic :
  faults st = [] →
  retained_store st hp →
  Rc.hget retained topic st
  = (sent st (HGET retained topic) (db st), Return (retained_reply hp topic)).
Proof.
  intros Hf Hst. rewrite hget_run. unfold next_fault, retained_reply.
  rewrite Hf. cbn [head default].
  destruct Hst as [->|[-> ->]]; [|by rewrite lookup_empty].
  rewrite lookup_fmap. by destruct (hp !! topic).
Qed.

Lemma collect_hget topics st hp :
  faults st = [] →
  retained_store st hp →
  collect topics (λ topic, Rc.hget retained topic) st
  = (upd st (_subMatcher st) (db st) []
       (trace st ++ ((λ topic, Command (HGET retained topic)) <$> topics)),
     Return (retained_reply hp <$> topics)).
Proof.
  revert st. induction topics as [|t topics IH]; intros st Hf Hst.
  - cbn [collect fmap list_fmap]. rewrite mret_run, app_nil_r, <- Hf. done.
  - cbn [collect]. rewrite bind_run, (hget_retained st hp) by done. mnorm.
    rewrite bind_run, IH; [|cbn [faults sent upd]; by rewrite Hf|done].
    mrun. rewrite fmap_cons. mdone.
Qed.

Lemma each_match_packets topics hp matched st :
  each_match (retained_reply hp <$> topics) matched false st
  = (upd st (_subMatcher st) (db st) (faults st)
       (trace st ++ [Callback None
                       (Some (VArr (matched
                                    ++ omap (λ t, Packet.to_value <$> hp !! t) topics)))]),
     Return ()).
Proof.
  revert matched st. induction topics as [|t topics IH]; intros matched st.
  - cbn [fmap list_fmap each_match omap list_omap]. rewrite emit_run.
    by rewrite app_nil_r.
  - rewrite fmap_cons. cbn [each_match retained_reply]. unfold match_reply.
    cbn [omap list_omap]. destruct (hp !! t) as [p|]; cbn [Reply.truthy fmap option_fmap option_map].
    + mrun. cbn [packet_text JSON_stringify Reply.JSON_parse]. mrun.
      rewrite restore_packet. mrun. rewrite IH. by rewrite <- app_assoc.
    + mrun. by rewrite IH.
Qed.

(** The matcher [lookupRetained] builds returns something for a topic
    exactly when the pattern matches the topic. *)
Lemma seeded_matcher pattern topic :
  (0 < length (Matcher.match_ (A:=bool) [(pattern, true)] topic))%nat
  ↔ Matcher.matches pattern topic = true.
Proof.
  unfold Matcher.match_. rewrite filter_cons, filter_nil. cbn [fst].
  destruct (Matcher.matches pattern topic); split; intros H; try done.
  - vm_compute. lia.
  - vm_compute in H. lia.
Qed.

Lemma elem_of_fetched pattern hp topic :
  topic ∈ fetched pattern hp
  ↔ is_Some (hp !! topic) ∧ Matcher.matches pattern topic = true.
Proof.
  unfold fetched. rewrite list_elem_of_filter, seeded_matcher, merge_sort_Permutation.
  rewrite list_elem_of_fmap. split.
  - intros [Hm [[t x] [-> Hin%elem_of_map_to_list]]]. split; [|done].
    rewrite lookup_fmap in Hin. cbn. by destruct (hp !! t).
  - intros [[p Hp] Hm]. split; [done|].
    exists (topic, packet_text p). split; [done|].
    apply elem_of_map_to_list. by rewrite lookup_fmap, Hp.
Qed.

(** C5: [lookupRetained] without "#" and "+" in its argument sends one HGET
    for that very field and no other command, and what it calls back with
    has at most one element (the stored packet, when there is one); with a
    wildcard, a well-formed pattern and a store that answers, it sends
    HKEYS, sorts the fields, keeps those for which a matcher holding only
    this pattern returns something, sends an HGET for each in that order and
    calls back with the packets stored under them. *)
Theorem lookupRetained_dispatch (pattern : string) (st : state)
    (hp : gmap string Packet.t) :
  (JsString.contains "#" pattern = false →
   JsString.contains "+" pattern = false →
   (∃ rest,
       trace (lookupRetained pattern st).1
       = trace st ++ Command (HGET retained pattern) :: rest
       ∧ (rest = []
          ∨ ∃ err matched, rest = [Callback err (Some (VArr matched))]
                           ∧ (length matched ≤ 1)%nat))
   ∧ (faults st = [] → retained_store st hp →
      lookupRetained pattern st
      = (upd st (_subMatcher st) (db st) []
           (trace st ++ [Command (HGET retained pattern);
                         Callback None
                           (Some (VArr (option_list (Packet.to_value <$> hp !! pattern))))]),
         Return ())))
  ∧ (JsString.contains "#" pattern || JsString.contains "+" pattern = true →
     Matcher.valid pattern = true →
     faults st = [] →
     retained_store st hp →
     lookupRetained pattern st
     = (upd st (_subMatcher st) (db st) []
          (trace st ++ Command (HKEYS retained)
             :: ((λ topic, Command (HGET retained topic)) <$> fetched pattern hp)
             ++ [Callback None
                   (Some (VArr (omap (λ t, Packet.to_value <$> hp !! t)
                                  (fetched pattern hp))))]),
        Return ())
     ∧ Sorted JsString.le (merge_sort JsString.le (map_to_list (packet_text <$> hp)).*1)
     ∧ ∀ topic, topic ∈ fetched pattern hp
                ↔ is_Some (hp !! topic) ∧ Matcher.matches pattern topic = true).
Proof.
  split.
  - intros H1 H2. unfold lookupRetained. rewrite H1, H2. cbn [orb]. split.
    + mrun. destruct (if next_fault st then _ else _) as [err packet].
      unfold match_reply. destruct (Reply.truthy packet).
      * destruct (Reply.JSON_parse packet) as [e|v]; mrun;
          [eexists; split; [done|by left]|].
        destruct (restore_payload v) as [e|v']; mrun;
          [eexists; split; [done|by left]|].
        eexists. split; [by rewrite <- app_assoc|].
        right. exists err, [v']. split; [done|]. cbn. lia.
      * mrun. eexists. split; [by rewrite <- app_assoc|].
        right. exists err, []. split; [done|]. cbn. lia.
    + intros Hf Hst. rewrite bind_run, (hget_retained st hp) by done. mnorm.
      unfold retained_reply, match_reply.
      destruct (hp !! pattern) as [p|]; cbn [Reply.truthy fmap option_fmap option_map option_list].
      * mrun. cbn [packet_text JSON_stringify Reply.JSON_parse]. mrun.
        rewrite restore_packet. mrun. rewrite Hf. mdone.
      * mrun. rewrite Hf. mdone.
  - intros Hw Hv Hf Hst. split; [|split].
    + unfold lookupRetained. rewrite Hw.
      unfold Matcher.add, Matcher.empty. rewrite Hv.
      rewrite bool_decide_false by (intros Hin; by apply elem_of_nil in Hin).
      cbn [app]. mrun. unfold next_fault. rewrite Hf. cbn [head default].
      assert (match db st !! retained with
              | Some (EHash h) => (None, Some (map_to_list h).*1)
              | None => (None, Some [])
              | Some _ => (Some WrongType, None)
              end = (None : option store_error,
                     Some (map_to_list (packet_text <$> hp)).*1)) as ->.
      { destruct Hst as [->|[-> ->]]; [done|].
        by rewrite fmap_empty, map_to_list_empty. }
      mnorm. fold (fetched pattern hp).
      rewrite bind_run, (collect_hget _ _ hp);
        [|cbn [faults sent upd]; by rewrite Hf
         |destruct Hst as [?|[??]]; [by left|by right]].
      mnorm. rewrite each_match_packets. mdone.
    + apply Sorted_merge_sort, _.
    + apply elem_of_fetched.
Qed.

Lemma lookupRetained_dispatch_witness :
  let p := {| Packet.topic := "hello/42"; Packet.payload := ["w"; "o"; "r"; "l"; "d"]%byte;
              Packet.qos := 0; Packet.messageId := Some 42; Packet.retain := Some true |} in
  let hp : gmap string Packet.t := {[ "hello/42" := p ]} in
  let st := node "node-a" [] {[ retained := EHash (packet_text <$> hp) ]} in
  lookupRetained "hello/42" st
  = (upd st [] (db st) []
       [Command (HGET retained "hello/42");
        Callback None (Some (VArr [Packet.to_value p]))],
     Return ())
  ∧ lookupRetained "hello/+" st
    = (upd st [] (db st) []
         [Command (HKEYS retained); Command (HGET retained "hello/42");
          Callback None (Some (VArr [Packet.to_value p]))],
       Return ()).
Proof.
  intros p hp st.
  assert (retained_store st hp) as Hst by (left; apply lookup_singleton_eq).
  split.
  - destruct (lookupRetained_dispatch "hello/42" st hp) as [Hexact _].
    destruct (Hexact eq_refl eq_refl) as [_ Hrun].
    rewrite (Hrun eq_refl Hst). vm_compute. reflexivity.
  - destruct (lookupRetained_dispatch "hello/+" st hp) as [_ Hwild].
    destruct (Hwild eq_refl eq_refl eq_refl Hst) as [Hrun _].
    rewrite Hrun. vm_compute. reflexivity.
Defined.

(** ** Completion signals *)

Ltac calls_done :=
  cbn [trace upd sent]; rewrite ?callbacks_app;
  cbn [callbacks omap list_omap app]; rewrite ?app_nil_r; reflexivity.

Ltac signalled := eexists _, _; split; [reflexivity|calls_done].

Lemma storeRetained_completes (p : Packet.t) st :
  completes_with (storeRetained p) st
    (reported (next_fault st) (db st)
       (HSET retained (Packet.topic p) (packet_text p))).
Proof.
  unfold completes_with, storeRetained, reported, wrong_kind. mrun.
  destruct (next_fault st); mrun; [signalled|].
  destruct (db st !! retained) as [[]|]; mrun; signalled.
Qed.

Lemma close_completes st : completes_with close st None.
Proof. unfold completes_with, close. mrun. signalled. Qed.

Lemma storeSubscriptions_completes (c : client) st :
  (clean c = true → completes_with (storeSubscriptions c) st None)
  ∧ (clean c = false →
     valid_patterns (persisted (subscriptions c)).*1 →
     completes_with (storeSubscriptions c) st
       (first_error
          (reports (faults st) (db st)
             [SET (subs +:+ id c)
                (Json (subscriptions_value (persisted (subscriptions c))))
                (options_ttl_subscriptions st);
              PUBLISH (options_channel st) (notice_of st c)]))).
Proof.
  unfold completes_with. split.
  - intros Hc. unfold storeSubscriptions. rewrite Hc. mrun. signalled.
  - intros Hc Hv.
    destruct (storeSubscriptions_run c st Hc Hv) as (m' & -> & _).
    cbn [reports reported wrong_kind]. unfold next_fault, set_reply, publish_reply.
    destruct (default false (head (faults st)));
      destruct (default false (head (tail (faults st)))); signalled.
Qed.

Lemma storePacket_lpush (client : option string) (p : Packet.t) st :
  _storePacket client p st
  = Rc.lpush (packets +:+ subscriber_name client) (packet_text p) st.
Proof. reflexivity. Qed.

(** An LPUSH changes for no key whether it can take an LPUSH. *)
Lemma lpush_keeps_kind (d : gmap string entry) (failed : bool) key t key' t' :
  wrong_kind
    (if failed then d
     else match d !! key with
          | None => <[key := EList [t]]> d
          | Some (EList l) => <[key := EList (t :: l)]> d
          | Some _ => d
          end) (LPUSH key' t')
  = wrong_kind d (LPUSH key' t').
Proof.
  destruct failed; [done|]. cbn [wrong_kind].
  destruct (d !! key) as [[]|] eqn:Hkey; try done;
    (destruct (decide (key' = key)) as [->|Hne];
     [by rewrite lookup_insert_eq, Hkey|by rewrite lookup_insert_ne]).
Qed.

Lemma reports_pushes f (d d' : gmap string entry) (p : Packet.t)
    (ms : list (option string)) :
  (∀ key, wrong_kind d' (LPUSH key (packet_text p))
          = wrong_kind d (LPUSH key (packet_text p))) →
  reports f d' (push_command p <$> ms) = reports f d (push_command p <$> ms).
Proof.
  intros Hkind. revert f. induction ms as [|x ms IH]; intros f; [done|].
  rewrite fmap_cons. cbn [reports]. rewrite IH. f_equal.
  unfold reported, push_command. by rewrite Hkind.
Qed.

(** The errors the LPUSHes of [storeOfflinePacket] call back with. *)
Lemma collect_store_calls (p : Packet.t) ms st :
  ∃ st',
    collect ms (λ client, _storePacket client p) st
    = (st', Return (reports (faults st) (db st) (push_command p <$> ms)))
    ∧ callbacks (trace st') = callbacks (trace st).
Proof.
  revert st. induction ms as [|x ms IH]; intros st.
  - by exists st.
  - cbn [collect].
    rewrite bind_run, storePacket_lpush, lpush_run. mnorm. rewrite bind_run.
    lazymatch goal with
    | |- context [collect ms _ ?s] => destruct (IH s) as (st' & -> & Hcalls)
    end.
    mrun. exists st'. split; [|rewrite Hcalls; calls_done].
    f_equal. f_equal. rewrite fmap_cons. cbn [reports]. f_equal.
    + unfold reported, push_command, next_fault. cbn [wrong_kind].
      destruct (default false (head (faults st))); [done|].
      by destruct (db st !! (packets +:+ subscriber_name x)) as [[]|].
    + apply reports_pushes. intros key. apply lpush_keeps_kind.
Qed.

Lemma storeOfflinePacket_completes (p : Packet.t) st :
  completes_with (storeOfflinePacket p) st
    (first_error
       (reports (faults st) (db st)
          (push_command p <$> Matcher.match_ (_subMatcher st) (Packet.topic p)))).
Proof.
  unfold completes_with, storeOfflinePacket. mrun.
  destruct (collect_store_calls p
              (Matcher.match_ (_subMatcher st) (Packet.topic p)) st)
    as (st' & -> & Hcalls).
  mrun. eexists _, _. split; [reflexivity|].
  cbn [trace upd]. rewrite callbacks_app, Hcalls. done.
Qed.

Lemma lookupSubscriptions_completes (c : client) st :
  readable_record st c →
  completes_with (lookupSubscriptions c) st
    (first_error
       (reports (tail (faults st)) (db st)
          (if clean c
           then [DEL (subs +:+ id c); DEL (packets +:+ id c)]
           else [DEL (subs +:+ id c)]))).
Proof.
  intros [Hf Hdb]. unfold completes_with. destruct (clean c) eqn:Hc.
  - unfold lookupSubscriptions, _cleanClient. rewrite Hc. mrun. rewrite Hf.
    destruct Hdb as [->|(record & px & ->)]; mrun; cbn [Reply.JSON_parse]; mrun;
      cbn [or_empty Js.truthy Js.keys]; mrun;
      unfold reported, next_fault;
      cbn [reports wrong_kind faults upd sent head tail default];
      destruct (default false (head (tail (faults st))));
      destruct (default false (head (tail (tail (faults st))))); signalled.
  - unfold reported. cbn [reports wrong_kind].
    destruct Hdb as [Hdb|(record & px & Hdb)].
    + rewrite (lookupSubscriptions_missing c st Hc Hf Hdb).
      destruct (default false (head (tail (faults st)))); signalled.
    + rewrite (lookupSubscriptions_run c st record px Hc Hf Hdb).
      destruct (default false (head (tail (faults st)))); signalled.
Qed.

Lemma match_reply_harmless matched r st :
  harmless r → ∃ matched', match_reply matched r.2 st = (st, Return matched')
                          ∧ (length matched' ≤ S (length matched))%nat.
Proof.
  unfold match_reply. intros [->|[->|[p ->]]]; cbn [Reply.truthy].
  - exists matched. split; [done|lia].
  - exists matched. split; [done|lia].
  - mrun. cbn [packet_text JSON_stringify Reply.JSON_parse]. mrun.
    rewrite restore_packet. mrun. eexists. split; [done|].
    rewrite length_app. cbn. lia.
Qed.

Lemma hget_harmless st hp topic :
  retained_store st hp →
  ∃ r, Rc.hget retained topic st = (sent st (HGET retained topic) (db st), Return r)
       ∧ harmless r
       ∧ r.1 = reported (next_fault st) (db st) (HGET retained topic).
Proof.
  intros Hst. rewrite hget_run. eexists. split; [reflexivity|].
  unfold harmless, reported, wrong_kind.
  destruct (next_fault st); [split; [by left|done]|].
  destruct Hst as [->|[-> ->]]; [|split; [by right; left|done]].
  rewrite lookup_fmap. destruct (hp !! topic) as [p|]; cbn; (split; [|done]).
  - right; right. by exists p.
  - by right; left.
Qed.

Lemma collect_hget_harmless topics st hp :
  retained_store st hp →
  ∃ st' replies,
    collect topics (λ topic, Rc.hget retained topic) st = (st', Return replies)
    ∧ callbacks (trace st') = callbacks (trace st)
    ∧ Forall harmless replies
    ∧ replies.*1 = reports (faults st) (db st) ((λ topic, HGET retained topic) <$> topics).
Proof.
  revert st. induction topics as [|t topics IH]; intros st Hst.
  - by exists st, [].
  - cbn [collect]. destruct (hget_harmless st hp t Hst) as (r & Hr & Hh & Herr).
    rewrite bind_run, Hr. mnorm. rewrite bind_run.
    lazymatch goal with
    | |- context [collect topics _ ?s] =>
        destruct (IH s) as (st' & replies & -> & Hcalls & Hall & Herrs)
    end.
    { destruct Hst as [?|[??]]; [by left|by right]. }
    mrun. eexists _, _. split; [reflexivity|]. split; [|split].
    + rewrite Hcalls. calls_done.
    + by constructor.
    + rewrite !fmap_cons. cbn [reports]. by rewrite Herr, Herrs.
Qed.

Lemma each_match_harmless replies matched (called : bool) st :
  Forall harmless replies →
  ∃ st' signals,
    each_match replies matched called st = (st', Return ())
    ∧ callbacks (trace st') = callbacks (trace st) ++ signals
    ∧ if called then signals = []
      else ∃ arg, signals = [(first_error replies.*1, arg)].
Proof.
  intros Hall. revert matched called st.
  induction Hall as [|[err packet] replies Hh Hall IH]; intros matched called st.
  - cbn [each_match]. destruct called; mrun.
    + exists st, []. by rewrite app_nil_r.
    + eexists _, [_]. split; [reflexivity|]. split; [calls_done|by eexists].
  - cbn [each_match].
    destruct (match_reply_harmless matched (err, packet) st Hh) as (matched' & Hm & _).
    cbn [snd] in Hm. rewrite bind_run, Hm. mnorm.
    destruct err as [e|].
    + destruct called; mrun.
      * destruct (IH matched' true st) as (st' & signals & -> & Hcalls & Hnone).
        by eexists _, _.
      * lazymatch goal with
        | |- context [each_match replies matched' true ?s] =>
            destruct (IH matched' true s) as (st' & signals & -> & Hcalls & ->)
        end.
        eexists _, [_]. split; [reflexivity|]. split; [|by eexists].
        rewrite Hcalls, app_nil_r. calls_done.
    + apply IH.
Qed.

Lemma lookupRetained_completes (pattern : string) st hp :
  retained_store st hp →
  (JsString.contains "#" pattern = false →
   JsString.contains "+" pattern = false →
   completes_with (lookupRetained pattern) st
     (reported (next_fault st) (db st) (HGET retained pattern)))
  ∧ (JsString.contains "#" pattern || JsString.contains "+" pattern = true →
     Matcher.valid pattern = true →
     next_fault st = false →
     completes_with (lookupRetained pattern) st
       (first_error
          (reports (tail (faults st)) (db st)
             ((λ topic, HGET retained topic) <$> fetched pattern hp)))).
Proof.
  intros Hst. unfold completes_with, lookupRetained. split.
  - intros -> ->. cbn [orb].
    destruct (hget_harmless st hp pattern Hst) as ([err packet] & Hr & Hh & <-).
    rewrite bind_run, Hr. mnorm.
    destruct (match_reply_harmless [] (err, packet)
                (sent st (HGET retained pattern) (db st)) Hh) as (matched & Hm & _).
    cbn [snd] in Hm. rewrite bind_run, Hm. mrun. signalled.
  - intros -> Hv Hf.
    unfold Matcher.add, Matcher.empty. rewrite Hv.
    rewrite bool_decide_false by (intros Hin; by apply elem_of_nil in Hin).
    cbn [app]. mrun. rewrite Hf.
    assert (match db st !! retained with
            | Some (EHash h) => (None, Some (map_to_list h).*1)
            | None => (None, Some [])
            | Some _ => (Some WrongType, None)
            end = (None : option store_error,
                   Some (map_to_list (packet_text <$> hp)).*1)) as ->.
    { destruct Hst as [->|[-> ->]]; [done|].
      by rewrite fmap_empty, map_to_list_empty. }
    mnorm. fold (fetched pattern hp). rewrite bind_run.
    lazymatch goal with
    | |- context [collect ?ts _ ?s] =>
        destruct (collect_hget_harmless ts s hp)
          as (st1 & replies & -> & Hc1 & Hall & Herrs)
    end.
    { destruct Hst as [?|[??]]; [by left|by right]. }
    mnorm.
    destruct (each_match_harmless replies [] false st1 Hall)
      as (st' & signals & -> & Hc2 & arg & ->).
    exists st', arg. split; [done|]. rewrite Hc2, Hc1, Herrs. calls_done.
Qed.

Lemma callbacks_drained (c : client) (ps : list Packet.t) :
  callbacks (drained c ps) = (λ p, (None, Some (Packet.to_value p))) <$> ps.
Proof.
  unfold drained. rewrite callbacks_app. cbn [callbacks omap list_omap].
  rewrite app_nil_r. induction ps as [|p ps IH]; [done|].
  cbn [flat_map]. rewrite fmap_cons, <- IH. done.
Qed.

(** C7 (as amended): [storeSubscriptions] (on well-formed patterns),
    [storeRetained], [storeOfflinePacket] and [close] invoke their callback
    exactly once whatever the store does, and the error they pass is the
    first one the store reports for their commands (none when every
    command goes through); [lookupSubscriptions] and [lookupRetained] do
    so when the read whose reply they parse goes through and the store
    holds what this module writes; [streamOfflinePackets] has no
    completion signal: its callback is invoked once per queued packet, in
    order, and not at all for a clean session. *)
Theorem completion_signals (st : state) :
  (∀ c, clean c = true → completes_with (storeSubscriptions c) st None)
  ∧ (∀ c, clean c = false →
          valid_patterns (persisted (subscriptions c)).*1 →
          completes_with (storeSubscriptions c) st
            (first_error
               (reports (faults st) (db st)
                  [SET (subs +:+ id c)
                     (Json (subscriptions_value (persisted (subscriptions c))))
                     (options_ttl_subscriptions st);
                   PUBLISH (options_channel st) (notice_of st c)])))
  ∧ (∀ p, completes_with (storeRetained p) st
            (reported (next_fault st) (db st)
               (HSET retained (Packet.topic p) (packet_text p))))
  ∧ (∀ p, completes_with (storeOfflinePacket p) st
            (first_error
               (reports (faults st) (db st)
                  (push_command p
                     <$> Matcher.match_ (_subMatcher st) (Packet.topic p)))))
  ∧ completes_with close st None
  ∧ (∀ c, readable_record st c →
          completes_with (lookupSubscriptions c) st
            (first_error
               (reports (tail (faults st)) (db st)
                  (if clean c
                   then [DEL (subs +:+ id c); DEL (packets +:+ id c)]
                   else [DEL (subs +:+ id c)]))))
  ∧ (∀ pattern hp,
       retained_store st hp →
       JsString.contains "#" pattern = false →
       JsString.contains "+" pattern = false →
       completes_with (lookupRetained pattern) st
         (reported (next_fault st) (db st) (HGET retained pattern)))
  ∧ (∀ pattern hp,
       retained_store st hp →
       JsString.contains "#" pattern || JsString.contains "+" pattern = true →
       Matcher.valid pattern = true →
       next_fault st = false →
       completes_with (lookupRetained pattern) st
         (first_error
            (reports (tail (faults st)) (db st)
               ((λ topic, HGET retained topic) <$> fetched pattern hp))))
  ∧ (∀ c ps fuel,
       clean c = false →
       faults st = [] →
       (length ps < fuel)%nat →
       backlog (db st) (packets +:+ id c) = Some (rev (packet_text <$> ps)) →
       ∃ st', streamOfflinePackets fuel c st = (st', Return ())
            ∧ callbacks (trace st')
              = callbacks (trace st) ++ ((λ p, (None, Some (Packet.to_value p))) <$> ps))
  ∧ (∀ c record fuel,
       clean c = true →
       faults st = [] →
       persisted_record st c record →
       ∃ st', streamOfflinePackets (S fuel) c st = (st', Return ())
            ∧ callbacks (trace st') = callbacks (trace st)).
Proof.
  split; [intros c; apply storeSubscriptions_completes|].
  split; [intros c; apply storeSubscriptions_completes|].
  split; [intros p; apply storeRetained_completes|].
  split; [intros p; apply storeOfflinePacket_completes|].
  split; [apply close_completes|].
  split; [intros c; apply lookupSubscriptions_completes|].
  split; [intros pattern hp Hst; apply (lookupRetained_completes pattern st hp Hst)|].
  split; [intros pattern hp Hst; apply (lookupRetained_completes pattern st hp Hst)|].
  split.
  - intros c ps fuel Hc Hf Hfuel Hl.
    destruct (streamOfflinePackets_run c ps Hc fuel st Hfuel Hf Hl)
      as (st' & Hrun & Htr & _).
    exists st'. split; [done|].
    by rewrite Htr, callbacks_app, callbacks_drained.
  - intros c record fuel Hc Hf Hrec. cbn [streamOfflinePackets].
    rewrite bind_run, (cleanClient_run c false st record) by done. mrun.
    eexists. split; [reflexivity|]. unfold cleaned. calls_done.
Qed.

Lemma completion_signals_witness :
  let c := {| id := "c1"; clean := false; subscriptions := [("hello/#", {| qos := 1 |})] |} in
  let p := {| Packet.topic := "hello/42"; Packet.payload := ["x"]%byte;
              Packet.qos := 1; Packet.messageId := Some 1; Packet.retain := None |} in
  let st := upd (node "node-a" [("hello/#", Some "c1"); ("hello/+", Some "c2")] ∅)
              [("hello/#", Some "c1"); ("hello/+", Some "c2")] ∅ [false; true] [] in
  completes_with (storeSubscriptions c) st (Some StoreUnavailable)
  ∧ completes_with (storeOfflinePacket p) st (Some StoreUnavailable)
  ∧ completes_with (lookupSubscriptions c) st (Some StoreUnavailable)
  ∧ completes_with (lookupRetained "hello/42") st None
  ∧ completes_with (lookupRetained "hello/+") st None.
Proof.
  intros c p st.
  destruct (completion_signals st)
    as (_ & Hstore & _ & Hpush & _ & Hlookup & Hexact & Hwild & _).
  split; [|split; [|split; [|split]]].
  - refine (Hstore c eq_refl _). by_evaluation.
  - exact (Hpush p).
  - refine (Hlookup c _). split; [reflexivity|]. left. reflexivity.
  - refine (Hexact "hello/42" ∅ _ eq_refl eq_refl). right. split; reflexivity.
  - refine (Hwild "hello/+" ∅ _ eq_refl eq_refl eq_refl). right. split; reflexivity.
Defined.

(** C7 (as stated) fails for [streamOfflinePackets]: on an empty backlog
    the pop returns nothing, the callback is not invoked and nothing else
    tells the caller that the stream has ended. *)
Lemma stream_gives_no_completion_signal :
  let c := {| id := "c1"; clean := false; subscriptions := [] |} in
  let st := node "node-a" [] ∅ in
  streamOfflinePackets 1 c st
  = (upd st [] ∅ [] [Command (RPOP (packets +:+ "c1"))], Return ())
  ∧ callbacks (trace (streamOfflinePackets 1 c st).1) = [].
Proof. split; vm_compute; reflexivity. Qed.

(** ** The scenario of the test "should support restoring"

    A subscription is stored through one node; a second node, started on the
    same store, replays the record with [newSub], queues a packet for the
    client and hands it back when the client streams its backlog. *)
Example restoring_across_nodes :
  let c := {| id := "my client id - 42"; clean := false;
              subscriptions := [("hello/#", {| qos := 1 |})] |} in
  let p := {| Packet.topic := "hello/42"; Packet.payload := ["w"; "o"; "r"; "l"; "d"]%byte;
              Packet.qos := 0; Packet.messageId := Some 42; Packet.retain := None |} in
  let first := (storeSubscriptions c (node "node-a" [] ∅)).1 in
  let second := node "node-b" [] (db first) in
  let run := newSub (subs +:+ id c) true false;;
             storeOfflinePacket p;;
             streamOfflinePackets 2 c in
  (run second).2 = Return ()
  ∧ callbacks (trace (run second).1)
    = [(None, None); (None, None); (None, Some (Packet.to_value p))].
Proof. split; vm_compute; reflexivity. Qed.

(** * Further properties of the code *)

(** ** Retained messages: storing and reading back *)

Lemma storeRetained_run (p : Packet.t) st hp :
  faults st = [] →
  retained_store st hp →
  storeRetained p st
  = (upd st (_subMatcher st)
       (<[retained := EHash (packet_text <$> <[Packet.topic p := p]> hp)]> (db st))
       []
       (trace st ++ [Command (HSET retained (Packet.topic p) (packet_text p));
                     Callback None (Some (hset_reply hp (Packet.topic p)))]),
     Return ()).
Proof.
  intros Hf Hst. unfold storeRetained, hset_reply. mrun. unfold next_fault. rewrite Hf.
  cbn [head default tail]. fold (packet_text p).
  destruct Hst as [Hdb|[Hdb ->]]; rewrite Hdb; mrun.
  - rewrite fmap_insert, lookup_fmap.
    destruct (hp !! Packet.topic p); cbn [fmap option_fmap option_map];
      mrun; rewrite ?Hf; mdone.
  - rewrite insert_empty, map_fmap_singleton, lookup_empty.
    mrun. rewrite ?Hf. mdone.
Qed.

Lemma lookupRetained_exact (pattern : string) st hp :
  JsString.contains "#" pattern = false →
  JsString.contains "+" pattern = false →
  faults st = [] →
  retained_store st hp →
  lookupRetained pattern st
  = (upd st (_subMatcher st) (db st) []
       (trace st ++ [Command (HGET retained pattern);
                     Callback None
                       (Some (VArr (option_list (Packet.to_value <$> hp !! pattern))))]),
     Return ()).
Proof.
  intros H1 H2 Hf Hst. unfold lookupRetained. rewrite H1, H2. cbn [orb].
  rewrite bind_run, (hget_retained st hp) by done. mnorm.
  unfold retained_reply, match_reply.
  destruct (hp !! pattern) as [p|];
    cbn [Reply.truthy fmap option_fmap option_map option_list].
  - mrun. cbn [packet_text JSON_stringify Reply.JSON_parse]. mrun.
    rewrite restore_packet. mrun. rewrite Hf. mdone.
  - mrun. rewrite Hf. mdone.
Qed.

Lemma lookupRetained_wild (pattern : string) st hp :
  JsString.contains "#" pattern || JsString.contains "+" pattern = true →
  Matcher.valid pattern = true →
  faults st = [] →
  retained_store st hp →
  lookupRetained pattern st
  = (upd st (_subMatcher st) (db st) []
       (trace st ++ Command (HKEYS retained)
          :: ((λ topic, Command (HGET retained topic)) <$> fetched pattern hp)
          ++ [Callback None
                (Some (VArr (omap (λ t, Packet.to_value <$> hp !! t)
                               (fetched pattern hp))))]),
     Return ()).
Proof.
  intros Hw Hv Hf Hst. unfold lookupRetained. rewrite Hw.
  unfold Matcher.add, Matcher.empty. rewrite Hv.
  rewrite bool_decide_false by (intros Hin; by apply elem_of_nil in Hin).
  cbn [app]. mrun. unfold next_fault. rewrite Hf. cbn [head default].
  assert (match db st !! retained with
          | Some (EHash h) => (None, Some (map_to_list h).*1)
          | None => (None, Some [])
          | Some _ => (Some WrongType, None)
          end = (None : option store_error,
                 Some (map_to_list (packet_text <$> hp)).*1)) as ->.
  { destruct Hst as [->|[-> ->]]; [done|].
    by rewrite fmap_empty, map_to_list_empty. }
  mnorm. fold (fetched pattern hp).
  rewrite bind_run, (collect_hget _ _ hp);
    [|cbn [faults sent upd]; by rewrite Hf
     |destruct Hst as [?|[??]]; [by left|by right]].
  mnorm. rewrite each_match_packets. mdone.
Qed.

Lemma callbacks_command (c : command) tr :
  callbacks (Command c :: tr) = callbacks tr.
Proof. reflexivity. Qed.

Lemma callbacks_hgets (topics : list string) :
  callbacks ((λ topic, Command (HGET retained topic)) <$> topics) = [].
Proof. induction topics as [|t l IH]; [done|]. by rewrite fmap_cons. Qed.

(** X1: a retained packet stored on a topic without wildcard characters is
    what a lookup of that topic calls back with, alone, whatever was
    retained on the topic before.  The callback of the store gets the reply
    of the HSET: 1 when the topic is new, 0 when it held a packet. *)
Theorem retained_round_trip (p : Packet.t) (st : state) (hp : gmap string Packet.t) :
  faults st = [] →
  retained_store st hp →
  JsString.contains "#" (Packet.topic p) = false →
  JsString.contains "+" (Packet.topic p) = false →
  ∃ st', (storeRetained p;; lookupRetained (Packet.topic p)) st = (st', Return ())
       ∧ callbacks (trace st')
         = callbacks (trace st)
           ++ [(None, Some (hset_reply hp (Packet.topic p)));
               (None, Some (VArr [Packet.to_value p]))].
Proof.
  intros Hf Hst H1 H2.
  rewrite bind_run, (storeRetained_run p st hp) by done. mnorm.
  erewrite (lookupRetained_exact _ _ (<[Packet.topic p := p]> hp)); try done.
  - eexists. split; [reflexivity|].
    cbn [trace upd]. rewrite lookup_insert_eq, !callbacks_app. cbn.
    by rewrite <- app_assoc.
  - left. cbn [db upd]. apply lookup_insert_eq.
Qed.

Lemma retained_round_trip_witness :
  let old := {| Packet.topic := "hello/42"; Packet.payload := ["o"; "l"; "d"]%byte;
                Packet.qos := 1; Packet.messageId := Some 7; Packet.retain := Some true |} in
  let p := {| Packet.topic := "hello/42"; Packet.payload := ["n"; "e"; "w"]%byte;
              Packet.qos := 0; Packet.messageId := None; Packet.retain := Some true |} in
  let hp : gmap string Packet.t := {[ "hello/42" := old ]} in
  let st := node "node-a" [] {[ retained := EHash (packet_text <$> hp) ]} in
  ∃ st', (storeRetained p;; lookupRetained "hello/42") st = (st', Return ())
       ∧ callbacks (trace st')
         = [(None, Some (VNum 0)); (None, Some (VArr [Packet.to_value p]))].
Proof.
  intros old p hp st.
  apply (retained_round_trip p st hp).
  - reflexivity.
  - left. apply lookup_singleton_eq.
  - reflexivity.
  - reflexivity.
Defined.

(** X2: after a retained packet is stored (its callback gets the reply of
    the HSET), a lookup with a well-formed wildcard pattern that matches its
    topic calls back, without error, with a list that contains the packet. *)
Theorem retained_wildcard_finds (p : Packet.t) (pattern : string) (st : state)
    (hp : gmap string Packet.t) :
  faults st = [] →
  retained_store st hp →
  JsString.contains "#" pattern || JsString.contains "+" pattern = true →
  Matcher.valid pattern = true →
  Matcher.matches pattern (Packet.topic p) = true →
  ∃ st' found,
    (storeRetained p;; lookupRetained pattern) st = (st', Return ())
    ∧ callbacks (trace st')
      = callbacks (trace st)
        ++ [(None, Some (hset_reply hp (Packet.topic p))); (None, Some (VArr found))]
    ∧ Packet.to_value p ∈ found.
Proof.
  intros Hf Hst Hw Hv Hm.
  rewrite bind_run, (storeRetained_run p st hp) by done. mnorm.
  erewrite (lookupRetained_wild _ _ (<[Packet.topic p := p]> hp)); try done.
  - eexists _, _. split; [reflexivity|]. split.
    + cbn [trace upd].
      repeat (rewrite callbacks_app || rewrite callbacks_command).
      rewrite callbacks_hgets. by rewrite <- app_assoc.
    + apply list_elem_of_omap. exists (Packet.topic p). split.
      * apply elem_of_fetched. by rewrite lookup_insert_eq.
      * by rewrite lookup_insert_eq.
  - left. cbn [db upd]. apply lookup_insert_eq.
Qed.

Lemma retained_wildcard_finds_witness :
  let p := {| Packet.topic := "hello/42"; Packet.payload := ["w"; "o"; "r"; "l"; "d"]%byte;
              Packet.qos := 0; Packet.messageId := Some 42; Packet.retain := Some true |} in
  ∃ st' found,
    (storeRetained p;; lookupRetained "hello/+") (node "node-a" [] ∅) = (st', Return ())
    ∧ callbacks (trace st') = [(None, Some (VNum 1)); (None, Some (VArr found))]
    ∧ Packet.to_value p ∈ found.
Proof.
  intros p.
  refine (retained_wildcard_finds p "hello/+" (node "node-a" [] ∅) ∅ _ _ _ _ _).
  - reflexivity.
  - right. split; reflexivity.
  - reflexivity.
  - reflexivity.
  - reflexivity.
Defined.

(** ** The offline queue: what is sent, what is left alone *)

Lemma collect_store_trace (p : Packet.t) ms st :
  ∃ st' errs,
    collect ms (λ client, _storePacket client p) st = (st', Return errs)
    ∧ trace st' = trace st ++ (push_for p <$> ms)
    ∧ _subMatcher st' = _subMatcher st.
Proof.
  revert st. induction ms as [|x ms IH]; intros st.
  - exists st, []. by rewrite app_nil_r.
  - cbn [collect].
    rewrite bind_run, storePacket_lpush, lpush_run. mnorm. rewrite bind_run.
    lazymatch goal with
    | |- context [collect ms _ ?s] =>
        destruct (IH s) as (st' & errs & -> & Htr & Hm)
    end.
    mrun. eexists _, _. split; [reflexivity|]. split; [|done].
    rewrite Htr. cbn [trace sent upd]. by rewrite <- app_assoc.
Qed.

(** X3: [storeOfflinePacket] sends one LPUSH per subscriber the matcher
    returns for the topic, to that subscriber's backlog and in that order,
    then calls back once; it sends nothing else and leaves the matcher as it
    is.  When the matcher returns no subscriber, nothing is sent at all and
    the callback gets no error. *)
Theorem storeOfflinePacket_pushes_to_matches (p : Packet.t) (st : state) :
  (∃ st' err,
      storeOfflinePacket p st = (st', Return ())
      ∧ trace st'
        = trace st
          ++ (push_for p <$> Matcher.match_ (_subMatcher st) (Packet.topic p))
          ++ [Callback err None]
      ∧ _subMatcher st' = _subMatcher st)
  ∧ (Matcher.match_ (_subMatcher st) (Packet.topic p) = [] →
     storeOfflinePacket p st
     = (upd st (_subMatcher st) (db st) (faults st)
          (trace st ++ [Callback None None]),
        Return ())).
Proof.
  split.
  - unfold storeOfflinePacket. mrun.
    destruct (collect_store_trace p
                (Matcher.match_ (_subMatcher st) (Packet.topic p)) st)
      as (st' & errs & -> & Htr & Hm).
    mrun. eexists _, _. split; [reflexivity|]. split; [|done].
    cbn [trace upd]. by rewrite Htr, <- app_assoc.
  - intros Hnone. unfold storeOfflinePacket. mrun. rewrite Hnone.
    cbn [collect]. by mrun.
Qed.

Lemma storeOfflinePacket_pushes_to_matches_witness :
  let p := {| Packet.topic := "news/today"; Packet.payload := ["x"]%byte;
              Packet.qos := 1; Packet.messageId := Some 1; Packet.retain := None |} in
  let st := node "node-a" [("hello/#", Some "c1")] ∅ in
  storeOfflinePacket p st = (upd st (_subMatcher st) ∅ [] [Callback None None], Return ()).
Proof.
  intros p st.
  apply (proj2 (storeOfflinePacket_pushes_to_matches p st)).
  reflexivity.
Defined.




(** ** Draining a backlog *)

(** X5: a backlog is handed over once: after [streamOfflinePackets] has
    delivered the queued packets, a second call for the same client pops
    nothing and calls nothing. *)
Theorem stream_delivers_once (c : client) (ps : list Packet.t) (st : state)
    (fuel again : nat) :
  clean c = false →
  faults st = [] →
  backlog (db st) (packets +:+ id c) = Some (rev (packet_text <$> ps)) →
  (length ps < fuel)%nat →
  (0 < again)%nat →
  ∃ st1 st2,
    streamOfflinePackets fuel c st = (st1, Return ())
    ∧ callbacks (trace st1)
      = callbacks (trace st) ++ ((λ p, (None, Some (Packet.to_value p))) <$> ps)
    ∧ streamOfflinePackets again c st1 = (st2, Return ())
    ∧ trace st2 = trace st1 ++ [Command (RPOP (packets +:+ id c))].
Proof.
  intros Hc Hf Hl Hfuel Hagain.
  destruct (streamOfflinePackets_run c ps Hc fuel st Hfuel Hf Hl)
    as (st1 & Hrun1 & Htr1 & _ & Hf1 & Hl1).
  destruct (streamOfflinePackets_run c [] Hc again st1 Hagain Hf1 Hl1)
    as (st2 & Hrun2 & Htr2 & _).
  exists st1, st2. split; [done|]. split; [|by split].
  by rewrite Htr1, callbacks_app, callbacks_drained.
Qed.

Lemma stream_delivers_once_witness :
  let c := {| id := "c1"; clean := false; subscriptions := [] |} in
  let p := {| Packet.topic := "hello/42"; Packet.payload := ["x"]%byte;
              Packet.qos := 1; Packet.messageId := Some 1; Packet.retain := None |} in
  let st := node "node-a" [] {[ packets +:+ "c1" := EList [packet_text p] ]} in
  ∃ st1 st2,
    streamOfflinePackets 2 c st = (st1, Return ())
    ∧ callbacks (trace st1) = [(None, Some (Packet.to_value p))]
    ∧ streamOfflinePackets 1 c st1 = (st2, Return ())
    ∧ trace st2 = trace st1 ++ [Command (RPOP (packets +:+ "c1"))].
Proof.
  intros c p st.
  apply (stream_delivers_once c [p] st 2 1).
  - reflexivity.
  - reflexivity.
  - vm_compute. reflexivity.
  - cbn. lia.
  - lia.
Defined.

Ltac quiet :=
  repeat first [ apply Forall_nil_2 | apply Forall_cons_2; [exact I|] ].

Lemma prop_set_prop_eq {V} (k : string) (v : V) (l : list (string * V)) :
  Js.prop k (Js.set_prop k v l) = Some v.
Proof.
  induction l as [|[k' v'] l IH]; cbn [Js.set_prop Js.prop].
  - by rewrite decide_True.
  - destruct (decide (k' = k)) as [->|Hne]; cbn [Js.prop].
    + by rewrite decide_True.
    + by rewrite decide_False.
Qed.

(** What [x.payload = new Buffer(x.payload)] leaves, when it does not
    throw, is an object whose payload is a buffer. *)
Lemma restore_payload_buffer (v v' : value) :
  restore_payload v = inr v' →
  ∃ props bytes, v' = VObj props ∧ Js.prop "payload" props = Some (VBuf bytes).
Proof.
  destruct v as [| | | | | | |props]; try done. cbn [restore_payload].
  destruct (Js.new_Buffer (Js.prop "payload" props)) as [e|bytes]; [done|].
  intros [= <-]. eexists _, bytes. split; [done|]. apply prop_set_prop_eq.
Qed.

Lemma cleanClient_quiet (c : client) st :
  ∃ rest, trace (_cleanClient c false st).1 = trace st ++ rest
          ∧ Forall command_or_packet rest.
Proof.
  unfold _cleanClient. destruct (clean c); [|exists []; by rewrite app_nil_r].
  mrun. destruct (if next_fault st then _ else _) as [err reply].
  destruct (Reply.JSON_parse reply) as [e|v]; mrun.
  { eexists. split; [done|]. quiet. }
  destruct (Js.keys (or_empty v)) as [e|names]; mrun.
  { eexists. split; [done|]. quiet. }
  eexists. split; [by rewrite <- !app_assoc|]. quiet.
Qed.

Lemma stream_quiet (fuel : nat) (c : client) st :
  ∃ rest, trace (streamOfflinePackets fuel c st).1 = trace st ++ rest
          ∧ Forall command_or_packet rest.
Proof.
  revert st. induction fuel as [|fuel IH]; intros st.
  - exists []. by rewrite app_nil_r.
  - cbn [streamOfflinePackets]. rewrite bind_run.
    destruct (cleanClient_quiet c st) as (rest0 & Htr0 & Hq0).
    destruct (_cleanClient c false st) as [st0 [cleaned|e|]] eqn:Hclean;
      cbn [fst] in Htr0; mnorm; [|cbn [fst]; exists rest0; split; assumption..].
    destruct cleaned; [rewrite mret_run; cbn [fst]; exists rest0; split; assumption|].
    assert (st0 = st) as ->.
    { unfold _cleanClient in Hclean.
      destruct (clean c); [|rewrite mret_run in Hclean; by simplify_eq].
      revert Hclean. mrun. destruct (if next_fault st then _ else _) as [err reply].
      destruct (Reply.JSON_parse reply) as [e|v]; mrun; [done|].
      destruct (Js.keys (or_empty v)); mrun; done. }
    clear Hclean Htr0 Hq0 rest0. mrun.
    destruct (if next_fault st then _ else _) as [err result].
    destruct (Reply.truthy result); mrun.
    2:{ eexists. split; [done|]. quiet. }
    destruct (Reply.JSON_parse result) as [e|v]; mrun.
    { eexists. split; [done|]. quiet. }
    destruct (restore_payload v) as [e|v'] eqn:Hrestore; mrun.
    { eexists. split; [done|]. quiet. }
    lazymatch goal with
    | |- context [streamOfflinePackets fuel c ?s] =>
        destruct (IH s) as (rest & Htr & Hq)
    end.
    rewrite Htr. cbn [trace upd sent]. eexists. split; [by rewrite <- !app_assoc|].
    apply Forall_cons; split; [exact I|]. apply Forall_cons; split; [|done].
    split; [done|].
    destruct (restore_payload_buffer v v' Hrestore) as (props & bytes & -> & Hp).
    by exists props, bytes.
Qed.

(** X6: [streamOfflinePackets] never passes an error to its callback and
    sets no timer: whatever the store holds and answers, and however far
    the recursion goes, all it adds to the trace is commands and calls of
    its callback that carry no error and an object whose payload is a
    buffer.  In particular a pop that fails ends the stream with no call at
    all and leaves the store as it was. *)
Theorem stream_swallows_errors (fuel : nat) (c : client) (st : state) :
  (∃ rest, trace (streamOfflinePackets fuel c st).1 = trace st ++ rest
           ∧ Forall command_or_packet rest)
  ∧ (clean c = false → next_fault st = true →
     streamOfflinePackets (S fuel) c st
     = (sent st (RPOP (packets +:+ id c)) (db st), Return ())).
Proof.
  split; [apply stream_quiet|].
  intros Hc Hf. cbn [streamOfflinePackets]. unfold _cleanClient.
  rewrite Hc. mrun. rewrite Hf. by mrun.
Qed.

Lemma stream_swallows_errors_witness :
  let c := {| id := "c1"; clean := false; subscriptions := [] |} in
  let st := upd (node "node-a" [] {[ packets +:+ "c1" := EList [Garbage "queued"] ]})
              [] {[ packets +:+ "c1" := EList [Garbage "queued"] ]} [true] [] in
  streamOfflinePackets 1 c st
  = (upd st [] (db st) [] [Command (RPOP (packets +:+ "c1"))], Return ()).
Proof.
  intros c st.
  rewrite (proj2 (stream_swallows_errors 0 c st)); reflexivity.
Defined.

(** ** Subscriptions: handing over, storing again, what is left alone *)

(** X7: a stored record is handed over once: the first
    [lookupSubscriptions] calls back with the record and deletes it, a
    second one calls back with an empty object. *)
Theorem lookup_hands_over_once (c : client) (st : state)
    (record : list (string * value)) (px : option Z) :
  clean c = false →
  faults st = [] →
  db st !! (subs +:+ id c) = Some (EString (Json (VObj record)) px) →
  ∃ st1 st2,
    lookupSubscriptions c st = (st1, Return ())
    ∧ lookupSubscriptions c st1 = (st2, Return ())
    ∧ callbacks (trace st2)
      = callbacks (trace st) ++ [(None, Some (VObj record)); (None, Some (VObj []))]
    ∧ db st2 !! (subs +:+ id c) = None.
Proof.
  intros Hc Hf Hdb.
  rewrite (lookupSubscriptions_run c st record px Hc); [|by unfold next_fault; rewrite Hf|done].
  rewrite Hf. cbn [head tail default].
  eexists _, _. split; [reflexivity|].
  rewrite (lookupSubscriptions_missing c _ Hc);
    [|reflexivity|cbn [db upd]; apply lookup_delete_eq].
  cbn [faults upd head tail default].
  split; [reflexivity|]. split.
  - cbn [trace upd]. rewrite !callbacks_app. cbn. by rewrite <- app_assoc.
  - cbn [db upd]. apply lookup_delete_eq.
Qed.

Lemma lookup_hands_over_once_witness :
  let c := {| id := "c1"; clean := false; subscriptions := [] |} in
  let record := [("hello/#", VObj [("qos", VNum 1)])] in
  let st := node "node-a" [("hello/#", Some "c1")]
              {[ subs +:+ "c1" := EString (Json (VObj record)) (Some 3600000) ]} in
  ∃ st1 st2,
    lookupSubscriptions c st = (st1, Return ())
    ∧ lookupSubscriptions c st1 = (st2, Return ())
    ∧ callbacks (trace st2)
      = [(None, Some (VObj record)); (None, Some (VObj []))]
    ∧ db st2 !! (subs +:+ "c1") = None.
Proof.
  intros c record st.
  apply (lookup_hands_over_once c st record (Some 3600000)).
  - reflexivity.
  - reflexivity.
  - vm_compute. reflexivity.
Defined.

(** When the matcher already returns the client for every pattern, the loop
    of [storeSubscriptions] changes nothing. *)
Lemma for_each_cover_covered names (i : option string) st :
  (∀ e, e ∈ names → i ∈ Matcher.match_ (_subMatcher st) e) →
  for_each names (λ e,
    st ← get_state;
    if bool_decide (i ∈ Matcher.match_ (_subMatcher st) e) then mret ()
    else subMatcher_add e i) st
  = (st, Return ()).
Proof.
  induction names as [|n names IH]; intros Hcov; [done|].
  cbn [for_each]. rewrite bind_run, bind_run, get_state_run. mnorm.
  rewrite bool_decide_true by (apply Hcov; by left).
  rewrite mret_run. mnorm. apply IH. intros e He. apply Hcov. by right.
Qed.

(** X8: storing the same session twice is storing it once: the second
    [storeSubscriptions] adds nothing to the matcher and writes the same
    record under the same key. *)
Theorem store_twice_is_once (c : client) (st : state) :
  clean c = false →
  faults st = [] →
  valid_patterns (persisted (subscriptions c)).*1 →
  ∃ st1 st2,
    storeSubscriptions c st = (st1, Return ())
    ∧ storeSubscriptions c st1 = (st2, Return ())
    ∧ _subMatcher st2 = _subMatcher st1
    ∧ db st2 = db st1.
Proof.
  intros Hc Hf Hv.
  destruct (storeSubscriptions_run c st Hc Hv) as (m1 & Hrun1 & _ & Hcover & _).
  unfold next_fault in Hrun1. rewrite Hf in Hrun1. cbn [head tail default] in Hrun1.
  eexists _, _. split; [exact Hrun1|].
  unfold storeSubscriptions. rewrite Hc.
  rewrite bind_run.
  rewrite (for_each_cover_covered _ (Some (id c))); [|exact Hcover].
  mrun. unfold JSON_stringify. rewrite jsonify_subscriptions. split; [reflexivity|]. split; [reflexivity|].
  cbn [db upd sent]. by rewrite insert_insert_eq.
Qed.

Lemma store_twice_is_once_witness :
  let c := {| id := "c1"; clean := false;
              subscriptions := [("hello/#", {| qos := 1 |}); ("news", {| qos := 2 |})] |} in
  ∃ st1 st2,
    storeSubscriptions c (node "node-a" [] ∅) = (st1, Return ())
    ∧ storeSubscriptions c st1 = (st2, Return ())
    ∧ _subMatcher st2 = _subMatcher st1
    ∧ db st2 = db st1.
Proof.
  intros c.
  apply (store_twice_is_once c (node "node-a" [] ∅)).
  - reflexivity.
  - reflexivity.
  - by_evaluation.
Defined.

Lemma subs_not_packets (a b : string) : subs +:+ a ≠ packets +:+ b.
Proof. unfold subs, packets. cbn. by intros [=]. Qed.

Lemma subs_not_retained (a : string) : subs +:+ a ≠ retained.
Proof. unfold subs, retained. cbn. by intros [=]. Qed.

Lemma packets_not_retained (b : string) : packets +:+ b ≠ retained.
Proof. unfold packets, retained. cbn. by intros [=]. Qed.

Lemma for_each_cover_frame names (i : option string) st :
  let st' := (for_each names (λ e,
                st ← get_state;
                if bool_decide (i ∈ Matcher.match_ (_subMatcher st) e) then mret ()
                else subMatcher_add e i) st).1 in
  trace st' = trace st ∧ db st' = db st ∧ faults st' = faults st.
Proof.
  revert st. induction names as [|n names IH]; intros st; [done|].
  cbn [for_each]. rewrite bind_run, bind_run, get_state_run. mnorm.
  case_bool_decide.
  - rewrite mret_run. mnorm. apply IH.
  - rewrite subMatcher_add_run.
    destruct (Matcher.add (_subMatcher st) n i) as [e|m]; [done|].
    apply (IH (upd st m (db st) (faults st) (trace st))).
Qed.

Lemma storeSubscriptions_frame (c : client) st (k : string) :
  k ≠ subs +:+ id c →
  db (storeSubscriptions c st).1 !! k = db st !! k.
Proof.
  intros Hk. unfold storeSubscriptions. destruct (clean c); [done|].
  rewrite bind_run.
  pose proof (for_each_cover_frame (persisted (subscriptions c)).*1 (Some (id c)) st)
    as (_ & Hdb & _).
  destruct (for_each _ _ st) as [st0 [[]|e|]]; cbn [fst] in Hdb; mrun;
    cbn [fst db upd sent]; rewrite ?Hdb; [|done..].
  destruct (next_fault st0); [done|]. by rewrite lookup_insert_ne.
Qed.

Lemma lookupSubscriptions_frame (c : client) st (k : string) :
  k ≠ subs +:+ id c →
  (clean c = true → k ≠ packets +:+ id c) →
  db (lookupSubscriptions c st).1 !! k = db st !! k.
Proof.
  intros Hk Hp.
  assert (subs +:+ id c ≠ k) as Hk' by done.
  unfold lookupSubscriptions, _cleanClient.
  destruct (clean c); mrun;
    destruct (if next_fault st then _ else _) as [err reply];
    (destruct (Reply.JSON_parse reply) as [e|v]; mrun; [done|]);
    (destruct (Js.keys (or_empty v)) as [e|names]; mrun; [done|]).
  - assert (packets +:+ id c ≠ k) as Hp' by (intros <-; by apply Hp).
    cbn [fst db upd sent].
    repeat lazymatch goal with
           | |- context [if ?b then _ else _] => destruct b
           end; by rewrite ?lookup_delete_ne by done.
  - destruct err as [e|]; mrun; cbn [fst db upd sent]; [done|].
    repeat lazymatch goal with
           | |- context [if ?b then _ else _] => destruct b
           end; by rewrite ?lookup_delete_ne by done.
Qed.

(** X9: the subscription operations keep to their key: neither
    [storeSubscriptions] nor [lookupSubscriptions] changes the retained
    hash or the backlog of any client, whatever the store holds and answers,
    except that the lookup of a clean session deletes that session's own
    backlog. *)
Theorem subscription_operations_keep_to_their_key (c : client) (st : state)
    (cid : string) :
  db (storeSubscriptions c st).1 !! retained = db st !! retained
  ∧ db (storeSubscriptions c st).1 !! (packets +:+ cid) = db st !! (packets +:+ cid)
  ∧ db (lookupSubscriptions c st).1 !! retained = db st !! retained
  ∧ (clean c = false ∨ cid ≠ id c →
     db (lookupSubscriptions c st).1 !! (packets +:+ cid)
     = db st !! (packets +:+ cid)).
Proof.
  split; [|split; [|split]].
  - apply storeSubscriptions_frame. intros H. by apply (subs_not_retained (id c)).
  - apply storeSubscriptions_frame. intros H. by apply (subs_not_packets (id c) cid).
  - apply lookupSubscriptions_frame.
    + intros H. by apply (subs_not_retained (id c)).
    + intros _ H. by apply (packets_not_retained (id c)).
  - intros Hor. apply lookupSubscriptions_frame.
    + intros H. by apply (subs_not_packets (id c) cid).
    + intros Hclean H%append_inj_r. destruct Hor; congruence.
Qed.

Lemma subscription_operations_keep_to_their_key_witness :
  let c := {| id := "c1"; clean := true; subscriptions := [] |} in
  let st := node "node-a" [] {[ packets +:+ "c2" := EList [Garbage "queued"] ]} in
  db (lookupSubscriptions c st).1 !! (packets +:+ "c2")
  = Some (EList [Garbage "queued"]).
Proof.
  intros c st.
  destruct (subscription_operations_keep_to_their_key c st "c2") as (_ & _ & _ & Hkeep).
  rewrite Hkeep.
  - vm_compute. reflexivity.
  - right. by_evaluation.
Defined.

(** X20: what [storeSubscriptions] hands to its callback.  For a session
    that is not clean, with well-formed patterns, the callback gets the
    array of the replies of SET and PUBLISH: "OK" and the number of
    connections the notice was delivered to when both go through; when one
    fails, its error and the replies up to it, the one of the command that
    failed being undefined. *)
Theorem storeSubscriptions_results (c : client) (st : state) :
  clean c = false →
  valid_patterns (persisted (subscriptions c)).*1 →
  ∃ st', storeSubscriptions c st = (st', Return ())
       ∧ callbacks (trace st')
         = callbacks (trace st)
           ++ [if next_fault st
               then (Some StoreUnavailable, Some (VArr [VUndefined]))
               else if default false (head (tail (faults st)))
               then (Some StoreUnavailable, Some (VArr [VStr "OK"; VUndefined]))
               else (None,
                     Some (VArr [VStr "OK";
                                 VNum (listeners st (options_channel st))]))].
Proof.
  intros Hc Hv.
  destruct (storeSubscriptions_run c st Hc Hv) as (m' & -> & _).
  eexists. split; [reflexivity|].
  unfold next_fault, set_reply, publish_reply.
  destruct (default false (head (faults st)));
    destruct (default false (head (tail (faults st)))); calls_done.
Qed.

Lemma storeSubscriptions_results_witness :
  let c := {| id := "c1"; clean := false;
              subscriptions := [("hello/#", {| qos := 1 |})] |} in
  let st := node "node-a" [] ∅ in
  let st2 := upd st [] ∅ [false; true] [] in
  (∃ st', storeSubscriptions c st = (st', Return ())
        ∧ callbacks (trace st') = [(None, Some (VArr [VStr "OK"; VNum 1]))])
  ∧ (∃ st', storeSubscriptions c st2 = (st', Return ())
          ∧ callbacks (trace st')
            = [(Some StoreUnavailable, Some (VArr [VStr "OK"; VUndefined]))]).
Proof.
  intros c st st2. split.
  - refine (storeSubscriptions_results c st eq_refl _). by_evaluation.
  - refine (storeSubscriptions_results c st2 eq_refl _). by_evaluation.
Defined.

(** ** Two nodes on one store *)

Lemma on_message_foreign st channel (notice : list (string * value))
    (key process : string) :
  Js.prop "process" notice = Some (VStr process) →
  Js.prop "key" notice = Some (VStr key) →
  process ≠ _uuid st →
  on_message channel (Json (VObj notice)) st = newSub key false false st.
Proof.
  intros Hp Hk Huuid. unfold on_message.
  mrun. cbn [Reply.JSON_parse]. mrun. cbn [Js.get]. rewrite Hp, Hk. mrun.
  cbn [Js.is_string]. rewrite bool_decide_false by done. by mrun.
Qed.

Lemma subscriptions_record_names (l : list (string * subscription)) :
  (prod_map Datatypes.id subscription_value <$> l).*1 = l.*1.
Proof. rewrite <- list_fmap_compose. by apply list_fmap_ext; intros ? [??]. Qed.

(** X10: what one node stores, another node serves.  Node [a] stores the
    subscriptions of a client whose id has no colon; node [b], on the same
    store, handles the notice [a] published; a packet then stored through
    [b] on a topic that one of the persisted patterns matches is queued for
    the client, and the client's stream on [a] hands it over. *)
Theorem stored_on_one_node_served_by_another (a b : state) (c : client)
    (p : Packet.t) (e : string) (fuel : nat) :
  clean c = false →
  faults a = [] →
  faults b = [] →
  _uuid a ≠ _uuid b →
  valid_patterns (persisted (subscriptions c)).*1 →
  JsString.contains ":" (id c) = false →
  id c ≠ "undefined" →
  db a !! (packets +:+ id c) = None →
  e ∈ (persisted (subscriptions c)).*1 →
  Matcher.matches e (Packet.topic p) = true →
  (2 ≤ fuel)%nat →
  ∃ a1 b1 b2 a2,
    storeSubscriptions c a = (a1, Return ())
    ∧ Command (PUBLISH (options_channel a) (notice_of a c)) ∈ trace a1
    ∧ on_message (options_channel a) (notice_of a c) (on_store b (db a1))
      = (b1, Return ())
    ∧ storeOfflinePacket p b1 = (b2, Return ())
    ∧ streamOfflinePackets fuel c (on_store a1 (db b2)) = (a2, Return ())
    ∧ callbacks (trace a2)
      = callbacks (trace a1) ++ [(None, Some (Packet.to_value p))].
Proof.
  intros Hc Hfa Hfb Huuid Hv Hcolon Hid Hempty He Hm Hfuel.
  destruct (storeSubscriptions_run c a Hc Hv) as (ma & Hstore & _).
  unfold next_fault in Hstore. rewrite Hfa in Hstore.
  cbn [head tail default first_error] in Hstore.
  set (record := prod_map Datatypes.id subscription_value <$> persisted (subscriptions c)).
  set (da := <[subs +:+ id c :=
                 EString (Json (subscriptions_value (persisted (subscriptions c))))
                   (Some (options_ttl_subscriptions a))]> (db a)) in *.
  destruct (newSub_replay (subs +:+ id c) false false (on_store b da) record
              (Some (options_ttl_subscriptions a))) as (mb & Hreplay & Hmb).
  { unfold next_fault. cbn [faults on_store upd]. by rewrite Hfb. }
  { cbn [db on_store upd]. apply lookup_insert_eq. }
  { unfold record. by rewrite subscriptions_record_names. }
  rewrite subs_key_token in Hmb.
  apply before_all in Hcolon. rewrite Hcolon in Hmb.
  lazymatch type of Hreplay with
  | _ = (?s, _) => set (b1 := s) in *
  end.
  destruct (storeOfflinePacket_run (id c) p b1 []) as (b2 & Hpush & Hfb2 & _ & Hl2).
  { cbn [faults b1 on_store upd]. by rewrite Hfb. }
  { done. }
  { cbn [_subMatcher b1 upd]. apply elem_of_match. exists e. split; [|done].
    apply Hmb. right. exists e. split; [|done].
    unfold record. by rewrite subscriptions_record_names. }
  { unfold backlog. cbn [db b1 on_store upd]. unfold da.
    rewrite lookup_insert_ne by apply subs_not_packets. by rewrite Hempty. }
  lazymatch type of Hstore with
  | _ = (?s, _) => set (a1 := s) in *
  end.
  destruct (streamOfflinePackets_run c [p] Hc fuel (on_store a1 (db b2)))
    as (a2 & Hstream & Htr & _).
  { cbn. lia. }
  { done. }
  { done. }
  exists a1, b1, b2, a2. split; [done|]. split; [|split; [|split; [done|split; [done|]]]].
  - cbn [trace a1 upd]. apply elem_of_app. right.
    apply elem_of_cons. right. apply elem_of_cons. by left.
  - cbn [db a1 upd]. fold da. unfold notice_of.
    rewrite (on_message_foreign _ _ _ (subs +:+ id c) (_uuid a)); [done|done|done|].
    cbn [_uuid on_store upd]. done.
  - rewrite Htr. cbn [trace on_store upd]. by rewrite callbacks_app, callbacks_drained.
Qed.

Lemma stored_on_one_node_served_by_another_witness :
  let c := {| id := "my client id - 42"; clean := false;
              subscriptions := [("hello/#", {| qos := 1 |})] |} in
  let p := {| Packet.topic := "hello/42"; Packet.payload := ["w"; "o"; "r"; "l"; "d"]%byte;
              Packet.qos := 0; Packet.messageId := Some 42; Packet.retain := None |} in
  let a := node "node-a" [] ∅ in
  let b := node "node-b" [] ∅ in
  ∃ a1 b1 b2 a2,
    storeSubscriptions c a = (a1, Return ())
    ∧ Command (PUBLISH (options_channel a) (notice_of a c)) ∈ trace a1
    ∧ on_message (options_channel a) (notice_of a c) (on_store b (db a1))
      = (b1, Return ())
    ∧ storeOfflinePacket p b1 = (b2, Return ())
    ∧ streamOfflinePackets 2 c (on_store a1 (db b2)) = (a2, Return ())
    ∧ callbacks (trace a2)
      = callbacks (trace a1) ++ [(None, Some (Packet.to_value p))].
Proof.
  intros c p a b.
  apply (stored_on_one_node_served_by_another a b c p "hello/#" 2).
  - reflexivity.
  - reflexivity.
  - reflexivity.
  - by_evaluation.
  - by_evaluation.
  - reflexivity.
  - by_evaluation.
  - reflexivity.
  - by_evaluation.
  - reflexivity.
  - lia.
Defined.

(** ** Replaying records: twice, after a failed read, at start-up *)

Lemma for_each_add_present names (i : option string) st :
  valid_patterns names →
  (∀ p, p ∈ names → (p, i) ∈ _subMatcher st) →
  for_each names (λ sub, subMatcher_add sub i) st = (st, Return ()).
Proof.
  intros Hv. induction Hv as [|n names Hn Hv IH]; intros Hin; [done|].
  cbn [for_each]. rewrite bind_run, subMatcher_add_run.
  unfold Matcher.add. rewrite Hn.
  rewrite bool_decide_true by (apply Hin; by left).
  mnorm. apply IH. intros p Hp. apply Hin. by right.
Qed.

(** X11: a record can be replayed again: a second [newSub] on the same key
    and record leaves the matcher exactly as the first one left it. *)
Theorem replay_twice_is_once (key : string) (cb cb' retried retried' : bool)
    (st : state) (record : list (string * value)) (px : option Z) :
  faults st = [] →
  db st !! key = Some (EString (Json (VObj record)) px) →
  valid_patterns record.*1 →
  ∃ st1 st2,
    newSub key cb retried st = (st1, Return ())
    ∧ newSub key cb' retried' st1 = (st2, Return ())
    ∧ _subMatcher st2 = _subMatcher st1.
Proof.
  intros Hf Hdb Hv.
  destruct (newSub_replay key cb retried st record px) as (m1 & Hrun1 & Hm1);
    [by unfold next_fault; rewrite Hf|done|done|].
  lazymatch type of Hrun1 with
  | _ = (?s, _) => set (st1 := s) in *
  end.
  enough (∃ st2, newSub key cb' retried' st1 = (st2, Return ())
                 ∧ _subMatcher st2 = _subMatcher st1) as (st2 & Hrun2 & Hm2)
    by by exists st1, st2.
  subst st1. unfold newSub, newSub_reply. mrun. rewrite Hf.
  cbn [head tail default]. rewrite Hdb. mrun. cbn [Reply.JSON_parse]. mrun.
  cbn [Reply.truthy Js.is_object negb orb Js.keys]. mrun.
  rewrite for_each_add_present; [|done|].
  - destruct cb'; mrun; eexists; by split.
  - intros p Hp. cbn [_subMatcher upd]. apply Hm1. right. by exists p.
Qed.

Lemma replay_twice_is_once_witness :
  let key := subs +:+ "c1" in
  let record := [("hello/#", VObj [("qos", VNum 1)]); ("news", VObj [("qos", VNum 2)])] in
  let st := node "node-b" [("news", Some "c1")]
              {[ key := EString (Json (VObj record)) None ]} in
  ∃ st1 st2,
    newSub key true false st = (st1, Return ())
    ∧ newSub key false false st1 = (st2, Return ())
    ∧ _subMatcher st2 = _subMatcher st1.
Proof.
  intros key record st.
  apply (replay_twice_is_once key true false false false st record None).
  - reflexivity.
  - vm_compute. reflexivity.
  - by_evaluation.
Defined.

(** X12: a read that fails is not retried.  Without callback (the handling
    of a notice) [newSub] ends there: no timer, no change.  With the
    callback of the start-up it passes the error on and then, going on to
    parse the reply it did not get, ends in an exception. *)
Theorem failed_read_is_not_retried (key : string) (retried : bool) (st : state) :
  next_fault st = true →
  newSub key false retried st = (sent st (GET key) (db st), Return ())
  ∧ newSub key true retried st
    = (upd st (_subMatcher st) (db st) (tail (faults st))
         (trace st ++ [Command (GET key); Callback (Some StoreUnavailable) None]),
       Throw SyntaxError).
Proof.
  intros Hf. unfold newSub, newSub_reply. split.
  - mrun. rewrite Hf. by mrun.
  - mrun. rewrite Hf. mrun. cbn [Reply.JSON_parse]. mrun. mdone.
Qed.

Lemma failed_read_is_not_retried_witness :
  let key := subs +:+ "c1" in
  let st := upd (node "node-b" [] ∅) [] ∅ [true] [] in
  newSub key false false st = (upd st [] ∅ [] [Command (GET key)], Return ()).
Proof.
  intros key st.
  rewrite (proj1 (failed_read_is_not_retried key false st eq_refl)).
  reflexivity.
Defined.

Lemma collect_get keys st :
  faults st = [] →
  collect keys (λ key, Rc.get key) st
  = (upd st (_subMatcher st) (db st) []
       (trace st ++ ((λ key, Command (GET key)) <$> keys)),
     Return (get_reply (db st) <$> keys)).
Proof.
  revert st. induction keys as [|k keys IH]; intros st Hf.
  - cbn [collect fmap list_fmap]. rewrite mret_run, app_nil_r, <- Hf. done.
  - cbn [collect]. rewrite bind_run, get_run. mnorm.
    unfold next_fault. rewrite Hf. cbn [head default].
    rewrite bind_run, IH by (cbn [faults sent upd]; by rewrite Hf).
    mrun. rewrite !fmap_cons. unfold get_reply at 2.
    destruct (db st !! k) as [[]|]; mdone.
Qed.

Lemma newSub_reply_record key (cb retried : bool) st record :
  valid_patterns record.*1 →
  ∃ m', newSub_reply key cb retried None (Bulk (Json (VObj record))) st
        = (upd st m' (db st) (faults st)
             (trace st ++ (if cb then [Callback None None] else [])),
           Return ())
      ∧ ∀ x, x ∈ m' ↔
             x ∈ _subMatcher st
             ∨ ∃ p, p ∈ record.*1 ∧ x = (p, JsString.split ":" key !! 2%nat).
Proof.
  intros Hv. unfold newSub_reply. mrun. cbn [Reply.JSON_parse]. mrun.
  cbn [Reply.truthy Js.is_object negb orb Js.keys]. mrun.
  edestruct (for_each_add record.*1 (JsString.split ":" key !! 2%nat))
    as (m' & Hrun & Hm'); [done|].
  rewrite Hrun. clear Hrun. exists m'. split; [|exact Hm'].
  destruct cb; mrun; [done|]. by rewrite app_nil_r.
Qed.

Lemma newSub_reply_missing key (cb : bool) d st :
  missing d key →
  newSub_reply key cb false (get_reply d key).1 (get_reply d key).2 st
  = (upd st (_subMatcher st) (db st) (faults st)
       (trace st ++ [SetTimeout (NewSub key cb true) 500]),
     Return ()).
Proof.
  unfold get_reply, newSub_reply.
  intros [->|(v & px & -> & Hv)]; cbn [fst snd]; mrun; cbn [Reply.JSON_parse]; mrun.
  - cbn [Reply.truthy negb orb]. by mrun.
  - cbn [Reply.truthy negb orb]. rewrite Hv. by mrun.
Qed.

Lemma missing_no_record d key record : missing d key → ¬ replayable d key record.
Proof.
  intros [Hd|(v & px & Hd & Hv)] [[px' Hr] _]; rewrite Hd in Hr; [done|].
  by simplify_eq.
Qed.

Lemma has_record_replayable d key record : replayable d key record → has_record d key = true.
Proof. intros [[px Hd] _]. unfold has_record. by rewrite Hd. Qed.

Lemma has_record_missing d key : missing d key → has_record d key = false.
Proof.
  unfold has_record. intros [->|(v & px & -> & Hv)]; [done|]. by destruct v.
Qed.

(** The replies of the resynchronisation, handled in the order of the keys. *)
Lemma resync_replies keys d st :
  Forall (λ key, (∃ record, replayable d key record) ∨ missing d key) keys →
  ∃ m', for_each (zip keys (get_reply d <$> keys))
          (λ kr, newSub_reply kr.1 true false kr.2.1 kr.2.2) st
        = (upd st m' (db st) (faults st) (trace st ++ (resync_event d <$> keys)),
           Return ())
      ∧ ∀ x, x ∈ m' ↔
             x ∈ _subMatcher st
             ∨ ∃ key record p, key ∈ keys ∧ replayable d key record
                               ∧ p ∈ record.*1
                               ∧ x = (p, JsString.split ":" key !! 2%nat).
Proof.
  intros Hall. revert st. induction Hall as [|k keys Hk Hall IH]; intros st.
  - exists (_subMatcher st). split; [by rewrite app_nil_r|].
    intros x. split; [by left|]. intros [?|(key & ? & ? & Hin & _)]; [done|].
    by apply elem_of_nil in Hin.
  - rewrite !fmap_cons. cbn [zip zip_with for_each]. rewrite bind_run. cbn [fst snd].
    destruct Hk as [[record Hrec]|Hmiss].
    + pose proof Hrec as [[px Hd] Hv].
      unfold resync_event at 1. rewrite (has_record_replayable d k record Hrec).
      unfold get_reply at 1 2. rewrite Hd. cbn [fst snd].
      destruct (newSub_reply_record k true false st record Hv) as (m1 & -> & Hm1).
      mnorm.
      destruct (IH (upd st m1 (db st) (faults st) (trace st ++ [Callback None None])))
        as (m' & -> & Hm').
      exists m'. split; [mdone|].
      intros x. rewrite Hm'. cbn [_subMatcher upd]. rewrite Hm1. split.
      * intros [[?|(p & Hp & ->)]|(key & rec' & p & Hin & Hr & Hp & ->)].
        -- by left.
        -- right. exists k, record, p. split; [by left|done].
        -- right. exists key, rec', p. split; [by right|done].
      * intros [?|(key & rec' & p & [->|Hin]%elem_of_cons & Hr & Hp & ->)].
        -- by left; left.
        -- left; right. exists p. split; [|done].
           destruct Hr as [[px' Hd'] _]. rewrite Hd in Hd'. by simplify_eq.
        -- right. by exists key, rec', p.
    + unfold resync_event at 1. rewrite (has_record_missing d k Hmiss).
      rewrite (newSub_reply_missing k true d st Hmiss). mnorm.
      destruct (IH (upd st (_subMatcher st) (db st) (faults st)
                      (trace st ++ [SetTimeout (NewSub k true true) 500])))
        as (m' & -> & Hm').
      exists m'. split; [mdone|].
      intros x. rewrite Hm'. cbn [_subMatcher upd]. split.
      * intros [?|(key & rec' & p & Hin & Hr)]; [by left|].
        right. exists key, rec', p. split; [by right|done].
      * intros [?|(key & rec' & p & [->|Hin]%elem_of_cons & Hr & Hrest)]; [by left| |].
        -- by destruct (missing_no_record d k rec' Hmiss).
        -- right. by exists key, rec', p.
Qed.

Lemma resync_run keys st :
  faults st = [] →
  Forall (λ key, (∃ record, replayable (db st) key record) ∨ missing (db st) key) keys →
  ∃ m', resync keys st
        = (upd st m' (db st) []
             (trace st ++ ((λ key, Command (GET key)) <$> keys)
                       ++ (resync_event (db st) <$> keys)),
           Return ())
      ∧ ∀ x, x ∈ m' ↔
             x ∈ _subMatcher st
             ∨ ∃ key record p, key ∈ keys ∧ replayable (db st) key record
                               ∧ p ∈ record.*1
                               ∧ x = (p, JsString.split ":" key !! 2%nat).
Proof.
  intros Hf Hall. unfold resync. rewrite bind_run, collect_get by done. mnorm.
  destruct (resync_replies keys (db st)
              (upd st (_subMatcher st) (db st) []
                 (trace st ++ ((λ key, Command (GET key)) <$> keys))) Hall)
    as (m' & -> & Hm').
  exists m'. split; [mdone|exact Hm'].
Qed.

Lemma callbacks_gets (keys : list string) :
  callbacks ((λ key, Command (GET key)) <$> keys) = [].
Proof. induction keys as [|k l IH]; [done|]. by rewrite fmap_cons. Qed.

Lemma resync_events_calls d keys :
  callback_errors (resync_event d <$> keys)
  = replicate (length (filter (λ key, has_record d key = true) keys)) None.
Proof.
  unfold callback_errors. induction keys as [|k keys IH]; [done|].
  rewrite fmap_cons, filter_cons. unfold resync_event at 1.
  destruct (has_record d k) eqn:Hk.
  - rewrite decide_True by done. cbn. f_equal. exact IH.
  - rewrite decide_False by done. exact IH.
Qed.

Lemma each_final_waits (n k j : nat) :
  (k + j < n)%nat → each_final n k (replicate j None) = None.
Proof.
  revert k. induction j as [|j IH]; intros k Hlt; [done|].
  cbn [replicate each_final]. rewrite decide_False by lia. apply IH. lia.
Qed.

Lemma each_final_fires (n k j : nat) :
  (k < n ≤ k + j)%nat → each_final n k (replicate j None) = Some None.
Proof.
  revert k. induction j as [|j IH]; intros k Hlt; [lia|].
  cbn [replicate each_final]. case_decide; [done|]. apply IH. lia.
Qed.

(** X13: at start-up every record is replayed.  When the store answers and
    every key found holds a record with well-formed patterns, the handler
    reads each key once, adds every pattern of every record under the third
    token of its key and nothing else, and the iterator callbacks it
    invokes make [async.each] invoke the final callback, without error. *)
Theorem resync_replays_every_record (keys : list string) (st : state) :
  faults st = [] →
  (∀ key, key ∈ keys → ∃ record, replayable (db st) key record) →
  ∃ st' new,
    resync keys st = (st', Return ())
    ∧ trace st' = trace st ++ ((λ key, Command (GET key)) <$> keys) ++ new
    ∧ async_each (length keys) (callback_errors new) = Some None
    ∧ ∀ x, x ∈ _subMatcher st' ↔
           x ∈ _subMatcher st
           ∨ ∃ key record p, key ∈ keys ∧ replayable (db st) key record
                             ∧ p ∈ record.*1
                             ∧ x = (p, JsString.split ":" key !! 2%nat).
Proof.
  intros Hf Hall.
  destruct (resync_run keys st Hf) as (m' & Hrun & Hm').
  { apply Forall_forall. intros key Hkey. left. by apply Hall. }
  eexists _, _. split; [exact Hrun|]. split; [reflexivity|]. split; [|exact Hm'].
  rewrite resync_events_calls.
  assert (filter (λ key, has_record (db st) key = true) keys = keys) as ->.
  { clear Hrun Hm'. induction keys as [|k keys IH]; [done|].
    destruct (Hall k) as [record Hrec]; [by left|].
    rewrite filter_cons_True by by eapply has_record_replayable.
    f_equal. apply IH. intros key Hkey. apply Hall. by right. }
  destruct keys as [|k keys]; [done|].
  unfold async_each. cbn [length]. apply each_final_fires. lia.
Qed.

Lemma resync_replays_every_record_witness :
  let k1 := subs +:+ "c1" in
  let k2 := subs +:+ "c2" in
  let r1 := [("hello/#", VObj [("qos", VNum 1)])] in
  let r2 := [("news", VObj [("qos", VNum 2)])] in
  let st := node "node-b" []
              (<[k1 := EString (Json (VObj r1)) None]>
                 {[ k2 := EString (Json (VObj r2)) None ]}) in
  ∃ st', resync [k1; k2] st = (st', Return ())
       ∧ ("hello/#", Some "c1") ∈ _subMatcher st'
       ∧ ("news", Some "c2") ∈ _subMatcher st'.
Proof.
  intros k1 k2 r1 r2 st.
  destruct (resync_replays_every_record [k1; k2] st) as (st' & new & Hrun & _ & _ & Hm).
  - reflexivity.
  - intros key [->|[->|Hin]%elem_of_cons]%elem_of_cons.
    + exists r1. split; [exists None; vm_compute; reflexivity|by_evaluation].
    + exists r2. split; [exists None; vm_compute; reflexivity|by_evaluation].
    + by apply elem_of_nil in Hin.
  - exists st'. split; [exact Hrun|]. split; apply Hm; right.
    + exists k1, r1, "hello/#". split; [by left|]. split.
      * split; [exists None; vm_compute; reflexivity|by_evaluation].
      * split; [by left|vm_compute; reflexivity].
    + exists k2, r2, "news". split; [by right; left|]. split.
      * split; [exists None; vm_compute; reflexivity|by_evaluation].
      * split; [by left|vm_compute; reflexivity].
Defined.

(** X14: one missing record holds the start-up back.  When a key found has
    no record at the time of its read, the handler sets the timer of the
    second read for it and [async.each] does not invoke the final callback;
    a second read that finds no record either invokes no callback. *)
Theorem resync_waits_for_missing_record (keys : list string) (key0 : string)
    (st : state) :
  faults st = [] →
  Forall (λ key, (∃ record, replayable (db st) key record) ∨ missing (db st) key) keys →
  key0 ∈ keys →
  missing (db st) key0 →
  ∃ st' new,
    resync keys st = (st', Return ())
    ∧ trace st' = trace st ++ ((λ key, Command (GET key)) <$> keys) ++ new
    ∧ SetTimeout (NewSub key0 true true) 500 ∈ new
    ∧ async_each (length keys) (callback_errors new) = None
    ∧ ∀ st2, no_record st2 key0 →
             callbacks (trace (run_task (NewSub key0 true true) st2).1)
             = callbacks (trace st2).
Proof.
  intros Hf Hall Hin Hmiss.
  destruct (resync_run keys st Hf Hall) as (m' & Hrun & _).
  eexists _, _. split; [exact Hrun|]. split; [reflexivity|]. split; [|split].
  - apply list_elem_of_fmap. exists key0. split; [|done].
    unfold resync_event. by rewrite has_record_missing.
  - rewrite resync_events_calls.
    assert (length (filter (λ key, has_record (db st) key = true) keys) < length keys)%nat
      as Hlt.
    { apply (length_filter_lt _ _ key0); [done|]. by rewrite has_record_missing. }
    destruct keys as [|k keys]; [by apply elem_of_nil in Hin|].
    unfold async_each. apply each_final_waits. lia.
  - intros st2 Hno. cbn [run_task]. rewrite newSub_no_record by done.
    cbn [fst trace upd]. by rewrite callbacks_app, app_nil_r.
Qed.

Lemma resync_waits_for_missing_record_witness :
  let k1 := subs +:+ "c1" in
  let k2 := subs +:+ "c2" in
  let st := node "node-b" []
              {[ k1 := EString (Json (VObj [("hello/#", VObj [("qos", VNum 1)])])) None ]} in
  ∃ st' new,
    resync [k1; k2] st = (st', Return ())
    ∧ trace st' = trace st ++ [Command (GET k1); Command (GET k2)] ++ new
    ∧ async_each 2 (callback_errors new) = None.
Proof.
  intros k1 k2 st.
  destruct (resync_waits_for_missing_record [k1; k2] k2 st)
    as (st' & new & Hrun & Htr & _ & Hwait & _).
  - reflexivity.
  - apply Forall_cons. split.
    + left. eexists. split; [exists None; vm_compute; reflexivity|by_evaluation].
    + apply Forall_cons. split; [|apply Forall_nil_2].
      right. left. vm_compute. reflexivity.
  - apply elem_of_cons. right. apply elem_of_cons. by left.
  - left. vm_compute. reflexivity.
  - by exists st', new.
Defined.

(** ** The server: what is logged, what is started *)

Lemma prop_copy_truthy_ne name packet result n :
  n ≠ name → Js.prop n (Server.copy_truthy name packet result) = Js.prop n result.
Proof.
  intros Hne. unfold Server.copy_truthy.
  destruct (Js.prop name packet) as [v|]; [|done].
  destruct (Js.truthy v); [|done].
  induction result as [|[k' v'] r IH]; cbn [Js.set_prop Js.prop].
  - by rewrite decide_False.
  - destruct (decide (k' = name)) as [->|Hk]; cbn [Js.prop].
    + by rewrite !decide_False.
    + destruct (decide (k' = n)); [done|exact IH].
Qed.

Lemma prop_copy_truthy_eq name packet result :
  Js.prop name result = None →
  Js.prop name (Server.copy_truthy name packet result)
  = v ← Js.prop name packet; if Js.truthy v then Some v else None.
Proof.
  intros Hfresh. unfold Server.copy_truthy.
  destruct (Js.prop name packet) as [v|]; cbn [mbind option_bind]; [|done].
  destruct (Js.truthy v); [|done].
  induction result as [|[k' v'] r IH]; cbn [Js.set_prop Js.prop].
  - by rewrite decide_True.
  - cbn [Js.prop] in Hfresh. destruct (decide (k' = name)) as [->|Hk]; [done|].
    cbn [Js.prop]. rewrite decide_False by done. by apply IH.
Qed.

(** X15: what a logged packet shows.  The object [packetSerializer] returns
    has a property exactly when it is one of the five it copies and the
    packet holds a truthy value for it, which it then carries: the payload
    is never among them, and neither is a qos of 0. *)
Theorem packetSerializer_copies_truthy (packet : list (string * value))
    (name : string) (v : value) :
  Js.prop name (Server.packetSerializer packet) = Some v
  ↔ name ∈ logged_properties ∧ Js.prop name packet = Some v ∧ Js.truthy v = true.
Proof.
  unfold Server.packetSerializer, logged_properties.
  assert (∀ x : option value,
            (v' ← x; if Js.truthy v' then Some v' else None) = Some v
            ↔ x = Some v ∧ Js.truthy v = true) as Hbind.
  { intros [v'|]; cbn [mbind option_bind].
    - destruct (Js.truthy v') eqn:Ht.
      + split; [intros [= <-]; by split|by intros [? _]].
      + split; [done|]. intros [[= <-] Ht']. by rewrite Ht in Ht'.
    - split; [done|by intros [? _]]. }
  destruct (decide (name = "subscriptions")) as [->|H5].
  { rewrite prop_copy_truthy_eq by (by rewrite !prop_copy_truthy_ne by done).
    rewrite Hbind. split; [intros []|intros (_ & ? & ?)]; [|done].
    split; [by_evaluation|done]. }
  rewrite prop_copy_truthy_ne by done.
  destruct (decide (name = "unsubscriptions")) as [->|H4].
  { rewrite prop_copy_truthy_eq by (by rewrite !prop_copy_truthy_ne by done).
    rewrite Hbind. split; [intros []|intros (_ & ? & ?)]; [|done].
    split; [by_evaluation|done]. }
  rewrite prop_copy_truthy_ne by done.
  destruct (decide (name = "qos")) as [->|H3].
  { rewrite prop_copy_truthy_eq by (by rewrite !prop_copy_truthy_ne by done).
    rewrite Hbind. split; [intros []|intros (_ & ? & ?)]; [|done].
    split; [by_evaluation|done]. }
  rewrite prop_copy_truthy_ne by done.
  destruct (decide (name = "topic")) as [->|H2].
  { rewrite prop_copy_truthy_eq by (by rewrite !prop_copy_truthy_ne by done).
    rewrite Hbind. split; [intros []|intros (_ & ? & ?)]; [|done].
    split; [by_evaluation|done]. }
  rewrite prop_copy_truthy_ne by done.
  destruct (decide (name = "messageId")) as [->|H1].
  { rewrite prop_copy_truthy_eq by done.
    rewrite Hbind. split; [intros []|intros (_ & ? & ?)]; [|done].
    split; [by_evaluation|done]. }
  rewrite prop_copy_truthy_ne by done. cbn [Js.prop].
  split; [done|]. intros (Hin & _). exfalso.
  repeat (apply elem_of_cons in Hin as [?|Hin]; [done|]).
  by apply elem_of_nil in Hin.
Qed.

Lemma packetSerializer_copies_truthy_witness :
  let packet := [("topic", VStr "hello"); ("payload", VStr "secret");
                 ("qos", VNum 0); ("messageId", VNum 42)] in
  Js.prop "messageId" (Server.packetSerializer packet) = Some (VNum 42)
  ∧ Js.prop "payload" (Server.packetSerializer packet) ≠ Some (VStr "secret")
  ∧ Js.prop "qos" (Server.packetSerializer packet) ≠ Some (VNum 0).
Proof.
  intros packet. split; [|split].
  - apply (packetSerializer_copies_truthy packet "messageId" (VNum 42)).
    split; [by_evaluation|]. split; reflexivity.
  - intros H. apply (packetSerializer_copies_truthy packet) in H as (Hin & _).
    revert Hin. by_evaluation.
  - intros H. apply (packetSerializer_copies_truthy packet) in H as (_ & _ & Ht).
    discriminate Ht.
Defined.

Ltac served := rewrite ?elem_of_app, ?elem_of_cons; naive_solver.


(** Every way the start-up steps can go. *)
Ltac start_cases o readable :=
  unfold Server.start, Server.secure_started, Server.plain_started, Server.logInfo;
  destruct o as [p h hs s allow only];
  destruct hs as [hs'|], s as [| |s'], h as [h'|], allow, only;
  cbn [Server.read_key_and_cert Server.http Server.https Server.secure
       Server.allowNonSecure Server.onlyHttp Server.port];
  try (destruct (Server.readFileSync readable (Server.keyPath s')) as [?|[]];
       [|destruct (Server.readFileSync readable (Server.certPath s')) as [?|[]]]);
  cbn.





(** X18: every port of the start-up log is served.  When the start-up runs
    to its end, a port, an http port or an https port it logs is one a
    server of that kind listens on, and so is the secure port unless
    [onlyHttp] is set. *)
Theorem logged_ports_are_served (readable : string → bool) (o : Server.options)
    (servers : list Server.listener) (info : Server.log_info) :
  Server.start readable o = (servers, inr info) →
  (∀ p, Server.log_port info = Some p → Server.MqttServer p ∈ servers)
  ∧ (∀ p, Server.log_httpPort info = Some p → Server.HttpServer p ∈ servers)
  ∧ (∀ p, Server.log_httpsPort info = Some p → Server.HttpsServer p ∈ servers)
  ∧ (Server.onlyHttp o = false →
     ∀ p, Server.log_securePort info = Some p → Server.SecureMqttServer p ∈ servers).
Proof.
  start_cases o readable; intros Hstart; simplify_eq;
    repeat split; intros; simplify_eq; served.
Qed.

Lemma logged_ports_are_served_witness :
  let o := {| Server.port := 1883; Server.http := None; Server.https := None;
              Server.secure :=
                Server.SecureObject {| Server.secure_port := None;
                                       Server.keyPath := Some "key.pem";
                                       Server.certPath := Some "cert.pem" |};
              Server.allowNonSecure := true; Server.onlyHttp := false |} in
  Server.MqttServer 1883 ∈ (Server.start (λ _, true) o).1
  ∧ Server.SecureMqttServer 8883 ∈ (Server.start (λ _, true) o).1.
Proof.
  intros o.
  destruct (logged_ports_are_served (λ _, true) o (Server.start (λ _, true) o).1
              {| Server.log_port := Some 1883; Server.log_securePort := Some 8883;
                 Server.log_httpPort := None; Server.log_httpsPort := None |})
    as (Hp & _ & _ & Hs); [reflexivity|].
  split; [by apply Hp|by apply Hs].
Defined.

(** X19: the plain port is served without being logged.  With [secure]
    undefined and [allowNonSecure] and [onlyHttp] unset, as when only a
    port is given, a start-up that runs to its end has the plain MQTT
    server listen on the port while its log gives no port. *)
Theorem plain_port_served_not_logged (readable : string → bool)
    (o : Server.options) (servers : list Server.listener) (info : Server.log_info) :
  Server.secure o = Server.SecureUndefined →
  Server.allowNonSecure o = false →
  Server.onlyHttp o = false →
  Server.start readable o = (servers, inr info) →
  Server.MqttServer (Server.port o) ∈ servers ∧ Server.log_port info = None.
Proof.
  start_cases o readable; intros Hs Hallow Honly Hstart; simplify_eq;
    (split; [served|done]).
Qed.

Lemma plain_port_served_not_logged_witness :
  let o := {| Server.port := 1883; Server.http := None; Server.https := None;
              Server.secure := Server.SecureUndefined;
              Server.allowNonSecure := false; Server.onlyHttp := false |} in
  Server.MqttServer 1883 ∈ (Server.start (λ _, true) o).1.
Proof.
  intros o.
  by destruct (plain_port_served_not_logged (λ _, true) o (Server.start (λ _, true) o).1
                 {| Server.log_port := None; Server.log_securePort := None;
                    Server.log_httpPort := None; Server.log_httpsPort := None |})
    as [H _].
Defined.
